(** * sunpy.image.coalignment: a shallow embedding and its properties

    The module [sunpy/image/coalignment.py] estimates the shift between a
    template and a layer from the peak of a correlation surface, refines the
    peak with a parabolic fit, repairs non-finite pixels beforehand and clips
    the edges of a datacube afterwards.

    Numbers.  A numpy [float64] is modelled by the type [fl]: a finite value
    is a rational ([Qc]); the three non-finite classes of IEEE 754 (NaN,
    +Inf, -Inf) are kept apart, because [repair_nonfinite], [np.argmax] and
    the comparisons of [clip_edges] all branch on them.  The sign of zero is
    not modelled: a zero divisor is taken to be +0.  [Fadd], [Fmul] and
    [Fdiv] give the exact result on finite values, and [round64] rounds a
    rational to float64 (to nearest, ties to even, with gradual underflow
    and overflow to an infinity).

    The local mean of [repair_nonfinite] is where rounding and overflow
    decide what the program does.  [np.nanmean] is a primitive of numpy
    whose result depends on them and on the order in which numpy adds; it is
    a parameter [nanmean] of the repair, and every property of the repair is
    proved for all such functions.  [nanmean64] is one of them: float64,
    adding in order.

    Arrays.  A 2-D numpy array is its list of rows together with its number
    of columns (numpy keeps the column count of an array without rows).
    Slicing follows Python: a negative bound counts from the end, and bounds
    are clipped to the extent of the axis.  A slice of an array is a view:
    writing through it writes the array ([paste2]).

    Effects.  [repair_nonfinite] contains the only loop; it is run with fuel
    and answers [None] when the fuel is exhausted.  It writes its argument
    in place, which matters to [calculate_shift] when the template shares
    its entries with the layer ([template_arg]).  [print] appends to a list
    of lines and a Python exception is a [Raise] result. *)

From Stdlib Require Import ZArith QArith Qcanon Qround Qabs Qpower Lia Lqa String.
From stdpp Require Import base list.

Open Scope Z_scope.

(** ** Floating point values *)

Inductive fl : Type :=
| Fin (q : Qc)
| PInf
| NInf
| NaN.

Definition fl_of_Z (n : Z) : fl := Fin (Q2Qc (inject_Z n)).
Definition fl_of_nat (n : nat) : fl := fl_of_Z (Z.of_nat n).

Definition qc_zero (q : Qc) : bool := Qeq_bool q 0.
Definition qc_neg (q : Qc) : bool := negb (Qle_bool 0 q).
Definition qc_le (a b : Qc) : bool := Qle_bool a b.

(** [np.isfinite] and [np.isnan]. *)
Definition isfinite (x : fl) : bool :=
  match x with Fin _ => true | _ => false end.

Definition isnan (x : fl) : bool :=
  match x with NaN => true | _ => false end.

Definition Fneg (x : fl) : fl :=
  match x with
  | Fin q => Fin (- q)%Qc
  | PInf => NInf
  | NInf => PInf
  | NaN => NaN
  end.

Definition Fadd (x y : fl) : fl :=
  match x, y with
  | NaN, _ | _, NaN => NaN
  | Fin a, Fin b => Fin (a + b)%Qc
  | PInf, NInf | NInf, PInf => NaN
  | PInf, _ | _, PInf => PInf
  | NInf, _ | _, NInf => NInf
  end.

Definition Fsub (x y : fl) : fl := Fadd x (Fneg y).

(** The sign of a non-NaN value: [true] when negative. *)
Definition fl_neg (x : fl) : bool :=
  match x with
  | Fin q => qc_neg q
  | NInf => true
  | _ => false
  end.

Definition inf_of_sign (s : bool) : fl := if s then NInf else PInf.

Definition Fmul (x y : fl) : fl :=
  match x, y with
  | NaN, _ | _, NaN => NaN
  | Fin a, Fin b => Fin (a * b)%Qc
  | Fin a, i | i, Fin a =>
      if qc_zero a then NaN else inf_of_sign (xorb (qc_neg a) (fl_neg i))
  | i, j => inf_of_sign (xorb (fl_neg i) (fl_neg j))
  end.

Definition Fdiv (x y : fl) : fl :=
  match x, y with
  | NaN, _ | _, NaN => NaN
  | Fin a, Fin b =>
      if qc_zero b
      then (if qc_zero a then NaN else inf_of_sign (qc_neg a))
      else Fin (a / b)%Qc
  | Fin _, _ => Fin 0%Qc
  | i, Fin b => inf_of_sign (xorb (fl_neg i) (qc_neg b))
  | _, _ => NaN
  end.

(** [x <= y] on floats: false as soon as one side is NaN. *)
Definition Fle (x y : fl) : bool :=
  match x, y with
  | NaN, _ | _, NaN => false
  | NInf, _ | _, PInf => true
  | Fin a, Fin b => qc_le a b
  | _, _ => false
  end.

Definition Fge (x y : fl) : bool := Fle y x.

(** [np.ceil]. *)
Definition Fceil (x : fl) : fl :=
  match x with
  | Fin q => fl_of_Z (Qceiling q)
  | _ => x
  end.

(** ** Rounding to float64 *)

Definition pow2 (e : Z) : Q := Qpower 2 e.

(** The exponent [e] with [2^e <= q < 2^(e+1)], for a positive [q]. *)
Definition floor_log2 (q : Q) : Z :=
  let e := Z.log2 (Qnum q) - Z.log2 (Zpos (Qden q)) in
  if Qle_bool (pow2 e) q then e else e - 1.

(** The nearest integer, a tie going to the even one. *)
Definition round_half_even (q : Q) : Z :=
  let f := Qfloor q in
  match (q - inject_Z f ?= 1 # 2)%Q with
  | Lt => f
  | Gt => f + 1
  | Eq => if Z.even f then f else f + 1
  end.

(** The float64 nearest to a rational: 53 significant bits, the spacing
    [2^-1074] below [2^-1022], and an infinity from [2^1024 - 2^970] on. *)
Definition round64 (q : Q) : fl :=
  if Qeq_bool q 0 then Fin 0%Qc
  else
    let a := Qabs q in
    let ulp := pow2 (Z.max (floor_log2 a) (-1022) - 52) in
    let v := (inject_Z (round_half_even (a / ulp)) * ulp)%Q in
    if Qle_bool (pow2 1024) v then inf_of_sign (negb (Qle_bool 0 q))
    else Fin (Q2Qc (if Qle_bool 0 q then v else - v)).

(** The float64 result of an operation whose exact result is [x]. *)
Definition Fround (x : fl) : fl :=
  match x with
  | Fin q => round64 q
  | _ => x
  end.

(** ** Results of Python code *)

Inductive exn : Type := ValueError | TypeError | IndexError | OverflowError.

Inductive res (A : Type) : Type :=
| Ret (a : A)
| Raise (e : exn).
Arguments Ret {A} a.
Arguments Raise {A} e.

(** A computation that may print: the lines written to standard output
    and the result. *)
Definition py (A : Type) : Type := (list string * res A)%type.

Definition py_raise {A} (e : exn) : py A := ([], Raise e).
Definition py_print (line : string) : py unit := ([line], Ret tt).
Definition py_lift {A} (r : res A) : py A := ([], r).

#[global] Instance py_ret : MRet py := fun A a => ([], Ret a).
#[global] Instance py_bind : MBind py := fun A B k m =>
  match m with
  | (out, Ret a) => let '(out', r) := k a in (out ++ out', r)
  | (out, Raise e) => (out, Raise e)
  end.

(** ** Arrays and slices *)

Record ndarray : Type := mkarr { rows : list (list fl); ncols : nat }.

Definition nrows (a : ndarray) : nat := length (rows a).

(** Every row has [ncols] entries. *)
Definition wf (a : ndarray) : Prop :=
  Forall (fun r => length r = ncols a) (rows a).

Definition wfb (a : ndarray) : bool :=
  forallb (fun r => Nat.eqb (length r) (ncols a)) (rows a).

(** [a[i, j]] as a partial read. *)
Definition cell (a : ndarray) (i j : nat) : option fl :=
  rows a !! i ≫= (fun r => r !! j).

(** [a.flatten()]: the entries in row-major order. *)
Definition flat (a : ndarray) : list fl := concat (rows a).

(** A slice bound of Python on an axis of length [n]: a negative bound
    counts from the end, and the bound is clipped to [0 .. n]. *)
Definition slice_index (n : nat) (i : Z) : nat :=
  Z.to_nat (if i <? 0 then Z.max (i + Z.of_nat n) 0 else Z.min i (Z.of_nat n)).

Definition slice_len (n : nat) (start stop : Z) : nat :=
  (slice_index n stop - slice_index n start)%nat.

(** [l[start:stop]]. *)
Definition pyslice {A} (start stop : Z) (l : list A) : list A :=
  take (slice_len (length l) start stop) (drop (slice_index (length l) start) l).

Arguments pyslice {A} start stop l : simpl never.

(** [a[r0:r1, c0:c1]]. *)
Definition slice2 (a : ndarray) (r0 r1 c0 c1 : Z) : ndarray :=
  {| rows := pyslice c0 c1 <$> pyslice r0 r1 (rows a);
     ncols := slice_len (ncols a) c0 c1 |}.

(** [a[:, j]]. *)
Definition column (a : ndarray) (j : nat) : res (list fl) :=
  match mapM (fun r : list fl => r !! j) (rows a) with
  | Some c => Ret c
  | None => Raise IndexError
  end.

(** [a[i, :]]. *)
Definition row (a : ndarray) (i : nat) : res (list fl) :=
  match rows a !! i with
  | Some r => Ret r
  | None => Raise IndexError
  end.

(** [a[i, j] = v], in range. *)
Definition setitem (a : ndarray) (i j : nat) (v : fl) : ndarray :=
  {| rows := alter (fun r => <[j := v]> r) i (rows a); ncols := ncols a |}.

(** [l[start:stop] = new], for [new] as long as the slice. *)
Definition paste {A} (start stop : Z) (new l : list A) : list A :=
  take (slice_index (length l) start) l ++ new
  ++ drop (slice_index (length l) start + slice_len (length l) start stop) l.

(** [a[r0:r1, c0:c1] = v]: what a write of the whole view [a[r0:r1, c0:c1]]
    leaves in [a]. *)
Definition paste2 (a : ndarray) (r0 r1 c0 c1 : Z) (v : ndarray) : ndarray :=
  {| rows := paste r0 r1
               (zip_with (paste c0 c1) (rows v) (pyslice r0 r1 (rows a)))
               (rows a);
     ncols := ncols a |}.

(** ** numpy primitives *)

(** [np.argmax] on the flattened array: the first maximum, a NaN being
    maximal; an empty array raises. *)
Fixpoint argmax_from (mp : fl) (best i : nat) (l : list fl) : nat :=
  match l with
  | [] => best
  | v :: l' =>
      if isnan mp then best
      else if Fle v mp then argmax_from mp best (S i) l'
      else argmax_from v i (S i) l'
  end.

Definition argmax (l : list fl) : res nat :=
  match l with
  | [] => Raise ValueError
  | v :: l' => Ret (argmax_from v 0 1 l')
  end.

(** [np.unravel_index(k, (_, n))]. *)
Definition unravel_index (k n : nat) : nat * nat := (k / n, k mod n)%nat.

(** [np.where(np.logical_not(np.isfinite(z)))]: the positions of the
    non-finite entries in row-major order, as pairs
    [(bad_index[0][k], bad_index[1][k])]. *)
Fixpoint where_row (j : nat) (r : list fl) : list nat :=
  match r with
  | [] => []
  | v :: r' =>
      if isfinite v then where_row (S j) r' else j :: where_row (S j) r'
  end.

Fixpoint where_rows (i : nat) (rs : list (list fl)) : list (nat * nat) :=
  match rs with
  | [] => []
  | r :: rs' => (pair i <$> where_row 0 r) ++ where_rows (S i) rs'
  end.

Definition bad_index (z : ndarray) : list (nat * nat) := where_rows 0 (rows z).

(** [np.sum]. *)
Definition fsum (l : list fl) : fl := fold_left Fadd l (Fin 0%Qc).

(** [np.nanmean] in float64, adding in order: NaNs are replaced by zero,
    the total is divided by the number of entries that were not NaN; with
    no such entry the quotient is 0/0, a NaN.  Every sum and the quotient
    are rounded, and a sum beyond the largest float64 is an infinity. *)
Definition replace_nan (l : list fl) : list fl :=
  (fun v => if isnan v then Fin 0%Qc else v) <$> l.

Definition count_not_nan (l : list fl) : nat :=
  length (List.filter (fun v => negb (isnan v)) l).

Definition nanmean64 (l : list fl) : fl :=
  Fround (Fdiv (fold_left (fun s v => Fround (Fadd s v)) (replace_nan l)
                          (Fin 0%Qc))
               (fl_of_nat (count_not_nan l))).

(** [subarray * np.isfinite(subarray)]: the mask is promoted to 1.0 / 0.0. *)
Definition mask_finite (l : list fl) : list fl :=
  (fun v => Fmul v (if isfinite v then Fin 1%Qc else Fin 0%Qc)) <$> l.

(** [y.dot(w)] for 1-D arrays; the lengths must agree. *)
Definition dot (y w : list fl) : res fl :=
  if Nat.eqb (length y) (length w)
  then Ret (fsum (zip_with Fmul y w))
  else Raise ValueError.

#[global] Instance res_ret : MRet res := fun A a => Ret a.
#[global] Instance res_bind : MBind res := fun A B k m =>
  match m with
  | Ret a => k a
  | Raise e => Raise e
  end.

(** [np.max]: the largest entry, a NaN winning over everything; an empty
    array raises. *)
Definition fmax (a b : fl) : fl :=
  if isnan a then a else if isnan b then b else if Fle a b then b else a.

Definition np_max (l : list fl) : res fl :=
  match l with
  | [] => Raise ValueError
  | v :: l' => Ret (fold_left fmax l' v)
  end.

(** [z[zcond]] for a boolean mask. *)
Fixpoint mask_select (z : list fl) (zcond : list bool) : list fl :=
  match z, zcond with
  | v :: z', b :: c' => if b then v :: mask_select z' c' else mask_select z' c'
  | _, _ => []
  end.

(** [np.any]. *)
Definition np_any (c : list bool) : bool := existsb id c.

(** ** The module *)

Definition qc_of (n : Z) (d : positive) : Qc := Q2Qc (n # d).

(** An entry of an array of any numeric dtype, and an array of such
    entries. *)
Inductive scalar : Type :=
| SFloat (x : fl)
| SInt (n : Z)
| SBool (b : bool).

Record array : Type := mkdata { entries : list (list scalar); width : nat }.



(** *** Clipping the edges of a datacube *)

Definition _upper_clip (z : list fl) : res fl :=
  let zupper := Fin 0%Qc in
  let zcond := (fun v => Fge v (Fin 0%Qc)) <$> z in
  if np_any zcond
  then np_max (Fceil <$> mask_select z zcond)
  else Ret zupper.

Definition _lower_clip (z : list fl) : res fl :=
  let zlower := Fin 0%Qc in
  let zcond := (fun v => Fle v (Fin 0%Qc)) <$> z in
  if np_any zcond
  then np_max (Fceil <$> (Fneg <$> mask_select z zcond))
  else Ret zlower.

(** A datacube of shape [(ny, nx, nt)]: [ny] planes of [nx] lines of [nt]
    values; the two inner extents are kept for the cubes without planes or
    lines. *)
Record datacube : Type :=
  mkcube { cube : list (list (list fl)); cube_nx : nat; cube_nt : nat }.

Definition cube_shape (d : datacube) : nat * nat * nat :=
  (length (cube d), cube_nx d, cube_nt d).

Definition cube_wf (d : datacube) : Prop :=
  Forall (fun p => length p = cube_nx d
                   ∧ Forall (fun l => length l = cube_nt d) p) (cube d).

(** A float used as a slice bound is converted to an integer by
    truncation; an infinity or a NaN cannot be converted. *)
Definition Qtrunc (q : Q) : Z := if Qle_bool 0 q then Qfloor q else Qceiling q.

Definition slice_bound (x : fl) : res Z :=
  match x with
  | Fin q => Ret (Qtrunc q)
  | NaN => Raise ValueError
  | _ => Raise OverflowError
  end.

(** [d[b0:e0, b1:e1, b2:e2]] with integer bounds. *)
Definition slice3 (d : datacube) (b0 e0 b1 e1 b2 e2 : Z) : datacube :=
  {| cube := (fun p => pyslice b2 e2 <$> pyslice b1 e1 p) <$> pyslice b0 e0 (cube d);
     cube_nx := slice_len (cube_nx d) b1 e1;
     cube_nt := slice_len (cube_nt d) b2 e2 |}.

Definition clip_edges (d : datacube) (y x : list fl) : res datacube :=
  (* Datacube shape *)
  let ny := fl_of_nat (length (cube d)) in
  let nx := fl_of_nat (cube_nx d) in
  let nt := Z.of_nat (cube_nt d) in
  (* maximum to clip off in the x-direction *)
  xupper ← _upper_clip x;
  xlower ← _lower_clip x;
  (* maximum to clip off in the y direction *)
  yupper ← _upper_clip y;
  ylower ← _lower_clip y;
  b0 ← slice_bound ylower;
  e0 ← slice_bound (Fsub (Fsub ny yupper) (Fin 1%Qc));
  b1 ← slice_bound xlower;
  e1 ← slice_bound (Fsub (Fsub nx xupper) (Fin 1%Qc));
  Ret (slice3 d b0 e0 b1 e1 0 nt).

(** *** Sub-pixel refinement *)

Definition parabolic_turning_point (y : list fl) : res fl :=
  d ← dot y [Fin (qc_of (-1) 1); Fin 0%Qc; Fin 1%Qc];
  let numerator := Fmul (Fin (qc_of (-1) 2)) d in
  denominator ← dot y [Fin 1%Qc; Fin (qc_of (-2) 1); Fin 1%Qc];
  Ret (Fdiv numerator denominator).

Definition too_big_message : string :=
  "Input array is too big in at least one dimension. Returning Nones".

Definition get_correlation_shifts (array : ndarray)
  : py (option fl * option fl) :=
  (* Check input shape *)
  let ny := nrows array in
  let nx := ncols array in
  if (3 <? nx)%nat || (3 <? ny)%nat then
    _ ← py_print too_big_message;
    mret (None, None)
  else
    (* Find where the maximum of the input array is *)
    k ← py_lift (argmax (flat array));
    let '(y_max_location, x_max_location) := unravel_index k nx in
    y_location ←
      (if (ny =? 3)%nat
       then py_lift (c ← column array x_max_location; parabolic_turning_point c)
       else mret (fl_of_nat y_max_location));
    x_location ←
      (if (nx =? 3)%nat
       then py_lift (r ← row array y_max_location; parabolic_turning_point r)
       else mret (fl_of_nat x_max_location));
    mret (Some y_location, Some x_location).

(** *** Peak location *)

(** The index of the maximum of the correlation function, as
    [(cor_max_y, cor_max_x)]. *)
Definition peak (corr : ndarray) : res (nat * nat) :=
  k ← argmax (flat corr);
  Ret (unravel_index k (ncols corr)).

(** The correlation function around the maximum. *)
Definition array_around_maximum (corr : ndarray) (cor_max_y cor_max_x : nat)
  : ndarray :=
  let y := Z.of_nat cor_max_y in
  let x := Z.of_nat cor_max_x in
  slice2 corr
    (Z.max 0 (y - 1)) (Z.min (y + 2) (Z.of_nat (nrows corr) - 1))
    (Z.max 0 (x - 1)) (Z.min (x + 2) (Z.of_nat (ncols corr) - 1)).

(** [shift + cor_max]; adding an integer to [None] is a type error. *)
Definition add_location (shift : option fl) (cor_max : nat) : res fl :=
  match shift with
  | Some s => Ret (Fadd s (fl_of_nat cor_max))
  | None => Raise TypeError
  end.

Definition find_best_match_location (corr : ndarray) : py (fl * fl) :=
  '(cor_max_y, cor_max_x) ← py_lift (peak corr);
  '(y_shift_relative_to_maximum, x_shift_relative_to_maximum) ←
    get_correlation_shifts (array_around_maximum corr cor_max_y cor_max_x);
  y_shift_relative_to_correlation_array ←
    py_lift (add_location y_shift_relative_to_maximum cor_max_y);
  x_shift_relative_to_correlation_array ←
    py_lift (add_location x_shift_relative_to_maximum cor_max_x);
  mret (y_shift_relative_to_correlation_array,
        x_shift_relative_to_correlation_array).

(** *** Repair of non-finite entries *)

(** The sub array around the bad index [(by, bx)]. *)
Definition subarray_around (z : ndarray) (by_ bx : nat) : ndarray :=
  let nx := Z.of_nat (ncols z) in
  let ny := Z.of_nat (nrows z) in
  (* x locations taking in to account the boundary *)
  let x := Z.of_nat bx in
  let x := if (Z.of_nat bx =? 0) then 1 else x in
  let x := if (Z.of_nat bx =? nx - 1) then nx - 2 else x in
  (* y locations taking in to account the boundary *)
  let y := Z.of_nat by_ in
  let y := if (Z.of_nat by_ =? 0) then 1 else y in
  let y := if (Z.of_nat by_ =? ny - 1) then ny - 2 else y in
  slice2 z (y - 1) (y + 2) (x - 1) (x + 2).

Section Repair.

(** [np.nanmean], on the flattened array. *)
Variable nanmean : list fl → fl.

(** One turn of the loop: the first bad entry receives the local mean. *)
Definition repair_first (z : ndarray) (by_ bx : nat) : ndarray :=
  let subarray := flat (subarray_around z by_ bx) in
  setitem z by_ bx (nanmean (mask_finite subarray)).

Fixpoint repair_nonfinite (fuel : nat) (z : ndarray) : option ndarray :=
  match bad_index z with
  | [] => Some z
  | (by_, bx) :: _ =>
      match fuel with
      | O => None
      | S fuel' => repair_nonfinite fuel' (repair_first z by_ bx)
      end
  end.

End Repair.

(** *** The shift of a template on a layer *)

(** The template of a call: an array of its own, or the view
    [this_layer[r0:r1, c0:c1]], which shares its entries with the layer.
    (Two views of a third array that overlap in part only are not
    covered.) *)
Inductive template_arg : Type :=
| OwnArray (template : ndarray)
| ViewOfLayer (r0 r1 c0 c1 : Z).

(** The entries of the template, read when the layer holds [this_layer]. *)
Definition template_value (this_layer : ndarray) (template : template_arg)
  : ndarray :=
  match template with
  | OwnArray a => a
  | ViewOfLayer r0 r1 c0 c1 => slice2 this_layer r0 r1 c0 c1
  end.

(** The layer after the template has been written in place with
    [repaired]. *)
Definition write_back (this_layer : ndarray) (template : template_arg)
    (repaired : ndarray) : ndarray :=
  match template with
  | OwnArray _ => this_layer
  | ViewOfLayer r0 r1 c0 c1 => paste2 this_layer r0 r1 c0 c1 repaired
  end.

Section CalculateShift.

Variable nanmean : list fl → fl.

(** [skimage.feature.match_template], the correlation primitive. *)
Variable match_template : ndarray → ndarray → res ndarray.

Definition match_template_to_layer (layer template : ndarray) : res ndarray :=
  match_template layer template.

Definition calculate_shift (fuel : nat) (this_layer : ndarray)
    (template : template_arg) : option (py (fl * fl)) :=
  (* Repair any NANs, Infs, etc in the layer and the template *)
  this_layer ← repair_nonfinite nanmean fuel this_layer;
  repaired ← repair_nonfinite nanmean fuel (template_value this_layer template);
  let this_layer := write_back this_layer template repaired in
  let template := repaired in
  Some (
    (* Calculate the correlation array matching the template to this layer *)
    corr ← py_lift (match_template_to_layer this_layer template);
    (* Calculate the y and x shifts in pixels *)
    find_best_match_location corr).

End CalculateShift.

(** * Specifications

    The notions the properties are stated with, and the sample inputs. *)

(** The closed form of the turning point, as the specification writes it:
    [-0.5 * (y[2] - y[0]) / (y[0] - 2 * y[1] + y[2])]. *)
Definition closed_form (y0 y1 y2 : fl) : fl :=
  Fdiv (Fmul (Fin (qc_of (-1) 2)) (Fsub y2 y0))
       (Fadd (Fsub y0 (Fmul (Fin (qc_of 2 1)) y1)) y2).

(** No entry of the array is non-finite. *)
Definition all_finite (z : ndarray) : Prop :=
  Forall (Forall (fun v => isfinite v = true)) (rows z).

(** The stop index [min (k+2) (n-1)] of the neighbourhood around the peak
    index [k] on an axis of length [n], as a natural number. *)
Definition nbhd_stop (k n : nat) : nat := ((k + 2) `min` (n - 1))%nat.

(** Sample correlation surfaces: a 4x4 surface with its peak at (1, 1) and
    a 2x2 surface with its peak in the last row and the last column. *)
Definition surface_4x4 : ndarray :=
  mkarr [[Fin 0%Qc; Fin (qc_of 1 2); Fin 0%Qc; Fin 0%Qc];
         [Fin (qc_of 1 2); Fin 1%Qc; Fin (qc_of 1 2); Fin 0%Qc];
         [Fin 0%Qc; Fin (qc_of 1 2); Fin 0%Qc; Fin 0%Qc];
         [Fin 0%Qc; Fin 0%Qc; Fin 0%Qc; Fin 0%Qc]] 4.

Definition surface_2x2 : ndarray :=
  mkarr [[Fin 0%Qc; Fin 0%Qc]; [Fin 0%Qc; Fin 1%Qc]] 2.

(** [m] is the clip margin of the shifts [z]: the maximum of [val v] over
    the entries [v] selected by [sel], and 0 when none is selected. *)
Definition is_margin (sel : fl → bool) (val : fl → fl) (z : list fl) (m : fl)
  : Prop :=
  ((∀ v, v ∈ z → sel v = false) ∧ m = Fin 0%Qc)
  ∨ ((∃ v, v ∈ z ∧ sel v = true ∧ m = val v)
     ∧ ∀ v, v ∈ z → sel v = true → Fle (val v) m = true).

(** [x_upper]: the maximum of [ceil(v)] over the entries [v >= 0]. *)
Definition is_upper_margin : list fl → fl → Prop :=
  is_margin (fun v => Fge v (Fin 0%Qc)) Fceil.

(** [x_lower]: the maximum of [ceil(-v)] over the entries [v <= 0]. *)
Definition is_lower_margin : list fl → fl → Prop :=
  is_margin (fun v => Fle v (Fin 0%Qc)) (fun v => Fceil (Fneg v)).

(** [d[b0:e0, b1:e1, :]] with float bounds, the last axis kept whole. *)
Definition cube_getitem (d : datacube) (b0 e0 b1 e1 : fl) : res datacube :=
  b0 ← slice_bound b0;
  e0 ← slice_bound e0;
  b1 ← slice_bound b1;
  e1 ← slice_bound e1;
  Ret {| cube := (fun p => pyslice b1 e1 p) <$> pyslice b0 e0 (cube d);
         cube_nx := slice_len (cube_nx d) b1 e1;
         cube_nt := cube_nt d |}.

(** The worked example of the specification. *)
Definition example_yshifts : list fl := [fl_of_Z 2; fl_of_Z (-1); fl_of_Z 0].
Definition example_xshifts : list fl := [fl_of_Z 0; fl_of_Z 0; fl_of_Z 0].

Definition example_datacube : datacube :=
  mkcube (replicate 10 (replicate 10 (replicate 3 (Fin 0%Qc)))) 10 3.

(** What [get_correlation_shifts] returns when it returns a pair of numbers:
    along an axis of length 3 the turning point of the parabola through the
    local maximum, along a shorter axis the location of the local maximum. *)
Definition refined (nb : ndarray) (ly lx : nat) (dy dx : fl) : Prop :=
  (if (nrows nb =? 3)%nat
   then (c ← column nb lx; parabolic_turning_point c) = Ret dy
   else dy = fl_of_nat ly)
  ∧ (if (ncols nb =? 3)%nat
     then (r ← row nb ly; parabolic_turning_point r) = Ret dx
     else dx = fl_of_nat lx).

(** The shift as the specification words it: the local offsets of the
    refinement step, plus the location of the neighbourhood's own maximum,
    plus the integer peak of the surface. *)
Definition claimed_shift (corr : ndarray) : py (fl * fl) :=
  '(cor_max_y, cor_max_x) ← py_lift (peak corr);
  let nb := array_around_maximum corr cor_max_y cor_max_x in
  '(dy, dx) ← get_correlation_shifts nb;
  '(ly, lx) ← py_lift (peak nb);
  y ← py_lift (add_location dy ly);
  x ← py_lift (add_location dx lx);
  mret (Fadd y (fl_of_nat cor_max_y), Fadd x (fl_of_nat cor_max_x)).

(** A stand-in for the correlation primitive that answers [surface_4x4]. *)
Definition constant_surface (_ _ : ndarray) : res ndarray := Ret surface_4x4.

(** The list holds a finite value. *)
Definition has_finite (l : list fl) : Prop :=
  Exists (fun v => isfinite v = true) l.

(** A non-finite entry of the array. *)
Definition nonfinite_at (z : ndarray) (i j : nat) : Prop :=
  ∃ v, cell z i j = Some v ∧ isfinite v = false.

(** The first index of the 3-wide window around position [k] on an axis of
    length [n]: the window of position 0 and of the last position is moved
    one step inward. *)
Definition window_origin (n k : nat) : nat :=
  if (k =? 0)%nat then 0%nat
  else if (k =? n - 1)%nat then (n - 3)%nat
  else (k - 1)%nat.

Definition window_cells (ny nx by_ bx : nat) : list (nat * nat) :=
  let oy := window_origin ny by_ in
  let ox := window_origin nx bx in
  [(oy, ox); (oy, ox + 1); (oy, ox + 2);
   (oy + 1, ox); (oy + 1, ox + 1); (oy + 1, ox + 2);
   (oy + 2, ox); (oy + 2, ox + 1); (oy + 2, ox + 2)]%nat.

(** The values of the window, in row-major order. *)
Definition window_values (z : ndarray) (by_ bx : nat) : list fl :=
  omap (fun c : nat * nat => cell z c.1 c.2)
       (window_cells (nrows z) (ncols z) by_ bx).

(** A 3x4 array whose first three columns are NaN: the window of the first
    bad entry, rows 0..2 and columns 0..2, holds no finite value. *)
Definition blocked_3x4 : ndarray :=
  mkarr [[NaN; NaN; NaN; Fin 1%Qc];
         [NaN; NaN; NaN; Fin 1%Qc];
         [NaN; NaN; NaN; Fin 1%Qc]] 4.

(** A 2x2 array with a NaN in its last corner: the boundary adjustment
    sets [x = y = 0], and the slice [z[-1:2, -1:2]] is the corner alone. *)
Definition nan_corner_2x2 : ndarray :=
  mkarr [[Fin 1%Qc; Fin 1%Qc]; [Fin 1%Qc; NaN]] 2.

(** A template for the sample calls. *)
Definition template_2x2 : ndarray :=
  mkarr [[fl_of_Z 1; fl_of_Z 2]; [fl_of_Z 3; fl_of_Z 4]] 2.

(** A finite value is reachable from an entry through the windows: it lies
    in the window of the entry, or in the window of an entry of that window,
    and so on. *)
Inductive reaches_finite (z : ndarray) : nat → nat → Prop :=
| reach_here by_ bx i j q :
    (i, j) ∈ window_cells (nrows z) (ncols z) by_ bx →
    cell z i j = Some (Fin q) →
    reaches_finite z by_ bx
| reach_next by_ bx i j :
    (i, j) ∈ window_cells (nrows z) (ncols z) by_ bx →
    reaches_finite z i j →
    reaches_finite z by_ bx.

(** A 3x3 array with a NaN in its centre. *)
Definition nan_centre_3x3 : ndarray :=
  mkarr [[fl_of_Z 1; fl_of_Z 2; fl_of_Z 3];
         [fl_of_Z 4; NaN; fl_of_Z 6];
         [fl_of_Z 7; fl_of_Z 8; fl_of_Z 9]] 3.

(** The entry [(by, bx)] is isolated: the array has room for a 3x3 window
    and the eight other values of the window are finite. *)
Definition isolated (z : ndarray) (by_ bx : nat) : Prop :=
  (3 ≤ nrows z)%nat ∧ (3 ≤ ncols z)%nat
  ∧ ∀ i j, (i, j) ∈ window_cells (nrows z) (ncols z) by_ bx →
           (i, j) ≠ (by_, bx) → ∃ q, cell z i j = Some (Fin q).

(** The number of entries that [clip_edges] keeps along an axis of length
    [n] with the margins [upper] and [lower]: the stop index
    [n - upper - 1] counts from the end when it is negative. *)
Definition clipped_extent (n upper lower : nat) : nat :=
  if (upper + 1 <=? n)%nat
  then (n - (upper + 1) - lower)%nat
  else (2 * n - (upper + 1) - lower)%nat.

(** [k] is the index of the first maximum of [l]; a NaN counts as maximal.
    The entries before [k] are no NaN and are not reached by the maximum;
    when the maximum is no NaN the entries after [k] are at most equal. *)
Definition first_max (l : list fl) (k : nat) : Prop :=
  ∃ m, l !! k = Some m
       ∧ (∀ i v, (i < k)%nat → l !! i = Some v →
            isnan v = false ∧ Fle m v = false)
       ∧ (isnan m = false →
          ∀ i w, (k < i)%nat → l !! i = Some w → Fle w m = true).

(** Row-major order on positions. *)
Definition before (p q : nat * nat) : Prop :=
  (p.1 < q.1)%nat ∨ (p.1 = q.1 ∧ (p.2 < q.2)%nat).

(** The entry [(r, c)] is the first maximum of the surface in row-major
    order, a NaN counting as maximal. *)
Definition is_peak (corr : ndarray) (r c : nat) : Prop :=
  ∃ m, cell corr r c = Some m
       ∧ (∀ i j v, cell corr i j = Some v → before (i, j) (r, c) →
            isnan v = false ∧ Fle m v = false)
       ∧ (isnan m = false →
          ∀ i j w, cell corr i j = Some w → before (r, c) (i, j) →
            Fle w m = true).

(** A 3x3 surface with its peak in the centre, which is the second to last
    row and the second to last column. *)
Definition surface_3x3 : ndarray :=
  mkarr [[Fin 0%Qc; Fin (qc_of 1 2); Fin 0%Qc];
         [Fin (qc_of 1 2); Fin 1%Qc; Fin (qc_of 1 2)];
         [Fin 0%Qc; Fin (qc_of 1 2); Fin 0%Qc]] 3.

(** An entry as [subarray * np.isfinite(subarray)] holds it: a finite value
    is kept, any other value is a NaN. *)
Definition masked (v : fl) : fl :=
  Fmul v (if isfinite v then Fin 1%Qc else Fin 0%Qc).

Definition same_masked (a b : fl) : Prop := masked a = masked b.

(** The mean that a turn of the loop writes for the entry [(by, bx)]. *)
Definition local_mean (nanmean : list fl → fl) (z : ndarray) (by_ bx : nat)
  : fl :=
  nanmean (mask_finite (flat (subarray_around z by_ bx))).

(** One pass over the positions [ps]: each receives its local mean in the
    array as the positions before it have left it. *)
Fixpoint pass (nanmean : list fl → fl) (z : ndarray) (ps : list (nat * nat))
  : ndarray :=
  match ps with
  | [] => z
  | (by_, bx) :: ps' => pass nanmean (repair_first nanmean z by_ bx) ps'
  end.

(** Every mean written by the pass is finite. *)
Fixpoint pass_ok (nanmean : list fl → fl) (z : ndarray)
    (ps : list (nat * nat)) : bool :=
  match ps with
  | [] => true
  | (by_, bx) :: ps' =>
      isfinite (local_mean nanmean z by_ bx)
      && pass_ok nanmean (repair_first nanmean z by_ bx) ps'
  end.

(** No mean written by the pass overflows: the mean of a sub array that
    holds a finite value is finite. *)
Fixpoint no_overflow (nanmean : list fl → fl) (z : ndarray)
    (ps : list (nat * nat)) : bool :=
  match ps with
  | [] => true
  | (by_, bx) :: ps' =>
      implb (existsb isfinite (flat (subarray_around z by_ bx)))
            (isfinite (local_mean nanmean z by_ bx))
      && no_overflow nanmean (repair_first nanmean z by_ bx) ps'
  end.

(** The index around which the loop cuts the sub array, on an axis of
    length [n] and for the bad index [k]. *)
Definition centre (n k : nat) : Z :=
  let x := Z.of_nat k in
  let x := if (Z.of_nat k =? 0) then 1 else x in
  let x := if (Z.of_nat k =? Z.of_nat n - 1) then Z.of_nat n - 2 else x in
  x.

(** The indices that the slice [start:stop] selects on an axis of length
    [n]. *)
Definition slice_range (n : nat) (start stop : Z) : list nat :=
  seq (slice_index n start) (slice_len n start stop).

(** The positions of the sub array of the loop, in row-major order, for an
    array of any shape. *)
Definition subarray_cells (ny nx by_ bx : nat) : list (nat * nat) :=
  concat ((fun i => pair i <$> slice_range nx (centre nx bx - 1) (centre nx bx + 2))
          <$> slice_range ny (centre ny by_ - 1) (centre ny by_ + 2)).

(** The sub array of the entry [(by, bx)] holds an entry that is finite, or
    one that comes before [(by, bx)] in row-major order and is repaired
    before it. *)
Definition anchored (z : ndarray) (by_ bx : nat) : Prop :=
  ∃ i j v, (i, j) ∈ subarray_cells (nrows z) (ncols z) by_ bx
           ∧ cell z i j = Some v
           ∧ (isfinite v = true ∨ before (i, j) (by_, bx)).

(** The largest power of two among the float64 values. *)
Definition huge : fl := fl_of_Z (2 ^ 1023).

(** A 3x3 array with a NaN among eight times [huge]: the sum of the eight
    is beyond float64. *)
Definition overflow_3x3 : ndarray :=
  mkarr [[huge; huge; huge]; [huge; NaN; huge]; [huge; huge; huge]] 3.

(** A 3x4 array whose last three columns are NaN: the sub array of an entry
    of the last column holds no finite value until the entries before it
    are repaired. *)
Definition mirrored_3x4 : ndarray :=
  mkarr [[Fin 1%Qc; NaN; NaN; NaN];
         [Fin 1%Qc; NaN; NaN; NaN];
         [Fin 1%Qc; NaN; NaN; NaN]] 4.

(** A value of a masked array that does not exceed [2^k] in magnitude. *)
Definition bounded_by (k : Z) (v : fl) : Prop :=
  match v with
  | Fin q => (Qabs q <= pow2 k)%Q
  | NaN => True
  | _ => False
  end.

(** No overflow below [2^1020]: the mean of at most nine values, NaNs apart,
    none of which exceeds [2^k] in magnitude, is finite and does not exceed
    [2^k] either. *)
Definition mean_bounded (nanmean : list fl → fl) : Prop :=
  ∀ (k : Z) (l : list fl), -1074 ≤ k ≤ 1020 → (length l ≤ 9)%nat →
    Forall (bounded_by k) l → has_finite l →
    ∃ q : Qc, nanmean l = Fin q ∧ (Qabs q <= pow2 k)%Q.

(** The finite entries of the array do not exceed [2^k] in magnitude. *)
Definition cells_bounded (k : Z) (z : ndarray) : Prop :=
  ∀ i j q, cell z i j = Some (Fin q) → (Qabs q <= pow2 k)%Q.

(** * Properties *)

(** ** Arithmetic of [fl] *)

(** Two canonical rationals are equal when their fractions are. *)
Ltac qc_eq := apply Qc_is_canon; reflexivity.

(** Closed goals over the model: evaluate both sides, then compare the
    rationals by their fractions. *)
Ltac eq_step :=
  lazymatch goal with
  | |- @eq Qc _ _ => qc_eq
  | |- _ => first [reflexivity | f_equal]
  end.

Ltac by_eval := vm_compute; repeat eq_step.

Lemma qc_of_m1 : qc_of (-1) 1 = (- (1))%Qc.
Proof. qc_eq. Qed.

Lemma qc_of_m2 : qc_of (-2) 1 = (- (1 + 1))%Qc.
Proof. qc_eq. Qed.

Lemma Fadd_comm x y : Fadd x y = Fadd y x.
Proof. destruct x, y; simpl; try reflexivity. f_equal. ring. Qed.

Lemma Fadd_0_l x : Fadd (Fin 0%Qc) x = x.
Proof. destruct x; simpl; try reflexivity. f_equal. ring. Qed.

Lemma Fadd_0_r x : Fadd x (Fin 0%Qc) = x.
Proof. rewrite Fadd_comm. apply Fadd_0_l. Qed.

Lemma Fmul_1_r x : Fmul x (Fin 1%Qc) = x.
Proof. destruct x; simpl; try reflexivity. f_equal. ring. Qed.

Lemma Fmul_m1_r x : Fmul x (Fin (qc_of (-1) 1)) = Fneg x.
Proof.
  destruct x; simpl; try reflexivity.
  f_equal. rewrite qc_of_m1. ring.
Qed.

Lemma qc_neg_opp_2 : qc_neg (qc_of (-2) 1) = true.
Proof. reflexivity. Qed.

Lemma Fmul_m2_r x :
  Fmul x (Fin (qc_of (-2) 1)) = Fneg (Fmul (Fin (qc_of 2 1)) x).
Proof.
  destruct x; simpl; try reflexivity.
  f_equal. rewrite qc_of_m2.
  replace (qc_of 2 1) with (1 + 1)%Qc by qc_eq. ring.
Qed.

(** A zero weight erases every entry but an infinite one. *)
Lemma Fmul_0_r x :
  x ≠ PInf → x ≠ NInf →
  Fmul x (Fin 0%Qc) = if isnan x then NaN else Fin 0%Qc.
Proof.
  destruct x; simpl; try congruence.
  intros _ _. f_equal. ring.
Qed.

Lemma Fadd_NaN_r x : Fadd x NaN = NaN.
Proof. by destruct x. Qed.

Lemma Fdiv_NaN_r x : Fdiv x NaN = NaN.
Proof. by destruct x. Qed.

Lemma dot3 y0 y1 y2 w0 w1 w2 :
  dot [y0; y1; y2] [w0; w1; w2]
  = Ret (Fadd (Fadd (Fadd (Fin 0%Qc) (Fmul y0 w0)) (Fmul y1 w1)) (Fmul y2 w2)).
Proof. reflexivity. Qed.

(** ** Parabolic fit *)

Lemma parabolic_turning_point_3 y0 y1 y2 :
  y1 ≠ PInf → y1 ≠ NInf →
  parabolic_turning_point [y0; y1; y2] = Ret (closed_form y0 y1 y2).
Proof.
  intros Hp Hn. unfold parabolic_turning_point, closed_form.
  rewrite !dot3. unfold mbind, res_bind. f_equal.
  rewrite !Fmul_1_r, Fmul_m1_r, Fmul_m2_r, !Fadd_0_l.
  rewrite (Fmul_0_r y1) by assumption.
  destruct (isnan y1) eqn:E.
  - destruct y1; try discriminate. by destruct y0, y2.
  - rewrite Fadd_0_r. unfold Fsub. by rewrite (Fadd_comm (Fneg y0) y2).
Qed.

(** C4, as amended.  For every three-element array [y] whose middle entry is
    not an infinity, [parabolic_turning_point y] equals
    [-0.5 * (y[2] - y[0]) / (y[0] - 2 * y[1] + y[2])]; on the symmetric input
    [[1, 2, 1]] it returns the offset [0.0]. *)
Theorem parabolic_turning_point_closed_form (y0 y1 y2 : fl) :
  y1 ≠ PInf → y1 ≠ NInf →
  parabolic_turning_point [y0; y1; y2] = Ret (closed_form y0 y1 y2)
  ∧ parabolic_turning_point [fl_of_Z 1; fl_of_Z 2; fl_of_Z 1] = Ret (Fin 0%Qc).
Proof.
  intros Hp Hn. split.
  - by apply parabolic_turning_point_3.
  - by_eval.
Qed.

Lemma parabolic_turning_point_closed_form_witness :
  parabolic_turning_point [fl_of_Z 1; fl_of_Z 2; fl_of_Z 1]
  = Ret (closed_form (fl_of_Z 1) (fl_of_Z 2) (fl_of_Z 1))
  ∧ parabolic_turning_point [fl_of_Z 1; fl_of_Z 2; fl_of_Z 1] = Ret (Fin 0%Qc).
Proof.
  apply (parabolic_turning_point_closed_form (fl_of_Z 1) (fl_of_Z 2) (fl_of_Z 1));
    discriminate.
Defined.

(** C4 as stated fails on an array with an infinite middle entry: the dot
    product multiplies the infinity by the zero weight, so the numerator is a
    NaN, while the closed form never reads [y[1]] in its numerator and
    evaluates to [0 / -Inf = 0]. *)
Lemma parabolic_turning_point_infinite_middle :
  parabolic_turning_point [fl_of_Z 1; PInf; fl_of_Z 1] = Ret NaN
  ∧ closed_form (fl_of_Z 1) PInf (fl_of_Z 1) = Fin 0%Qc
  ∧ parabolic_turning_point [fl_of_Z 1; PInf; fl_of_Z 1]
    ≠ Ret (closed_form (fl_of_Z 1) PInf (fl_of_Z 1)).
Proof.
  split; [by_eval | split; [by_eval |]].
  intros H. vm_compute in H. discriminate H.
Qed.

(** ** Refusal of an oversized neighbourhood *)

(** C5.  For every 2-D array with a dimension greater than 3 (a 4x3 array,
    say), [get_correlation_shifts] prints its diagnostic and returns the pair
    [(None, None)]; it raises nothing. *)
Theorem get_correlation_shifts_too_big (array : ndarray) :
  (3 < nrows array ∨ 3 < ncols array)%nat →
  get_correlation_shifts array = ([too_big_message], Ret (None, None)).
Proof.
  intros H. unfold get_correlation_shifts.
  assert ((3 <? ncols array)%nat || (3 <? nrows array)%nat = true) as ->.
  { apply orb_true_iff. rewrite !Nat.ltb_lt. lia. }
  reflexivity.
Qed.

Lemma get_correlation_shifts_too_big_witness :
  get_correlation_shifts (mkarr (replicate 4 (replicate 3 (fl_of_Z 0))) 3)
  = ([too_big_message], Ret (None, None)).
Proof.
  apply (get_correlation_shifts_too_big
           (mkarr (replicate 4 (replicate 3 (fl_of_Z 0))) 3)).
  left. vm_compute. lia.
Defined.

(** ** Repair of non-finite entries: finite arrays *)

Lemma where_row_finite j r :
  Forall (fun v => isfinite v = true) r → where_row j r = [].
Proof.
  intros H. revert j. induction H as [|v r Hv _ IH]; intros j; simpl.
  - reflexivity.
  - rewrite Hv. apply IH.
Qed.

Lemma where_rows_finite i rs :
  Forall (Forall (fun v => isfinite v = true)) rs → where_rows i rs = [].
Proof.
  intros H. revert i. induction H as [|r rs Hr _ IH]; intros i; simpl.
  - reflexivity.
  - rewrite (where_row_finite 0 r Hr). simpl. apply IH.
Qed.

(** C8.  On an array whose entries are all finite the loop of
    [repair_nonfinite] is not entered: the array comes back unchanged,
    whatever the fuel and whatever [np.nanmean] computes. *)
Theorem repair_nonfinite_finite_noop (nanmean : list fl → fl) (fuel : nat)
    (z : ndarray) :
  all_finite z → repair_nonfinite nanmean fuel z = Some z.
Proof.
  intros H.
  assert (bad_index z = []) as E by (by apply where_rows_finite).
  destruct fuel; simpl; by rewrite E.
Qed.

Lemma repair_nonfinite_finite_noop_witness :
  all_finite template_2x2
  ∧ repair_nonfinite nanmean64 0 template_2x2 = Some template_2x2.
Proof.
  assert (all_finite template_2x2) as H by repeat constructor.
  split; [exact H|].
  exact (repair_nonfinite_finite_noop nanmean64 0 template_2x2 H).
Defined.

(** ** Slices *)

Lemma slice_index_le n i : (slice_index n i ≤ n)%nat.
Proof. unfold slice_index. destruct (Z.ltb_spec i 0); lia. Qed.

Lemma slice_index_nat n k : slice_index n (Z.of_nat k) = (k `min` n)%nat.
Proof. unfold slice_index. destruct (Z.ltb_spec (Z.of_nat k) 0); lia. Qed.

Lemma slice_len_nat n lo hi :
  (hi ≤ n)%nat → slice_len n (Z.of_nat lo) (Z.of_nat hi) = (hi - lo)%nat.
Proof. intros H. unfold slice_len. rewrite !slice_index_nat. lia. Qed.

Lemma length_pyslice {A} (l : list A) start stop :
  length (pyslice start stop l) = slice_len (length l) start stop.
Proof.
  unfold pyslice. rewrite length_take, length_drop. unfold slice_len.
  pose proof (slice_index_le (length l) stop). lia.
Qed.

Lemma pyslice_nat {A} (l : list A) lo hi :
  (hi ≤ length l)%nat →
  pyslice (Z.of_nat lo) (Z.of_nat hi) l = take (hi - lo) (drop lo l).
Proof.
  intros H. unfold pyslice. rewrite slice_len_nat, slice_index_nat by done.
  destruct (Nat.le_gt_cases lo (length l)).
  - by rewrite Nat.min_l.
  - replace (hi - lo)%nat with 0%nat by lia. reflexivity.
Qed.

Lemma pyslice_lookup {A} (l : list A) lo hi i :
  (hi ≤ length l)%nat → (i < hi - lo)%nat →
  pyslice (Z.of_nat lo) (Z.of_nat hi) l !! i = l !! (lo + i)%nat.
Proof.
  intros H Hi. rewrite pyslice_nat by done.
  rewrite lookup_take_lt by done. apply lookup_drop.
Qed.

Lemma Forall_pyslice {A} (P : A → Prop) (l : list A) start stop :
  Forall P l → Forall P (pyslice start stop l).
Proof. intros H. unfold pyslice. by apply Forall_take, Forall_drop. Qed.

Lemma slice2_nrows a r0 r1 c0 c1 :
  nrows (slice2 a r0 r1 c0 c1) = slice_len (nrows a) r0 r1.
Proof. unfold nrows, slice2. simpl. by rewrite length_fmap, length_pyslice. Qed.

Lemma slice2_wf a r0 r1 c0 c1 : wf a → wf (slice2 a r0 r1 c0 c1).
Proof.
  unfold wf, slice2. simpl. intros H.
  apply Forall_fmap, Forall_pyslice.
  eapply Forall_impl; [exact H|]. intros r Hr. simpl in Hr. unfold compose.
  by rewrite length_pyslice, Hr.
Qed.

(** An entry of a slice with bounds inside the array is the entry of the
    array at the shifted position. *)
Lemma slice2_cell a (r0 r1 c0 c1 i j : nat) :
  wf a → (r1 ≤ nrows a)%nat → (c1 ≤ ncols a)%nat →
  (i < r1 - r0)%nat → (j < c1 - c0)%nat →
  cell (slice2 a (Z.of_nat r0) (Z.of_nat r1) (Z.of_nat c0) (Z.of_nat c1)) i j
  = cell a (r0 + i) (c0 + j).
Proof.
  intros Hwf Hr Hc Hi Hj. unfold cell, slice2. simpl.
  rewrite list_lookup_fmap, pyslice_lookup by done.
  destruct (rows a !! (r0 + i)%nat) as [r|] eqn:E; simpl; [|done].
  apply pyslice_lookup; [|done].
  unfold wf in Hwf. rewrite Forall_lookup in Hwf.
  by rewrite (Hwf _ _ E).
Qed.

(** ** Peak location *)

Lemma argmax_from_lt mp best i l :
  (best < i)%nat → (argmax_from mp best i l < i + length l)%nat.
Proof.
  revert mp best i. induction l as [|v l IH]; intros mp best i H; simpl.
  - lia.
  - destruct (isnan mp); [lia|].
    destruct (Fle v mp).
    + specialize (IH mp best (S i)). lia.
    + specialize (IH v i (S i)). lia.
Qed.

Lemma argmax_lt l k : argmax l = Ret k → (k < length l)%nat.
Proof.
  destruct l as [|v l]; simpl; [discriminate|].
  intros [= <-]. pose proof (argmax_from_lt v 0 1 l). lia.
Qed.

Lemma length_flat a : wf a → length (flat a) = (nrows a * ncols a)%nat.
Proof.
  unfold wf, flat, nrows. generalize (ncols a) as n. intros n H.
  induction H as [|r rs Hr _ IH]; simpl; [done|].
  rewrite length_app, IH, Hr. lia.
Qed.

(** A surface with an entry has a peak. *)
Lemma peak_nonempty corr :
  flat corr ≠ [] → ∃ r c, peak corr = Ret (r, c).
Proof.
  unfold peak. destruct (flat corr) as [|v l]; [done|]. intros _.
  simpl. eauto.
Qed.

Lemma peak_bounds corr r c :
  wf corr → peak corr = Ret (r, c) →
  (r < nrows corr)%nat ∧ (c < ncols corr)%nat.
Proof.
  intros Hwf. unfold peak.
  destruct (argmax (flat corr)) as [k|e] eqn:E; simpl; [|discriminate].
  intros [= <- <-]. apply argmax_lt in E. rewrite length_flat in E by done.
  assert (ncols corr ≠ 0)%nat by (intros Hz; rewrite Hz in E; lia).
  split.
  - apply Nat.Div0.div_lt_upper_bound. lia.
  - by apply Nat.mod_upper_bound.
Qed.

Lemma array_around_maximum_nat corr r c :
  (r < nrows corr)%nat → (c < ncols corr)%nat →
  array_around_maximum corr r c
  = slice2 corr (Z.of_nat (Nat.pred r)) (Z.of_nat (nbhd_stop r (nrows corr)))
                (Z.of_nat (Nat.pred c)) (Z.of_nat (nbhd_stop c (ncols corr))).
Proof.
  intros Hr Hc. unfold array_around_maximum, nbhd_stop. f_equal; lia.
Qed.

Lemma array_around_maximum_shape corr r c :
  (r < nrows corr)%nat → (c < ncols corr)%nat →
  nrows (array_around_maximum corr r c)
    = (nbhd_stop r (nrows corr) - Nat.pred r)%nat
  ∧ ncols (array_around_maximum corr r c)
    = (nbhd_stop c (ncols corr) - Nat.pred c)%nat.
Proof.
  intros Hr Hc. rewrite array_around_maximum_nat by done.
  rewrite slice2_nrows. simpl.
  rewrite !slice_len_nat; [done | |]; unfold nbhd_stop; lia.
Qed.

Lemma array_around_maximum_cell corr r c i j :
  wf corr → (r < nrows corr)%nat → (c < ncols corr)%nat →
  (i < nrows (array_around_maximum corr r c))%nat →
  (j < ncols (array_around_maximum corr r c))%nat →
  cell (array_around_maximum corr r c) i j
  = cell corr (Nat.pred r + i) (Nat.pred c + j).
Proof.
  intros Hwf Hr Hc.
  destruct (array_around_maximum_shape corr r c Hr Hc) as [-> ->].
  intros Hi Hj. rewrite array_around_maximum_nat by done.
  apply slice2_cell; try done; unfold nbhd_stop; lia.
Qed.

Lemma surface_4x4_wf : wf surface_4x4.
Proof. repeat constructor. Qed.

Lemma surface_2x2_wf : wf surface_2x2.
Proof. repeat constructor. Qed.

(** C9.  For a correlation surface with its integer peak at [(row, col)], the
    neighbourhood handed to [get_correlation_shifts] is
    [surface[max(0, row-1) : min(row+2, height-1),
             max(0, col-1) : min(col+2, width-1)]]: it has that many rows and
    columns, its entry [(i, j)] is the entry
    [(max(0, row-1) + i, max(0, col-1) + j)] of the surface, and neither of
    its dimensions exceeds 3. *)
Theorem array_around_maximum_spec (corr : ndarray) (row col : nat) :
  wf corr → peak corr = Ret (row, col) →
  let nb := array_around_maximum corr row col in
  let height := nrows corr in
  let width := ncols corr in
  find_best_match_location corr
  = (s ← get_correlation_shifts nb;
     y ← py_lift (add_location s.1 row);
     x ← py_lift (add_location s.2 col);
     mret (y, x))
  ∧ wf nb
  ∧ nrows nb = ((row + 2) `min` (height - 1) - 0 `max` (row - 1))%nat
  ∧ ncols nb = ((col + 2) `min` (width - 1) - 0 `max` (col - 1))%nat
  ∧ (∀ i j, (i < nrows nb)%nat → (j < ncols nb)%nat →
       cell nb i j = cell corr (0 `max` (row - 1) + i) (0 `max` (col - 1) + j))
  ∧ (nrows nb ≤ 3)%nat ∧ (ncols nb ≤ 3)%nat.
Proof.
  intros Hwf Hpeak nb height width.
  destruct (peak_bounds corr row col Hwf Hpeak) as [Hr Hc].
  destruct (array_around_maximum_shape corr row col Hr Hc) as [En Em].
  fold nb in En, Em. unfold nbhd_stop in En, Em. fold height in En. fold width in Em.
  split; [|split; [|split; [|split; [|split; [|split]]]]].
  - unfold find_best_match_location. rewrite Hpeak. simpl.
    fold nb. destruct (get_correlation_shifts nb) as [out [[ys xs]|e]]; simpl; [|done].
    by destruct (add_location ys row), (add_location xs col).
  - unfold nb, array_around_maximum. by apply slice2_wf.
  - rewrite En. lia.
  - rewrite Em. lia.
  - intros i j Hi Hj.
    replace (0 `max` (row - 1))%nat with (Nat.pred row) by lia.
    replace (0 `max` (col - 1))%nat with (Nat.pred col) by lia.
    by apply array_around_maximum_cell.
  - rewrite En. lia.
  - rewrite Em. lia.
Qed.

Lemma array_around_maximum_spec_witness :
  wf surface_4x4 ∧ peak surface_4x4 = Ret (1%nat, 1%nat)
  ∧ nrows (array_around_maximum surface_4x4 1 1) = 3%nat
  ∧ ncols (array_around_maximum surface_4x4 1 1) = 3%nat.
Proof.
  assert (peak surface_4x4 = Ret (1%nat, 1%nat)) as Hpeak by (vm_compute; reflexivity).
  split; [exact surface_4x4_wf | split; [exact Hpeak|]].
  destruct (array_around_maximum_spec surface_4x4 1 1 surface_4x4_wf Hpeak)
    as (_ & _ & Hn & Hm & _).
  split; [exact Hn | exact Hm].
Defined.

(** C10.  The array that [find_best_match_location] passes to
    [get_correlation_shifts] is the neighbourhood [array_around_maximum].
    When the integer peak lies in the last row of the surface, every row of
    that array comes from a row of the surface above the peak, so the entry
    at the peak is not part of the array passed to refinement; likewise for
    the last column.  On a surface of height (width) 2 with the peak at
    index 1 the neighbourhood has length 1 along that axis. *)
Theorem array_around_maximum_excludes_last (corr : ndarray) (row col : nat) :
  wf corr → peak corr = Ret (row, col) →
  let nb := array_around_maximum corr row col in
  find_best_match_location corr
  = (s ← get_correlation_shifts nb;
     y ← py_lift (add_location s.1 row);
     x ← py_lift (add_location s.2 col);
     mret (y, x))
  ∧ (row = (nrows corr - 1)%nat →
     (∀ i j, (i < nrows nb)%nat → (j < ncols nb)%nat →
        cell nb i j = cell corr (0 `max` (row - 1) + i) (0 `max` (col - 1) + j)
        ∧ (0 `max` (row - 1) + i < row)%nat)
     ∧ (nrows corr = 2%nat → nrows nb = 1%nat))
  ∧ (col = (ncols corr - 1)%nat →
     (∀ i j, (i < nrows nb)%nat → (j < ncols nb)%nat →
        cell nb i j = cell corr (0 `max` (row - 1) + i) (0 `max` (col - 1) + j)
        ∧ (0 `max` (col - 1) + j < col)%nat)
     ∧ (ncols corr = 2%nat → ncols nb = 1%nat)).
Proof.
  intros Hwf Hpeak nb.
  destruct (peak_bounds corr row col Hwf Hpeak) as [Hr Hc].
  destruct (array_around_maximum_shape corr row col Hr Hc) as [En Em].
  fold nb in En, Em. unfold nbhd_stop in En, Em.
  assert (∀ i j, (i < nrows nb)%nat → (j < ncols nb)%nat →
    cell nb i j = cell corr (0 `max` (row - 1) + i) (0 `max` (col - 1) + j)) as Hcell.
  { intros i j Hi Hj.
    replace (0 `max` (row - 1))%nat with (Nat.pred row) by lia.
    replace (0 `max` (col - 1))%nat with (Nat.pred col) by lia.
    by apply array_around_maximum_cell. }
  split.
  { unfold find_best_match_location. rewrite Hpeak. simpl.
    fold nb. destruct (get_correlation_shifts nb) as [out [[ys xs]|e]]; simpl; [|done].
    by destruct (add_location ys row), (add_location xs col). }
  split; intros Hlast; (split; [intros i j Hi Hj; split; [by apply Hcell | lia] | lia]).
Qed.

Lemma array_around_maximum_excludes_last_witness :
  wf surface_2x2 ∧ peak surface_2x2 = Ret (1%nat, 1%nat)
  ∧ find_best_match_location surface_2x2
    = (s ← get_correlation_shifts (array_around_maximum surface_2x2 1 1);
       y ← py_lift (add_location s.1 1);
       x ← py_lift (add_location s.2 1);
       mret (y, x))
  ∧ nrows (array_around_maximum surface_2x2 1 1) = 1%nat
  ∧ ncols (array_around_maximum surface_2x2 1 1) = 1%nat.
Proof.
  assert (peak surface_2x2 = Ret (1%nat, 1%nat)) as Hpeak by (vm_compute; reflexivity).
  split; [exact surface_2x2_wf | split; [exact Hpeak|]].
  destruct (array_around_maximum_excludes_last surface_2x2 1 1 surface_2x2_wf Hpeak)
    as (Hcall & Hrow & Hcol).
  split; [exact Hcall|]. split.
  - apply Hrow; reflexivity.
  - apply Hcol; reflexivity.
Defined.

(** ** Order on [fl] and [np.max] *)

(** Membership in a list given by its elements. *)
Ltac in_cons := rewrite ?elem_of_cons, ?elem_of_nil; intuition (subst; auto).

Lemma qc_le_iff a b : qc_le a b = true ↔ (a <= b)%Q.
Proof. apply Qle_bool_iff. Qed.

Lemma Fle_refl x : isnan x = false → Fle x x = true.
Proof. destruct x; simpl; try done. intros _. apply qc_le_iff, Qle_refl. Qed.

Lemma Fle_trans x y z : Fle x y = true → Fle y z = true → Fle x z = true.
Proof.
  destruct x, y, z; simpl; try done.
  rewrite !qc_le_iff. apply Qle_trans.
Qed.

Lemma Fle_total x y :
  isnan x = false → isnan y = false → Fle x y = false → Fle y x = true.
Proof.
  destruct x, y; simpl; try done.
  intros _ _ H. apply qc_le_iff.
  destruct (Qlt_le_dec q0 q) as [Hlt|Hle].
  - by apply Qlt_le_weak.
  - apply qc_le_iff in Hle. unfold qc_le in *. congruence.
Qed.

Lemma fmax_not_nan a b :
  isnan a = false → isnan b = false →
  isnan (fmax a b) = false ∧ (fmax a b = a ∨ fmax a b = b)
  ∧ Fle a (fmax a b) = true ∧ Fle b (fmax a b) = true.
Proof.
  intros Ha Hb. unfold fmax. rewrite Ha, Hb.
  destruct (Fle a b) eqn:E.
  - repeat split; auto using Fle_refl.
  - repeat split; auto using Fle_refl, Fle_total.
Qed.

(** On a list without NaN, [np.max] returns an entry that bounds the others. *)
Lemma fold_fmax_max l v :
  isnan v = false → Forall (fun x => isnan x = false) l →
  let m := fold_left fmax l v in
  isnan m = false ∧ m ∈ v :: l ∧ ∀ x, x ∈ v :: l → Fle x m = true.
Proof.
  intros Hv Hl. revert v Hv. induction Hl as [|x l Hx Hl IH]; intros v Hv; simpl.
  - split; [done|]. split; [apply list_elem_of_here|].
    intros x Hx. apply list_elem_of_singleton in Hx as ->. by apply Fle_refl.
  - destruct (fmax_not_nan v x Hv Hx) as (Hn & Hor & Hva & Hxa).
    destruct (IH (fmax v x) Hn) as (Hm & Hin & Hle).
    split; [done|]. split.
    + apply elem_of_cons in Hin as [->|Hin].
      * destruct Hor as [->| ->]; in_cons.
      * in_cons.
    + intros w Hw. apply elem_of_cons in Hw as [->|Hw].
      * eapply Fle_trans; [exact Hva|]. apply Hle. in_cons.
      * apply elem_of_cons in Hw as [->|Hw].
        -- eapply Fle_trans; [exact Hxa|]. apply Hle. in_cons.
        -- apply Hle. in_cons.
Qed.

Lemma np_max_max l :
  l ≠ [] → Forall (fun x => isnan x = false) l →
  ∃ m, np_max l = Ret m ∧ m ∈ l ∧ ∀ x, x ∈ l → Fle x m = true.
Proof.
  destruct l as [|v l]; [done|]. intros _ H.
  apply Forall_cons in H as [Hv Hl].
  destruct (fold_fmax_max l v Hv Hl) as (_ & Hin & Hle).
  exists (fold_left fmax l v). by repeat split.
Qed.

(** ** Boolean masks *)

Lemma elem_of_mask_select (f : fl → bool) z v :
  v ∈ mask_select z (f <$> z) ↔ v ∈ z ∧ f v = true.
Proof.
  induction z as [|w z IH]; simpl.
  - in_cons.
  - destruct (f w) eqn:E.
    + rewrite !elem_of_cons, IH. split.
      * intros [->|[? ?]]; auto.
      * intros [[->|?] ?]; auto.
    + rewrite elem_of_cons, IH. split.
      * intros [? ?]; auto.
      * intros [[->|?] ?]; [congruence | auto].
Qed.

Lemma np_any_fmap (f : fl → bool) z :
  np_any (f <$> z) = true ↔ ∃ v, v ∈ z ∧ f v = true.
Proof.
  unfold np_any. induction z as [|w z IH]; simpl.
  - split; [done|]. intros (v & Hv & _). by apply elem_of_nil in Hv.
  - rewrite orb_true_iff, IH. unfold id. split.
    + intros [H|(v & Hv & Hf)]; [exists w | exists v]; in_cons.
    + intros (v & Hv & Hf). apply elem_of_cons in Hv as [->|Hv]; eauto.
Qed.

(** ** Clip margins *)

Lemma clip_margin (sel : fl → bool) (val : fl → fl) z :
  (∀ v, sel v = true → isnan (val v) = false) →
  ∃ m, (if np_any (sel <$> z)
        then np_max (val <$> mask_select z (sel <$> z))
        else Ret (Fin 0%Qc)) = Ret m
       ∧ is_margin sel val z m.
Proof.
  intros Hval. destruct (np_any (sel <$> z)) eqn:Hany.
  - apply np_any_fmap in Hany as (v & Hv & Hs).
    destruct (np_max_max (val <$> mask_select z (sel <$> z))) as (m & Hm & Hin & Hle).
    + intros Hnil. apply fmap_nil_inv in Hnil.
      assert (v ∈ mask_select z (sel <$> z)) as Hsel
        by (apply elem_of_mask_select; auto).
      rewrite Hnil in Hsel. by apply elem_of_nil in Hsel.
    + apply Forall_fmap, Forall_forall. intros w Hw.
      apply elem_of_mask_select in Hw as [_ Hw]. by apply Hval.
    + exists m. split; [done|]. right. split.
      * apply list_elem_of_fmap in Hin as (w & -> & Hw).
        apply elem_of_mask_select in Hw as [Hw1 Hw2]. eauto.
      * intros w Hw Hs'. apply Hle, list_elem_of_fmap.
        exists w. split; [done|]. apply elem_of_mask_select. auto.
  - exists (Fin 0%Qc). split; [done|]. left. split; [|done].
    intros v Hv. destruct (sel v) eqn:E; [|done].
    assert (np_any (sel <$> z) = true) by (apply np_any_fmap; eauto).
    congruence.
Qed.

Lemma _upper_clip_margin z : ∃ m, _upper_clip z = Ret m ∧ is_upper_margin z m.
Proof.
  apply (clip_margin (fun v => Fge v (Fin 0%Qc)) Fceil).
  intros [q| | |]; simpl; done.
Qed.

Lemma _lower_clip_margin z : ∃ m, _lower_clip z = Ret m ∧ is_lower_margin z m.
Proof.
  unfold _lower_clip. rewrite <- list_fmap_compose.
  apply (clip_margin (fun v => Fle v (Fin 0%Qc)) (fun v => Fceil (Fneg v))).
  intros [q| | |]; simpl; done.
Qed.

Lemma pyslice_full {A} (l : list A) : pyslice 0 (Z.of_nat (length l)) l = l.
Proof.
  change 0 with (Z.of_nat 0). rewrite pyslice_nat by done.
  rewrite drop_0, Nat.sub_0_r. by apply take_ge.
Qed.

Lemma slice3_last_axis d b0 e0 b1 e1 :
  cube_wf d →
  slice3 d b0 e0 b1 e1 0 (Z.of_nat (cube_nt d))
  = {| cube := (fun p => pyslice b1 e1 p) <$> pyslice b0 e0 (cube d);
       cube_nx := slice_len (cube_nx d) b1 e1;
       cube_nt := cube_nt d |}.
Proof.
  intros Hwf. unfold slice3. f_equal.
  - apply Forall_fmap_ext_1.
    apply Forall_pyslice. eapply Forall_impl; [exact Hwf|].
    intros p [_ Hp]. simpl.
    rewrite <- (list_fmap_id (pyslice b1 e1 p)) at 2.
    apply Forall_fmap_ext_1, Forall_pyslice.
    eapply Forall_impl; [exact Hp|]. intros l Hl. simpl in *.
    rewrite <- Hl. apply pyslice_full.
  - change 0 with (Z.of_nat 0). rewrite slice_len_nat by done. lia.
Qed.

Lemma example_margins :
  _upper_clip example_yshifts = Ret (fl_of_Z 2)
  ∧ _lower_clip example_yshifts = Ret (fl_of_Z 1)
  ∧ _upper_clip example_xshifts = Ret (fl_of_Z 0)
  ∧ _lower_clip example_xshifts = Ret (fl_of_Z 0).
Proof. repeat split; by_eval. Qed.

Lemma example_bounds :
  slice_bound (fl_of_Z 1) = Ret 1
  ∧ slice_bound (Fsub (Fsub (fl_of_nat 10) (fl_of_Z 2)) (Fin 1%Qc)) = Ret 7
  ∧ slice_bound (fl_of_Z 0) = Ret 0
  ∧ slice_bound (Fsub (Fsub (fl_of_nat 10) (fl_of_Z 0)) (Fin 1%Qc)) = Ret 9.
Proof. repeat split; vm_compute; reflexivity. Qed.

(** C7.  For a datacube of shape [(ny, nx, nt)] and shift arrays [y], [x],
    [clip_edges] returns [datacube[y_lower : ny - y_upper - 1,
    x_lower : nx - x_upper - 1, :]], where [x_upper] is the maximum of
    [ceil(v)] over the entries [v >= 0] of [x] (0 if there is none),
    [x_lower] the maximum of [ceil(-v)] over the entries [v <= 0] (0 if there
    is none), and likewise for [y].  With the shifts [y = [2, -1, 0]],
    [x = [0, 0, 0]] on a datacube of shape (10, 10, 3) the result has shape
    (6, 9, 3). *)
Theorem clip_edges_spec (d : datacube) (y x : list fl) :
  cube_wf d →
  (∃ y_upper y_lower x_upper x_lower,
     is_upper_margin y y_upper ∧ is_lower_margin y y_lower
     ∧ is_upper_margin x x_upper ∧ is_lower_margin x x_lower
     ∧ clip_edges d y x
       = cube_getitem d
           y_lower
           (Fsub (Fsub (fl_of_nat (length (cube d))) y_upper) (Fin 1%Qc))
           x_lower
           (Fsub (Fsub (fl_of_nat (cube_nx d)) x_upper) (Fin 1%Qc)))
  ∧ (cube_shape d = (10, 10, 3)%nat →
     ∃ d', clip_edges d example_yshifts example_xshifts = Ret d'
           ∧ cube_shape d' = (6, 9, 3)%nat).
Proof.
  intros Hwf. split.
  - destruct (_upper_clip_margin y) as (yu & Eyu & Hyu).
    destruct (_lower_clip_margin y) as (yl & Eyl & Hyl).
    destruct (_upper_clip_margin x) as (xu & Exu & Hxu).
    destruct (_lower_clip_margin x) as (xl & Exl & Hxl).
    exists yu, yl, xu, xl. repeat (split; [done|]).
    unfold clip_edges, cube_getitem. rewrite Exu, Exl, Eyu, Eyl. simpl.
    destruct (slice_bound yl) as [b0|]; simpl; [|done].
    destruct (slice_bound _) as [e0|]; simpl; [|done].
    destruct (slice_bound xl) as [b1|]; simpl; [|done].
    destruct (slice_bound _) as [e1|]; simpl; [|done].
    f_equal. by apply slice3_last_axis.
  - intros Hshape. unfold cube_shape in Hshape.
    injection Hshape as Hny Hnx Hnt.
    destruct example_margins as (Eyu & Eyl & Exu & Exl).
    destruct example_bounds as (B0 & E0 & B1 & E1).
    unfold clip_edges. rewrite Exu, Exl, Eyu, Eyl, Hny, Hnx, Hnt.
    cbn [mbind res_bind]. rewrite B0. cbn [mbind res_bind].
    rewrite E0. cbn [mbind res_bind]. rewrite B1. cbn [mbind res_bind].
    rewrite E1. cbn [mbind res_bind].
    eexists. split; [reflexivity|].
    unfold cube_shape, slice3. simpl.
    rewrite length_fmap, length_pyslice, Hny, Hnx, Hnt. reflexivity.
Qed.

Lemma example_datacube_wf : cube_wf example_datacube.
Proof.
  unfold cube_wf, example_datacube. cbn [cube cube_nx cube_nt].
  apply Forall_replicate. split; [reflexivity|].
  apply Forall_replicate. reflexivity.
Qed.

Lemma clip_edges_spec_witness :
  cube_wf example_datacube
  ∧ ∃ d', clip_edges example_datacube example_yshifts example_xshifts = Ret d'
          ∧ cube_shape d' = (6, 9, 3)%nat.
Proof.
  split; [exact example_datacube_wf|].
  apply (clip_edges_spec example_datacube example_yshifts example_xshifts
           example_datacube_wf).
  reflexivity.
Defined.

(** ** The shift returned by [find_best_match_location] *)

Lemma get_correlation_shifts_inv nb out dy dx :
  get_correlation_shifts nb = (out, Ret (Some dy, Some dx)) ↔
  out = [] ∧ (nrows nb ≤ 3)%nat ∧ (ncols nb ≤ 3)%nat
  ∧ ∃ ly lx, peak nb = Ret (ly, lx) ∧ refined nb ly lx dy dx.
Proof.
  unfold get_correlation_shifts, peak, refined. cbv zeta.
  destruct ((3 <? ncols nb)%nat || (3 <? nrows nb)%nat) eqn:Hbig.
  { split; [intros [=]|]. intros (_ & Hr & Hc & _).
    apply orb_true_iff in Hbig as [H|H]; apply Nat.ltb_lt in H; lia. }
  apply orb_false_iff in Hbig as [Hc Hr].
  apply Nat.ltb_ge in Hc, Hr.
  destruct (argmax (flat nb)) as [k|e].
  2:{ split; [intros [=]|]. by intros (_ & _ & _ & ly & lx & [=] & _). }
  cbn [mbind py_bind py_lift res_bind]. unfold unravel_index.
  set (ly := (k / ncols nb)%nat). set (lx := (k `mod` ncols nb)%nat).
  destruct (nrows nb =? 3)%nat, (ncols nb =? 3)%nat;
    try (match goal with
         | |- context [mbind ?f (column nb lx)] =>
             destruct (mbind f (column nb lx)) as [a|] eqn:E1
         end);
    try (match goal with
         | |- context [mbind ?f (row nb ly)] =>
             destruct (mbind f (row nb ly)) as [b|] eqn:E2
         end);
    cbn [mbind py_bind py_lift res_bind mret py_ret app];
    (split;
     [ intros [=]; subst; do 3 (split; [done|]); exists ly, lx; by repeat split
     | intros (-> & _ & _ & ly' & lx' & [= <- <-] & H1 & H2); congruence ]).
Qed.

Lemma find_best_match_location_inv corr out y x :
  find_best_match_location corr = (out, Ret (y, x)) ↔
  ∃ row col dy dx,
    peak corr = Ret (row, col)
    ∧ get_correlation_shifts (array_around_maximum corr row col)
      = (out, Ret (Some dy, Some dx))
    ∧ y = Fadd dy (fl_of_nat row) ∧ x = Fadd dx (fl_of_nat col).
Proof.
  unfold find_best_match_location.
  destruct (peak corr) as [[row col]|e]; simpl.
  2:{ split; [intros [=]|]. by intros (? & ? & ? & ? & [=] & _). }
  destruct (get_correlation_shifts _) as [out' [[[dy|] [dx|]]|e]] eqn:E; simpl.
  - rewrite app_nil_r. split.
    + intros [= <- <- <-]. exists row, col, dy, dx. by rewrite E.
    + intros (? & ? & ? & ? & [= <- <-] & H & -> & ->).
      rewrite E in H. by injection H as -> -> ->.
  - split; [intros [=]|]. intros (? & ? & ? & ? & [= <- <-] & H & _).
    rewrite E in H. discriminate H.
  - split; [intros [=]|]. intros (? & ? & ? & ? & [= <- <-] & H & _).
    rewrite E in H. discriminate H.
  - split; [intros [=]|]. intros (? & ? & ? & ? & [= <- <-] & H & _).
    rewrite E in H. discriminate H.
  - split; [intros [=]|]. intros (? & ? & ? & ? & [= <- <-] & H & _).
    rewrite E in H. discriminate H.
Qed.

(** C1 as stated fails on a surface whose peak has a full 3x3 neighbourhood:
    the peak of [surface_4x4] is at (1, 1) and is symmetric, the parabolas
    turn at 0, and the code returns (0 + 1, 0 + 1); with the location (1, 1)
    of the neighbourhood's maximum added as well the shift would be (2, 2). *)
Lemma find_best_match_location_not_claimed :
  find_best_match_location surface_4x4 = ([], Ret (fl_of_Z 1, fl_of_Z 1))
  ∧ claimed_shift surface_4x4 = ([], Ret (fl_of_Z 2, fl_of_Z 2))
  ∧ find_best_match_location surface_4x4 ≠ claimed_shift surface_4x4.
Proof.
  assert (find_best_match_location surface_4x4 = ([], Ret (fl_of_Z 1, fl_of_Z 1)))
    as E1 by by_eval.
  assert (claimed_shift surface_4x4 = ([], Ret (fl_of_Z 2, fl_of_Z 2)))
    as E2 by by_eval.
  split; [exact E1 | split; [exact E2|]].
  rewrite E1, E2. intros H. vm_compute in H. discriminate H.
Qed.
(** ** Relations carried through slices *)

Lemma Forall2_pyslice {A} (R : A → A → Prop) (l l1 : list A) start stop :
  Forall2 R l l1 → Forall2 R (pyslice start stop l) (pyslice start stop l1).
Proof.
  intros H. unfold pyslice. rewrite <- (Forall2_length _ _ _ H).
  by apply Forall2_take, Forall2_drop.
Qed.

Lemma Forall2_concat {A} (R : A → A → Prop) (ls ls1 : list (list A)) :
  Forall2 (Forall2 R) ls ls1 → Forall2 R (concat ls) (concat ls1).
Proof. induction 1; simpl; [constructor | by apply Forall2_app]. Qed.

(** ** The positions of the non-finite entries *)

Lemma where_row_ge j r k : k ∈ where_row j r → (j ≤ k)%nat.
Proof.
  revert j. induction r as [|v r IH]; intros j; simpl.
  - by intros H%elem_of_nil.
  - destruct (isfinite v).
    + intros H%IH. lia.
    + intros [->|H%IH]%elem_of_cons; lia.
Qed.

Lemma where_row_insert j r k q rest :
  where_row j r = (j + k)%nat :: rest →
  where_row j (<[k := Fin q]> r) = rest.
Proof.
  revert j k. induction r as [|v r IH]; intros j k; simpl; [done|].
  destruct (isfinite v) eqn:Hv.
  - intros H. destruct k as [|k].
    + assert ((j + 0)%nat ∈ where_row (S j) r) as Hin
        by (rewrite H; apply list_elem_of_here).
      apply where_row_ge in Hin. lia.
    + simpl. rewrite Hv. apply IH. rewrite H. f_equal. lia.
  - intros [= Hk <-]. assert (k = 0)%nat as -> by lia. reflexivity.
Qed.

Lemma where_rows_ge i rs p : p ∈ where_rows i rs → (i ≤ p.1)%nat.
Proof.
  revert i. induction rs as [|r rs IH]; intros i; simpl.
  - by intros H%elem_of_nil.
  - intros [H|H%IH]%elem_of_app; [|lia].
    apply list_elem_of_fmap in H as (k & -> & _). simpl. lia.
Qed.

Lemma where_rows_alter i rs by_ bx q rest :
  where_rows i rs = ((i + by_)%nat, bx) :: rest →
  where_rows i (alter (fun r => <[bx := Fin q]> r) by_ rs) = rest.
Proof.
  revert i by_. induction rs as [|r rs IH]; intros i by_; simpl; [done|].
  destruct (where_row 0 r) as [|k ks] eqn:Hr; simpl.
  - intros H. destruct by_ as [|by_].
    + assert (((i + 0)%nat, bx) ∈ where_rows (S i) rs) as Hin
        by (rewrite H; apply list_elem_of_here).
      apply where_rows_ge in Hin. simpl in Hin. lia.
    + simpl. rewrite Hr. simpl. apply IH. rewrite H. do 2 f_equal. lia.
  - intros [= Hi <- <-]. assert (by_ = 0)%nat as -> by lia. simpl.
    by rewrite (where_row_insert 0 r k q ks Hr).
Qed.

Lemma bad_index_setitem z by_ bx q rest :
  bad_index z = (by_, bx) :: rest →
  bad_index (setitem z by_ bx (Fin q)) = rest.
Proof. unfold bad_index, setitem. simpl. apply (where_rows_alter 0). Qed.

Lemma where_row_nil j r :
  where_row j r = [] → Forall (fun v => isfinite v = true) r.
Proof.
  revert j. induction r as [|v r IH]; intros j; simpl; [constructor|].
  destruct (isfinite v) eqn:Hv; [|done].
  intros H. constructor; eauto.
Qed.

Lemma where_rows_nil i rs :
  where_rows i rs = [] → Forall (Forall (fun v => isfinite v = true)) rs.
Proof.
  revert i. induction rs as [|r rs IH]; intros i; simpl; [constructor|].
  intros [H1 H2]%app_eq_nil. apply fmap_nil_inv in H1.
  constructor; [by eapply where_row_nil | by eapply IH].
Qed.

Lemma bad_index_nil z : bad_index z = [] → all_finite z.
Proof. apply where_rows_nil. Qed.

Lemma elem_of_where_row j r k :
  k ∈ where_row j r ↔
  (j ≤ k)%nat ∧ ∃ v, r !! (k - j)%nat = Some v ∧ isfinite v = false.
Proof.
  revert j. induction r as [|v r IH]; intros j; simpl.
  - rewrite elem_of_nil. split; [done|]. by intros (_ & w & H & _).
  - destruct (isfinite v) eqn:Hv.
    + rewrite IH. split.
      * intros (Hle & w & Hw & Hf). split; [lia|]. exists w. split; [|done].
        replace (k - j)%nat with (S (k - S j)) by lia. done.
      * intros (Hle & w & Hw & Hf).
        destruct (k - j)%nat as [|d] eqn:Hd; simpl in Hw; [congruence|].
        split; [lia|]. exists w. split; [|done].
        replace (k - S j)%nat with d by lia. done.
    + rewrite elem_of_cons, IH. split.
      * intros [->|(Hle & w & Hw & Hf)].
        -- split; [lia|]. exists v. by rewrite Nat.sub_diag.
        -- split; [lia|]. exists w. split; [|done].
           replace (k - j)%nat with (S (k - S j)) by lia. done.
      * intros (Hle & w & Hw & Hf).
        destruct (k - j)%nat as [|d] eqn:Hd; simpl in Hw.
        -- left. lia.
        -- right. split; [lia|]. exists w. split; [|done].
           replace (k - S j)%nat with d by lia. done.
Qed.

Lemma elem_of_where_rows i rs y x :
  (y, x) ∈ where_rows i rs ↔
  (i ≤ y)%nat ∧ ∃ r v, rs !! (y - i)%nat = Some r ∧ r !! x = Some v
                       ∧ isfinite v = false.
Proof.
  revert i. induction rs as [|r rs IH]; intros i; simpl.
  - rewrite elem_of_nil. split; [done|]. by intros (_ & ? & ? & H & _).
  - rewrite elem_of_app, IH, list_elem_of_fmap. split.
    + intros [(k & [= -> ->] & Hk)|(Hle & r' & v & Hr & Hv & Hf)].
      * apply elem_of_where_row in Hk as (_ & v & Hv & Hf).
        rewrite Nat.sub_0_r in Hv.
        split; [lia|]. exists r, v. by rewrite Nat.sub_diag.
      * split; [lia|]. exists r', v. split; [|done].
        replace (y - i)%nat with (S (y - S i)) by lia. done.
    + intros (Hle & r' & v & Hr & Hv & Hf).
      destruct (y - i)%nat as [|d] eqn:Hd; simpl in Hr.
      * left. exists x. injection Hr as <-. split; [f_equal; lia|].
        apply elem_of_where_row. split; [lia|]. exists v.
        by rewrite Nat.sub_0_r.
      * right. split; [lia|]. exists r', v. split; [|done].
        replace (y - S i)%nat with d by lia. done.
Qed.

(** [bad_index] lists exactly the non-finite entries. *)
Lemma elem_of_bad_index z i j : (i, j) ∈ bad_index z ↔ nonfinite_at z i j.
Proof.
  unfold bad_index, nonfinite_at, cell. rewrite elem_of_where_rows, Nat.sub_0_r.
  split.
  - intros (_ & r & v & Hr & Hv & Hf). exists v. by rewrite Hr.
  - intros (v & Hv & Hf). split; [lia|].
    destruct (rows z !! i) as [r|]; [|done]. by exists r, v.
Qed.

Lemma cell_lt z i j v :
  wf z → cell z i j = Some v → (i < nrows z)%nat ∧ (j < ncols z)%nat.
Proof.
  unfold wf, cell, nrows. intros Hwf H.
  destruct (rows z !! i) as [r|] eqn:Hr; [|done]. simpl in H.
  split; [by eapply lookup_lt_Some|].
  rewrite Forall_lookup in Hwf. rewrite <- (Hwf _ _ Hr).
  by eapply lookup_lt_Some.
Qed.

Lemma cell_setitem_eq z i j v w :
  cell z i j = Some v → cell (setitem z i j w) i j = Some w.
Proof.
  unfold cell, setitem. simpl. rewrite list_lookup_alter_eq.
  destruct (rows z !! i) as [r|]; [|done]. simpl.
  intros H. apply list_lookup_insert_eq. by eapply lookup_lt_Some.
Qed.

Lemma cell_setitem_ne z i j w i' j' :
  (i', j') ≠ (i, j) → cell (setitem z i j w) i' j' = cell z i' j'.
Proof.
  unfold cell, setitem. simpl. intros Hne.
  destruct (decide (i = i')) as [<-|Hi].
  - rewrite list_lookup_alter_eq.
    destruct (rows z !! i) as [r|]; [|done]. simpl.
    apply list_lookup_insert_ne. congruence.
  - by rewrite list_lookup_alter_ne.
Qed.

(** ** The 3x3 window, moved inward at the borders *)

Lemma window_origin_bound n k :
  (3 ≤ n)%nat → (k < n)%nat → (window_origin n k + 3 ≤ n)%nat.
Proof.
  intros Hn Hk. unfold window_origin.
  destruct (Nat.eqb_spec k 0); [lia|].
  destruct (Nat.eqb_spec k (n - 1)); lia.
Qed.

(** The slice bounds computed by the loop are those of the moved window. *)
Lemma subarray_around_window z by_ bx :
  (3 ≤ nrows z)%nat → (3 ≤ ncols z)%nat →
  (by_ < nrows z)%nat → (bx < ncols z)%nat →
  subarray_around z by_ bx
  = slice2 z (Z.of_nat (window_origin (nrows z) by_))
             (Z.of_nat (window_origin (nrows z) by_ + 3))
             (Z.of_nat (window_origin (ncols z) bx))
             (Z.of_nat (window_origin (ncols z) bx + 3)).
Proof.
  intros Hny Hnx Hy Hx. unfold subarray_around, window_origin.
  f_equal.
  - destruct (Nat.eqb_spec by_ 0), (Nat.eqb_spec by_ (nrows z - 1)),
      (Z.eqb_spec (Z.of_nat by_) 0),
      (Z.eqb_spec (Z.of_nat by_) (Z.of_nat (nrows z) - 1)); lia.
  - destruct (Nat.eqb_spec by_ 0), (Nat.eqb_spec by_ (nrows z - 1)),
      (Z.eqb_spec (Z.of_nat by_) 0),
      (Z.eqb_spec (Z.of_nat by_) (Z.of_nat (nrows z) - 1)); lia.
  - destruct (Nat.eqb_spec bx 0), (Nat.eqb_spec bx (ncols z - 1)),
      (Z.eqb_spec (Z.of_nat bx) 0),
      (Z.eqb_spec (Z.of_nat bx) (Z.of_nat (ncols z) - 1)); lia.
  - destruct (Nat.eqb_spec bx 0), (Nat.eqb_spec bx (ncols z - 1)),
      (Z.eqb_spec (Z.of_nat bx) 0),
      (Z.eqb_spec (Z.of_nat bx) (Z.of_nat (ncols z) - 1)); lia.
Qed.

Lemma pyslice_3 {A} (l : list A) lo :
  (lo + 3 ≤ length l)%nat →
  ∃ a b c, l !! lo = Some a ∧ l !! (lo + 1)%nat = Some b
           ∧ l !! (lo + 2)%nat = Some c
           ∧ pyslice (Z.of_nat lo) (Z.of_nat (lo + 3)) l = [a; b; c].
Proof.
  intros H.
  destruct (lookup_lt_is_Some_2 l lo) as [a Ha]; [lia|].
  destruct (lookup_lt_is_Some_2 l (lo + 1)) as [b Hb]; [lia|].
  destruct (lookup_lt_is_Some_2 l (lo + 2)) as [c Hc]; [lia|].
  exists a, b, c. repeat (split; [done|]).
  rewrite pyslice_nat by done. replace (lo + 3 - lo)%nat with 3%nat by lia.
  apply list_eq. intros [|[|[|i]]].
  - rewrite lookup_take_lt, lookup_drop, Nat.add_0_r by lia. done.
  - rewrite lookup_take_lt, lookup_drop by lia. done.
  - rewrite lookup_take_lt, lookup_drop by lia. done.
  - rewrite lookup_take_ge by lia. done.
Qed.

(** On an array with at least 3 rows and 3 columns the sub array of the loop
    is the full 3x3 window, moved inward at the borders and not shrunk. *)
Lemma subarray_window z by_ bx :
  wf z → (3 ≤ nrows z)%nat → (3 ≤ ncols z)%nat →
  (by_ < nrows z)%nat → (bx < ncols z)%nat →
  flat (subarray_around z by_ bx) = window_values z by_ bx
  ∧ length (window_values z by_ bx) = 9%nat.
Proof.
  intros Hwf Hny Hnx Hy Hx.
  rewrite subarray_around_window by done.
  unfold window_values, window_cells, flat, slice2, cell. simpl.
  set (oy := window_origin (nrows z) by_). set (ox := window_origin (ncols z) bx).
  pose proof (window_origin_bound _ _ Hny Hy) as Hoy. fold oy in Hoy.
  pose proof (window_origin_bound _ _ Hnx Hx) as Hox. fold ox in Hox.
  destruct (pyslice_3 (rows z) oy Hoy) as (ra & rb & rc & Ha & Hb & Hc & ->).
  unfold wf in Hwf. rewrite Forall_lookup in Hwf.
  destruct (pyslice_3 ra ox) as (a0 & a1 & a2 & Ha0 & Ha1 & Ha2 & E1);
    [by rewrite (Hwf _ _ Ha)|].
  destruct (pyslice_3 rb ox) as (b0 & b1 & b2 & Hb0 & Hb1 & Hb2 & E2);
    [by rewrite (Hwf _ _ Hb)|].
  destruct (pyslice_3 rc ox) as (c0 & c1 & c2 & Hc0 & Hc1 & Hc2 & E3);
    [by rewrite (Hwf _ _ Hc)|].
  simpl. rewrite E1, E2, E3, Ha, Hb, Hc. simpl.
  rewrite Ha0, Ha1, Ha2, Hb0, Hb1, Hb2, Hc0, Hc1, Hc2. done.
Qed.

(** ** Slices as ranges of indices *)

Lemma omap_cons {A B} (f : A → option B) x l :
  omap f (x :: l) = match f x with Some y => y :: omap f l | None => omap f l end.
Proof. reflexivity. Qed.

Lemma omap_ext_in {A B} (f g : A → option B) (l : list A) :
  (∀ x, x ∈ l → f x = g x) → omap f l = omap g l.
Proof.
  induction l as [|x l IH]; intros H; [done|].
  rewrite !omap_cons, (H x) by apply list_elem_of_here.
  rewrite IH; [done|].
  intros y Hy. apply H. by apply list_elem_of_further.
Qed.

Lemma take_drop_range {A} (l : list A) lo len :
  (lo + len ≤ length l)%nat →
  take len (drop lo l) = omap (fun i => l !! i) (seq lo len).
Proof.
  revert lo. induction len as [|len IH]; intros lo H; [by rewrite take_0|].
  destruct (lookup_lt_is_Some_2 l lo) as [x Hx]; [lia|].
  rewrite (drop_S l x lo Hx). cbn [take seq]. rewrite omap_cons, Hx.
  f_equal. apply IH. lia.
Qed.

Lemma pyslice_range {A} (l : list A) start stop :
  pyslice start stop l
  = omap (fun i => l !! i) (slice_range (length l) start stop).
Proof.
  unfold pyslice, slice_range. apply take_drop_range.
  unfold slice_len. pose proof (slice_index_le (length l) start).
  pose proof (slice_index_le (length l) stop). lia.
Qed.

Lemma omap_pair z i (C : list nat) :
  omap (fun c : nat * nat => cell z c.1 c.2) (pair i <$> C)
  = omap (fun j => cell z i j) C.
Proof.
  induction C as [|j C IH]; [done|].
  rewrite fmap_cons, !omap_cons, IH. done.
Qed.

Lemma flat_cells z (R : list nat) c0 c1 :
  wf z →
  concat (pyslice c0 c1 <$> omap (fun i => rows z !! i) R)
  = omap (fun c : nat * nat => cell z c.1 c.2)
      (concat ((fun i => pair i <$> slice_range (ncols z) c0 c1) <$> R)).
Proof.
  intros Hwf. induction R as [|i R IH]; [done|].
  rewrite fmap_cons, omap_cons. cbn [concat]. rewrite omap_app, omap_pair, <- IH.
  destruct (rows z !! i) as [r|] eqn:Hr.
  - rewrite fmap_cons. cbn [concat]. f_equal.
    unfold wf in Hwf. rewrite Forall_lookup in Hwf.
    rewrite pyslice_range, (Hwf _ _ Hr).
    apply omap_ext_in. intros j _. unfold cell. by rewrite Hr.
  - assert (∀ C : list nat, omap (fun j => cell z i j) C = []) as ->; [|done].
    induction C as [|j C IHC]; [done|].
    rewrite omap_cons. unfold cell at 1. rewrite Hr. exact IHC.
Qed.

Lemma subarray_around_centre z by_ bx :
  subarray_around z by_ bx
  = slice2 z (centre (nrows z) by_ - 1) (centre (nrows z) by_ + 2)
             (centre (ncols z) bx - 1) (centre (ncols z) bx + 2).
Proof. reflexivity. Qed.

(** The sub array of the loop holds the entries at [subarray_cells]. *)
Lemma subarray_cells_flat z by_ bx :
  wf z →
  flat (subarray_around z by_ bx)
  = omap (fun c : nat * nat => cell z c.1 c.2)
      (subarray_cells (nrows z) (ncols z) by_ bx).
Proof.
  intros Hwf. rewrite subarray_around_centre. unfold flat, slice2, subarray_cells.
  cbn [rows]. rewrite pyslice_range. by apply flat_cells.
Qed.

Lemma has_finite_cells z by_ bx :
  wf z →
  has_finite (flat (subarray_around z by_ bx)) ↔
  ∃ i j q, (i, j) ∈ subarray_cells (nrows z) (ncols z) by_ bx
           ∧ cell z i j = Some (Fin q).
Proof.
  intros Hwf. unfold has_finite. rewrite subarray_cells_flat, Exists_exists by done.
  split.
  - intros (v & Hin & Hf). apply list_elem_of_omap in Hin as ([i j] & Hc & Hv).
    destruct v as [q| | |]; try done. by exists i, j, q.
  - intros (i & j & q & Hc & Hv). exists (Fin q). split; [|done].
    apply list_elem_of_omap. by exists (i, j).
Qed.

(** ** The mask of the finite entries *)

Lemma mask_finite_masked l : mask_finite l = masked <$> l.
Proof. reflexivity. Qed.

Lemma masked_bad v : isfinite v = false → masked v = NaN.
Proof. by destruct v. Qed.

Lemma masked_fin q : masked (Fin q) = Fin q.
Proof. unfold masked. simpl. f_equal. ring. Qed.

Lemma mask_finite_same l l1 :
  Forall2 same_masked l l1 → mask_finite l = mask_finite l1.
Proof.
  intros H. rewrite (mask_finite_masked l), (mask_finite_masked l1).
  induction H as [|a b l l1 Hab _ IH]; [done|].
  rewrite !fmap_cons. by f_equal.
Qed.

Lemma mask_finite_all_nan l :
  ¬ has_finite l → Forall (fun v => v = NaN) (mask_finite l).
Proof.
  rewrite mask_finite_masked. unfold has_finite.
  induction l as [|v l IH]; intros Hno; [constructor|].
  rewrite fmap_cons. constructor.
  - apply masked_bad. destruct (isfinite v) eqn:Hv; [|done].
    exfalso. apply Hno. by left.
  - apply IH. intros H. apply Hno. by right.
Qed.

Lemma existsb_has_finite l : existsb isfinite l = true ↔ has_finite l.
Proof.
  unfold has_finite. rewrite existsb_exists, Exists_exists.
  split; intros (v & Hin & Hf); exists v; (split; [|done]).
  - by apply list_elem_of_In.
  - by apply list_elem_of_In.
Qed.

Lemma same_masked_insert r k v w :
  r !! k = Some v → isfinite v = false → isfinite w = false →
  Forall2 same_masked r (<[k := w]> r).
Proof.
  revert k. induction r as [|u r IH]; intros [|k]; simpl; try done.
  - intros [= ->] Hv Hw. constructor.
    + unfold same_masked. by rewrite !masked_bad.
    + apply Forall_Forall2_diag, Forall_forall. by intros.
  - intros Hk Hv Hw. constructor; [done | by apply IH].
Qed.

Lemma same_masked_setitem z by_ bx w :
  nonfinite_at z by_ bx → isfinite w = false →
  Forall2 (Forall2 same_masked) (rows z) (rows (setitem z by_ bx w)).
Proof.
  intros (v & Hv & Hf) Hw. unfold cell in Hv.
  destruct (rows z !! by_) as [r|] eqn:Hr; [|done]. simpl in Hv.
  unfold setitem. simpl. apply Forall2_alter_r.
  - apply Forall_Forall2_diag, Forall_forall. intros u _.
    apply Forall_Forall2_diag, Forall_forall. by intros.
  - intros x y Hx Hy _. assert (x = r) as -> by congruence.
    assert (y = r) as -> by congruence.
    by eapply same_masked_insert.
Qed.

Lemma same_masked_window z z1 by_ bx :
  ncols z1 = ncols z →
  Forall2 (Forall2 same_masked) (rows z) (rows z1) →
  Forall2 same_masked (flat (subarray_around z by_ bx))
                      (flat (subarray_around z1 by_ bx)).
Proof.
  intros Hn H. unfold subarray_around, nrows.
  rewrite <- (Forall2_length _ _ _ H), Hn.
  apply Forall2_concat. unfold slice2. simpl.
  apply Forall2_fmap_2, Forall2_pyslice.
  eapply Forall2_impl; [exact H|]. intros r r' Hr. by apply Forall2_pyslice.
Qed.

(** ** The order of the non-finite entries *)

Lemma where_row_insert_bad j r k v w :
  r !! k = Some v → isfinite v = false → isfinite w = false →
  where_row j (<[k := w]> r) = where_row j r.
Proof.
  revert j k. induction r as [|u r IH]; intros j [|k]; simpl; try done.
  - intros [= ->] Hv Hw. by rewrite Hv, Hw.
  - intros Hk Hv Hw. destruct (isfinite u); [|f_equal]; by apply IH.
Qed.

Lemma where_rows_alter_bad i0 rs i r k v w :
  rs !! i = Some r → r !! k = Some v →
  isfinite v = false → isfinite w = false →
  where_rows i0 (alter (fun r => <[k := w]> r) i rs) = where_rows i0 rs.
Proof.
  revert i0 i. induction rs as [|u rs IH]; intros i0 [|i]; simpl; try done.
  - intros [= ->] Hk Hv Hw. by rewrite (where_row_insert_bad 0 r k v w).
  - intros Hi Hk Hv Hw. f_equal. by apply IH.
Qed.

Lemma bad_index_setitem_bad z by_ bx w :
  nonfinite_at z by_ bx → isfinite w = false →
  bad_index (setitem z by_ bx w) = bad_index z.
Proof.
  intros (v & Hv & Hf) Hw. unfold cell in Hv.
  destruct (rows z !! by_) as [r|] eqn:Hr; [|done]. simpl in Hv.
  unfold bad_index, setitem. simpl. by eapply where_rows_alter_bad.
Qed.

Lemma where_row_sorted j r k ks :
  where_row j r = k :: ks → ∀ k', k' ∈ ks → (k < k')%nat.
Proof.
  revert j. induction r as [|v r IH]; intros j; simpl; [done|].
  destruct (isfinite v).
  - apply IH.
  - intros [= <- <-] k' Hk'. apply where_row_ge in Hk'. lia.
Qed.

Lemma where_rows_sorted i rs p ps :
  where_rows i rs = p :: ps → ∀ q, q ∈ ps → before p q.
Proof.
  revert i. induction rs as [|r rs IH]; intros i; simpl; [done|].
  destruct (where_row 0 r) as [|k ks] eqn:Hr; simpl.
  - apply IH.
  - intros [= <- <-] q [Hq|Hq]%elem_of_app.
    + apply list_elem_of_fmap in Hq as (k' & -> & Hk').
      right. simpl. split; [done|]. by eapply where_row_sorted.
    + apply where_rows_ge in Hq. left. simpl. lia.
Qed.

(** The first bad index comes before every other one in row-major order. *)
Lemma bad_index_first z p rest :
  bad_index z = p :: rest → ∀ q, q ∈ rest → before p q.
Proof. apply where_rows_sorted. Qed.

Lemma before_asym p q : before p q → before q p → False.
Proof. unfold before. lia. Qed.

Lemma before_irrefl p : ¬ before p p.
Proof. unfold before. lia. Qed.

Lemma setitem_wf z i j v : wf z → wf (setitem z i j v).
Proof.
  unfold wf, setitem. simpl. intros Hwf.
  rewrite Forall_lookup in *. intros k r Hr.
  destruct (decide (i = k)) as [<-|Hne].
  - rewrite list_lookup_alter_eq in Hr.
    destruct (rows z !! i) as [r0|] eqn:Hr0; [|done].
    injection Hr as <-. rewrite length_insert. by eapply Hwf.
  - rewrite list_lookup_alter_ne in Hr by done. by eapply Hwf.
Qed.

(** ** The repair loop *)

Section RepairLoop.

Variable nanmean : list fl → fl.

Lemma repair_nonfinite_S fuel z :
  repair_nonfinite nanmean (S fuel) z
  = match bad_index z with
    | [] => Some z
    | (by_, bx) :: _ =>
        repair_nonfinite nanmean fuel (repair_first nanmean z by_ bx)
    end.
Proof. reflexivity. Qed.

Lemma repair_first_local_mean z by_ bx :
  repair_first nanmean z by_ bx
  = setitem z by_ bx (local_mean nanmean z by_ bx).
Proof. reflexivity. Qed.

Lemma repair_first_nrows z by_ bx :
  nrows (repair_first nanmean z by_ bx) = nrows z.
Proof. unfold repair_first, setitem, nrows. simpl. apply length_alter. Qed.

Lemma repair_first_ncols z by_ bx :
  ncols (repair_first nanmean z by_ bx) = ncols z.
Proof. reflexivity. Qed.

Lemma repair_first_wf z by_ bx : wf z → wf (repair_first nanmean z by_ bx).
Proof. apply setitem_wf. Qed.

(** A turn that writes a finite mean: the remaining bad entries are the
    other ones, in the same order. *)
Lemma repair_first_finite z by_ bx rest :
  bad_index z = (by_, bx) :: rest →
  isfinite (local_mean nanmean z by_ bx) = true →
  bad_index (repair_first nanmean z by_ bx) = rest.
Proof.
  intros Hbad Hf. rewrite repair_first_local_mean.
  destruct (local_mean nanmean z by_ bx) as [m| | |]; try done.
  by apply bad_index_setitem.
Qed.

Lemma repair_first_keeps z by_ bx rest i j q :
  bad_index z = (by_, bx) :: rest →
  cell z i j = Some (Fin q) →
  cell (repair_first nanmean z by_ bx) i j = Some (Fin q).
Proof.
  intros Hbad Hq. unfold repair_first. rewrite cell_setitem_ne; [done|].
  intros [= -> ->].
  assert (nonfinite_at z by_ bx) as (v & Hv & Hf)
    by (apply elem_of_bad_index; rewrite Hbad; apply list_elem_of_here).
  rewrite Hq in Hv. by injection Hv as <-.
Qed.

(** A turn that writes a mean that is not finite changes neither the bad
    indices nor the mean of the next turn. *)
Lemma repair_first_stuck z by_ bx rest :
  bad_index z = (by_, bx) :: rest →
  isfinite (local_mean nanmean z by_ bx) = false →
  bad_index (repair_first nanmean z by_ bx) = (by_, bx) :: rest
  ∧ local_mean nanmean (repair_first nanmean z by_ bx) by_ bx
    = local_mean nanmean z by_ bx.
Proof.
  intros Hbad Hno.
  assert (nonfinite_at z by_ bx) as Hbadp
    by (apply elem_of_bad_index; rewrite Hbad; apply list_elem_of_here).
  rewrite repair_first_local_mean. split.
  - by rewrite bad_index_setitem_bad.
  - unfold local_mean at 1 3. f_equal. symmetry.
    apply mask_finite_same, same_masked_window; [done|].
    by apply same_masked_setitem.
Qed.

Lemma repair_nonfinite_stuck z by_ bx rest :
  bad_index z = (by_, bx) :: rest →
  isfinite (local_mean nanmean z by_ bx) = false →
  ∀ fuel, repair_nonfinite nanmean fuel z = None.
Proof.
  intros Hbad Hno fuel. revert z Hbad Hno.
  induction fuel as [|fuel IH]; intros z Hbad Hno.
  - simpl. by rewrite Hbad.
  - rewrite repair_nonfinite_S, Hbad.
    destruct (repair_first_stuck z by_ bx rest Hbad Hno) as [Hbad' Hmean].
    apply IH; [done|]. by rewrite Hmean.
Qed.

(** The loop and the pass: the loop needs one turn per bad index, it
    returns the array of the pass when every mean of the pass is finite,
    and it does not return otherwise. *)
Lemma repair_nonfinite_pass ps :
  ∀ z, bad_index z = ps →
  (∀ fuel, (fuel < length ps)%nat → repair_nonfinite nanmean fuel z = None)
  ∧ (pass_ok nanmean z ps = true →
     repair_nonfinite nanmean (length ps) z = Some (pass nanmean z ps))
  ∧ (pass_ok nanmean z ps = false →
     ∀ fuel, repair_nonfinite nanmean fuel z = None).
Proof.
  induction ps as [|[by_ bx] rest IH]; intros z Hbad.
  - split; [simpl; lia|]. split; [|done]. intros _. simpl. by rewrite Hbad.
  - cbn [pass_ok pass length].
    destruct (isfinite (local_mean nanmean z by_ bx)) eqn:Hf.
    + pose proof (repair_first_finite z by_ bx rest Hbad Hf) as Hrest.
      destruct (IH _ Hrest) as (Hshort & Hok & Hnot).
      split; [|split].
      * intros [|fuel] Hlt; [simpl; by rewrite Hbad|].
        rewrite repair_nonfinite_S, Hbad. apply Hshort. lia.
      * intros H. rewrite repair_nonfinite_S, Hbad. by apply Hok.
      * intros H [|fuel]; [simpl; by rewrite Hbad|].
        rewrite repair_nonfinite_S, Hbad. by apply Hnot.
    + pose proof (repair_nonfinite_stuck z by_ bx rest Hbad Hf) as Hnone.
      split; [intros; apply Hnone|]. split; [done|]. intros _. exact Hnone.
Qed.

Lemma repair_nonfinite_mono n :
  ∀ z z' m, repair_nonfinite nanmean n z = Some z' → (n ≤ m)%nat →
            repair_nonfinite nanmean m z = Some z'.
Proof.
  induction n as [|n IH]; intros z z' m Hrun Hle.
  - simpl in Hrun. destruct (bad_index z) as [|[by_ bx] rest] eqn:Hbad; [|done].
    destruct m; simpl; by rewrite Hbad.
  - destruct m as [|m]; [lia|]. rewrite repair_nonfinite_S in *.
    destruct (bad_index z) as [|[by_ bx] rest]; [done|].
    apply IH; [done | lia].
Qed.

Lemma repair_nonfinite_run fuel :
  ∀ z z', repair_nonfinite nanmean fuel z = Some z' →
    bad_index z' = [] ∧ nrows z' = nrows z ∧ ncols z' = ncols z
    ∧ ∀ i j q, cell z i j = Some (Fin q) → cell z' i j = Some (Fin q).
Proof.
  induction fuel as [|fuel IH]; intros z z' Hrun.
  - simpl in Hrun. destruct (bad_index z) as [|[by_ bx] rest] eqn:Hbad; [|done].
    injection Hrun as <-. by repeat split.
  - rewrite repair_nonfinite_S in Hrun.
    destruct (bad_index z) as [|[by_ bx] rest] eqn:Hbad.
    + injection Hrun as <-. by repeat split.
    + destruct (IH _ _ Hrun) as (Hnil & Hn & Hm & Hcells).
      split; [done|]. split; [by rewrite Hn, repair_first_nrows|].
      split; [done|]. intros i j q Hq.
      apply Hcells. by eapply repair_first_keeps.
Qed.

(** The loop returns exactly when every mean of the pass is finite. *)
Lemma repair_nonfinite_returns fuel z z' :
  repair_nonfinite nanmean fuel z = Some z' →
  pass_ok nanmean z (bad_index z) = true
  ∧ (length (bad_index z) ≤ fuel)%nat
  ∧ z' = pass nanmean z (bad_index z).
Proof.
  intros Hrun.
  destruct (repair_nonfinite_pass (bad_index z) z eq_refl) as (Hshort & Hok & Hnot).
  destruct (pass_ok nanmean z (bad_index z)) eqn:E.
  - split; [done|].
    destruct (Nat.le_gt_cases (length (bad_index z)) fuel) as [Hle|Hlt].
    + split; [done|].
      pose proof (repair_nonfinite_mono _ _ _ fuel (Hok eq_refl) Hle) as H.
      congruence.
    + rewrite (Hshort fuel Hlt) in Hrun. done.
  - rewrite (Hnot eq_refl fuel) in Hrun. done.
Qed.

(** The sub array of the first bad entry holds a finite value when the
    entry has an anchor: no entry before it is bad. *)
Lemma anchored_first z by_ bx rest :
  wf z → bad_index z = (by_, bx) :: rest → anchored z by_ bx →
  has_finite (flat (subarray_around z by_ bx)).
Proof.
  intros Hwf Hbad (i & j & v & Hin & Hv & Hor).
  assert (isfinite v = true) as Hvf.
  { destruct (isfinite v) eqn:E; [done|]. destruct Hor as [|Hbef]; [done|].
    assert ((i, j) ∈ bad_index z) as Hij
      by (apply elem_of_bad_index; by exists v).
    rewrite Hbad in Hij. apply elem_of_cons in Hij as [Heq|Hij].
    - rewrite Heq in Hbef. by apply before_irrefl in Hbef.
    - pose proof (bad_index_first _ _ _ Hbad _ Hij) as Hbef'.
      destruct (before_asym _ _ Hbef Hbef'). }
  apply has_finite_cells; [done|].
  destruct v as [q| | |]; try done. by exists i, j, q.
Qed.

(** The anchors are kept by a turn that writes a finite mean. *)
Lemma anchored_step z by_ bx rest :
  bad_index z = (by_, bx) :: rest →
  isfinite (local_mean nanmean z by_ bx) = true →
  (∀ i j, nonfinite_at z i j → anchored z i j) →
  ∀ i j, nonfinite_at (repair_first nanmean z by_ bx) i j →
         anchored (repair_first nanmean z by_ bx) i j.
Proof.
  intros Hbad Hf Hanch i j (v & Hv & Hvf).
  assert (nonfinite_at z by_ bx) as (v0 & Hv0 & Hf0)
    by (apply elem_of_bad_index; rewrite Hbad; apply list_elem_of_here).
  assert ((i, j) ≠ (by_, bx)) as Hne.
  { intros [= -> ->]. rewrite repair_first_local_mean in Hv.
    rewrite (cell_setitem_eq _ _ _ v0) in Hv by done.
    injection Hv as <-. congruence. }
  rewrite repair_first_local_mean, cell_setitem_ne in Hv by done.
  destruct (Hanch i j) as (a & b & w & Hin & Hw & Hor); [by exists v|].
  unfold anchored. rewrite repair_first_nrows, repair_first_ncols.
  destruct (decide ((a, b) = (by_, bx))) as [[= -> ->]|Hab].
  - exists by_, bx, (local_mean nanmean z by_ bx). split; [done|].
    split; [|by left].
    rewrite repair_first_local_mean. by apply (cell_setitem_eq _ _ _ v0).
  - exists a, b, w. split; [done|]. split; [|done].
    by rewrite repair_first_local_mean, cell_setitem_ne.
Qed.

(** With an anchor for every bad entry and no overflow, every mean of the
    pass is finite. *)
Lemma anchored_pass_ok ps :
  ∀ z, wf z → bad_index z = ps →
  (∀ by_ bx, nonfinite_at z by_ bx → anchored z by_ bx) →
  no_overflow nanmean z ps = true → pass_ok nanmean z ps = true.
Proof.
  induction ps as [|[by_ bx] rest IH]; intros z Hwf Hbad Hanch Hno; [done|].
  cbn [no_overflow pass_ok] in *. apply andb_true_iff in Hno as [Himp Hno].
  assert (nonfinite_at z by_ bx) as Hbadp
    by (apply elem_of_bad_index; rewrite Hbad; apply list_elem_of_here).
  assert (isfinite (local_mean nanmean z by_ bx) = true) as Hf.
  { pose proof (anchored_first z by_ bx rest Hwf Hbad (Hanch _ _ Hbadp)) as Hex.
    apply existsb_has_finite in Hex. by rewrite Hex in Himp. }
  rewrite Hf. simpl.
  pose proof (repair_first_finite z by_ bx rest Hbad Hf) as Hrest.
  apply IH; [by apply repair_first_wf | done | | done].
  by eapply anchored_step.
Qed.

(** Conversely, when every mean of the pass is finite each bad entry has an
    anchor and no mean overflows; an all-NaN array has the mean NaN. *)
Lemma pass_ok_anchored ps :
  (∀ l, Forall (fun v => v = NaN) l → nanmean l = NaN) →
  ∀ z, wf z → bad_index z = ps → pass_ok nanmean z ps = true →
  (∀ by_ bx, nonfinite_at z by_ bx → anchored z by_ bx)
  ∧ no_overflow nanmean z ps = true.
Proof.
  intros Hnan.
  induction ps as [|[by_ bx] rest IH]; intros z Hwf Hbad Hok.
  - split; [|done]. intros i j Hij. apply elem_of_bad_index in Hij.
    rewrite Hbad in Hij. by apply elem_of_nil in Hij.
  - cbn [no_overflow pass_ok] in *. apply andb_true_iff in Hok as [Hf Hok].
    pose proof (repair_first_finite z by_ bx rest Hbad Hf) as Hrest.
    destruct (IH _ (repair_first_wf z by_ bx Hwf) Hrest Hok) as [Hanch Hno].
    split; [|rewrite Hf, Hno; by destruct (existsb _ _)].
    assert (nonfinite_at z by_ bx) as Hbadp
      by (apply elem_of_bad_index; rewrite Hbad; apply list_elem_of_here).
    intros i j Hij. pose proof Hij as Hin. apply elem_of_bad_index in Hin.
    rewrite Hbad in Hin. apply elem_of_cons in Hin as [[= -> ->]|Hin].
    + assert (has_finite (flat (subarray_around z by_ bx))) as Hhas.
      { destruct (decide (Exists (fun v => isfinite v = true)
                            (flat (subarray_around z by_ bx)))) as [H|H]; [done|].
        apply mask_finite_all_nan, Hnan in H.
        unfold local_mean in Hf. by rewrite H in Hf. }
      apply has_finite_cells in Hhas as (a & b & q & Hab & Hq); [|done].
      exists a, b, (Fin q). split; [done|]. split; [done | by left].
    + destruct (Hanch i j) as (a & b & w & Hab & Hw & Hor).
      { apply elem_of_bad_index. by rewrite Hrest. }
      rewrite repair_first_nrows, repair_first_ncols in Hab.
      destruct (decide ((a, b) = (by_, bx))) as [[= -> ->]|Hne].
      * destruct Hbadp as (v0 & Hv0 & Hf0).
        exists by_, bx, v0. split; [done|]. split; [done|]. right.
        by apply (bad_index_first _ _ _ Hbad).
      * rewrite repair_first_local_mean, cell_setitem_ne in Hw by done.
        by exists a, b, w.
Qed.

End RepairLoop.

(** ** [nanmean64] *)

Lemma nanmean64_all_nan l : Forall (fun v => v = NaN) l → nanmean64 l = NaN.
Proof.
  intros H. unfold nanmean64.
  assert (fold_left (fun s v => Fround (Fadd s v)) (replace_nan l) (Fin 0%Qc)
          = Fin 0%Qc ∧ count_not_nan l = 0%nat) as [-> ->].
  { unfold count_not_nan. induction H as [|v l -> _ [IH1 IH2]]; [done|]. simpl.
    split; [|done].
    replace (Fround (Fin (0 + 0)%Qc)) with (Fin 0%Qc) by (vm_compute; reflexivity).
    exact IH1. }
  vm_compute. reflexivity.
Qed.

(** ** Termination of the repair *)

(** Membership in a concrete list of positions, decided by evaluation. *)
Ltac in_cells := apply (bool_decide_unpack _); vm_compute; exact I.

Lemma blocked_3x4_column_2 by_ :
  (by_ < 3)%nat → reaches_finite blocked_3x4 by_ 2.
Proof.
  intros H. apply (reach_here _ by_ 2 0 3 1%Qc); [|reflexivity].
  destruct by_ as [|[|[|?]]]; [| | |lia]; in_cells.
Qed.

Lemma blocked_3x4_reaches by_ bx :
  nonfinite_at blocked_3x4 by_ bx → reaches_finite blocked_3x4 by_ bx.
Proof.
  intros (v & Hv & Hf).
  assert (by_ < 3 ∧ bx < 3)%nat as [Hy Hx].
  { destruct by_ as [|[|[|?]]], bx as [|[|[|[|?]]]];
      vm_compute in Hv; try discriminate Hv; try lia;
      injection Hv as <-; discriminate Hf. }
  destruct (decide (bx = 2%nat)) as [->|Hne].
  - by apply blocked_3x4_column_2.
  - apply (reach_next _ by_ bx 0 2); [|apply blocked_3x4_column_2; lia].
    destruct by_ as [|[|[|?]]], bx as [|[|[|?]]]; try lia; in_cells.
Qed.

Lemma overflow_3x3_bad by_ bx :
  nonfinite_at overflow_3x3 by_ bx → by_ = 1%nat ∧ bx = 1%nat.
Proof.
  intros (v & Hv & Hf).
  destruct by_ as [|[|[|?]]], bx as [|[|[|?]]];
    try discriminate Hv; try done;
    injection Hv as <-; discriminate Hf.
Qed.

Lemma overflow_3x3_loops fuel :
  repair_nonfinite nanmean64 fuel overflow_3x3 = None.
Proof.
  apply (repair_nonfinite_stuck nanmean64 overflow_3x3 1 1 []);
    vm_compute; reflexivity.
Qed.

(** C2 as stated fails in two ways.  In [blocked_3x4] a finite value is
    reachable from every non-finite entry through the windows (the entries
    of column 2 have column 3 in their window, and column 2 is in the window
    of the others), yet the loop retries the entry (0, 0) for ever: its own
    window holds no finite value, the mean is NaN, and it stays the first
    bad entry.  In [overflow_3x3] the eight neighbours of the NaN are
    finite, their float64 sum is an infinity, the infinity is written in
    place of the NaN, and the next turn finds the same entry again. *)
Lemma repair_nonfinite_blocked :
  wf blocked_3x4
  ∧ (∀ by_ bx, nonfinite_at blocked_3x4 by_ bx →
               reaches_finite blocked_3x4 by_ bx)
  ∧ (∀ fuel, repair_nonfinite nanmean64 fuel blocked_3x4 = None)
  ∧ wf overflow_3x3
  ∧ (∀ by_ bx, nonfinite_at overflow_3x3 by_ bx →
               reaches_finite overflow_3x3 by_ bx)
  ∧ local_mean nanmean64 overflow_3x3 1 1 = PInf
  ∧ (∀ fuel, repair_nonfinite nanmean64 fuel overflow_3x3 = None).
Proof.
  split; [repeat constructor|]. split; [exact blocked_3x4_reaches|].
  split.
  { intros fuel.
    apply (repair_nonfinite_stuck nanmean64 blocked_3x4 0 0
             (List.tl (bad_index blocked_3x4))); reflexivity. }
  split; [repeat constructor|]. split.
  { intros by_ bx [-> ->]%overflow_3x3_bad.
    apply (reach_here _ 1 1 0 0 (Q2Qc (inject_Z (2 ^ 1023)))); [in_cells | reflexivity]. }
  split; [vm_compute; reflexivity | exact overflow_3x3_loops].
Qed.

(** On an array with fewer than 3 rows or columns the sub array of the loop
    is not the 3x3 window: in [nan_corner_2x2] the three neighbours of the
    NaN are finite, the sub array holds the NaN alone, and the loop does not
    end. *)
Lemma nan_corner_2x2_loops :
  flat (subarray_around nan_corner_2x2 1 1) = [NaN]
  ∧ ∀ fuel, repair_nonfinite nanmean64 fuel nan_corner_2x2 = None.
Proof.
  split; [reflexivity|]. intros fuel.
  apply (repair_nonfinite_stuck nanmean64 nan_corner_2x2 1 1 []); reflexivity.
Qed.

(** C2, as amended.  For every 2-D array in which the sub array averaged for
    each non-finite entry holds an entry that is finite or that precedes it
    in row-major order (and is repaired before it), and in which no mean
    written on the way overflows, [repair_nonfinite] terminates, after one
    turn of its loop per non-finite entry; the array it returns is the one
    left by a single pass over the non-finite entries, it has the shape of
    the argument and no non-finite entry.  The two conditions are necessary
    as well: whenever the repair returns, both hold (an all-NaN sub array
    having the mean NaN). *)
Theorem repair_nonfinite_terminates (nanmean : list fl → fl) (z : ndarray) :
  wf z →
  ((∀ by_ bx, nonfinite_at z by_ bx → anchored z by_ bx) →
   no_overflow nanmean z (bad_index z) = true →
   ∃ z', (∀ fuel, (length (bad_index z) ≤ fuel)%nat →
                  repair_nonfinite nanmean fuel z = Some z')
         ∧ z' = pass nanmean z (bad_index z)
         ∧ all_finite z' ∧ bad_index z' = []
         ∧ nrows z' = nrows z ∧ ncols z' = ncols z)
  ∧ ((∀ l, Forall (fun v => v = NaN) l → nanmean l = NaN) →
     ∀ fuel z', repair_nonfinite nanmean fuel z = Some z' →
       (∀ by_ bx, nonfinite_at z by_ bx → anchored z by_ bx)
       ∧ no_overflow nanmean z (bad_index z) = true).
Proof.
  intros Hwf. split.
  - intros Hanch Hno.
    pose proof (anchored_pass_ok nanmean _ z Hwf eq_refl Hanch Hno) as Hok.
    destruct (repair_nonfinite_pass nanmean _ z eq_refl) as (_ & Hrun & _).
    specialize (Hrun Hok).
    destruct (repair_nonfinite_run nanmean _ _ _ Hrun) as (Hnil & Hn & Hm & _).
    exists (pass nanmean z (bad_index z)).
    split; [|split; [done|split; [by apply bad_index_nil|done]]].
    intros fuel Hfuel. by eapply repair_nonfinite_mono.
  - intros Hnan fuel z' Hrun.
    apply repair_nonfinite_returns in Hrun as (Hok & _ & _).
    by apply (pass_ok_anchored nanmean _ Hnan z Hwf eq_refl).
Qed.

Lemma mirrored_3x4_anchored by_ bx :
  nonfinite_at mirrored_3x4 by_ bx → anchored mirrored_3x4 by_ bx.
Proof.
  intros (v & Hv & Hf).
  destruct by_ as [|[|[|?]]], bx as [|[|[|[|?]]]];
    try discriminate Hv; try (injection Hv as <-; discriminate Hf).
  all: first
    [ exists 0%nat, 0%nat, (Fin 1%Qc); split; [in_cells|]; split; [reflexivity | by left]
    | exists 0%nat, 1%nat, NaN; split; [in_cells|]; split;
        [reflexivity | right; unfold before; simpl; lia] ].
Qed.

Lemma repair_nonfinite_terminates_witness :
  wf mirrored_3x4
  ∧ (∀ by_ bx, nonfinite_at mirrored_3x4 by_ bx → anchored mirrored_3x4 by_ bx)
  ∧ no_overflow nanmean64 mirrored_3x4 (bad_index mirrored_3x4) = true
  ∧ ∃ z', (∀ fuel, (length (bad_index mirrored_3x4) ≤ fuel)%nat →
                   repair_nonfinite nanmean64 fuel mirrored_3x4 = Some z')
          ∧ z' = pass nanmean64 mirrored_3x4 (bad_index mirrored_3x4)
          ∧ all_finite z' ∧ bad_index z' = []
          ∧ nrows z' = nrows mirrored_3x4 ∧ ncols z' = ncols mirrored_3x4.
Proof.
  assert (wf mirrored_3x4) as Hwf by repeat constructor.
  assert (no_overflow nanmean64 mirrored_3x4 (bad_index mirrored_3x4) = true)
    as Hno by (vm_compute; reflexivity).
  split; [exact Hwf|]. split; [exact mirrored_3x4_anchored|].
  split; [exact Hno|].
  exact (proj1 (repair_nonfinite_terminates nanmean64 mirrored_3x4 Hwf)
           mirrored_3x4_anchored Hno).
Defined.

(** ** Isolated non-finite entries *)

Lemma isolated_window z by_ bx :
  wf z → nonfinite_at z by_ bx → isolated z by_ bx →
  flat (subarray_around z by_ bx) = window_values z by_ bx
  ∧ length (window_values z by_ bx) = 9%nat.
Proof.
  intros Hwf (v & Hv & Hf) (Hny & Hnx & _).
  destruct (cell_lt z by_ bx v Hwf Hv) as [Hy Hx].
  by apply subarray_window.
Qed.

Lemma fmap_omap_masked {A} (f : A → option fl) (l : list A) :
  masked <$> omap f l = omap (fun c => masked <$> f c) l.
Proof.
  induction l as [|x l IH]; [done|].
  rewrite !omap_cons. destruct (f x) as [y|].
  - change (masked <$> Some y) with (Some (masked y)).
    rewrite fmap_cons. by f_equal.
  - exact IH.
Qed.

(** The masked window of an isolated entry: a NaN in place of the entry,
    and the eight other values as they are. *)
Lemma isolated_masked z by_ bx :
  nonfinite_at z by_ bx → isolated z by_ bx →
  mask_finite (window_values z by_ bx)
  = omap (fun c : nat * nat =>
            if bool_decide (c = (by_, bx)) then Some NaN else cell z c.1 c.2)
      (window_cells (nrows z) (ncols z) by_ bx).
Proof.
  intros (v & Hv & Hf) (_ & _ & Hiso).
  rewrite mask_finite_masked. unfold window_values. rewrite fmap_omap_masked.
  apply omap_ext_in. intros [i j] Hin. simpl.
  destruct (bool_decide_reflect ((i, j) = (by_, bx))) as [[= -> ->]|Hne].
  - rewrite Hv. simpl. by rewrite masked_bad.
  - destruct (Hiso i j Hin Hne) as [q ->].
    change (masked <$> Some (Fin q)) with (Some (masked (Fin q))).
    by rewrite masked_fin.
Qed.

Lemma repair_isolated_run nanmean n :
  ∀ z, length (bad_index z) = n → wf z →
  (∀ by_ bx, nonfinite_at z by_ bx →
     isolated z by_ bx
     ∧ isfinite (nanmean (mask_finite (window_values z by_ bx))) = true) →
  ∃ z', repair_nonfinite nanmean n z = Some z'
        ∧ ∀ i j v, cell z i j = Some v →
            cell z' i j
            = Some (if isfinite v then v
                    else nanmean (mask_finite (window_values z i j))).
Proof.
  induction n as [|n IH]; intros z Hlen Hwf Hiso.
  - apply length_zero_iff_nil in Hlen. exists z.
    split; [simpl; by rewrite Hlen|]. intros i j v Hv.
    destruct (isfinite v) eqn:Hf; [done|].
    assert ((i, j) ∈ bad_index z) as Hin
      by (apply elem_of_bad_index; by exists v).
    rewrite Hlen in Hin. by apply elem_of_nil in Hin.
  - destruct (bad_index z) as [|[by_ bx] rest] eqn:Hbad; [done|].
    assert (nonfinite_at z by_ bx) as Hbadp
      by (apply elem_of_bad_index; rewrite Hbad; apply list_elem_of_here).
    destruct (Hiso _ _ Hbadp) as [Hisop Hfin].
    destruct (isolated_window z by_ bx Hwf Hbadp Hisop) as (Hsub & _).
    assert (local_mean nanmean z by_ bx
            = nanmean (mask_finite (window_values z by_ bx))) as Hmean
      by (unfold local_mean; by rewrite Hsub).
    assert (isfinite (local_mean nanmean z by_ bx) = true) as Hf
      by (by rewrite Hmean).
    pose proof (repair_first_finite nanmean z by_ bx rest Hbad Hf) as Hrest.
    set (z1 := repair_first nanmean z by_ bx) in *.
    destruct Hbadp as (v0 & Hv0 & Hf0).
    assert (cell z1 by_ bx = Some (local_mean nanmean z by_ bx)) as Hnew
      by (by apply (cell_setitem_eq _ _ _ v0)).
    assert (∀ i j, (i, j) ≠ (by_, bx) → cell z1 i j = cell z i j) as Hold
      by (intros i j Hne; by apply cell_setitem_ne).
    assert (nrows z1 = nrows z) as Hn1 by apply repair_first_nrows.
    assert (∀ i j v, cell z i j = Some v → isfinite v = false →
              (i, j) ≠ (by_, bx) →
              window_values z1 i j = window_values z i j) as Hwin.
    { intros i j v Hv Hvf Hne. unfold window_values.
      rewrite Hn1. change (ncols z1) with (ncols z).
      apply omap_ext_in. intros [a b] Hin. simpl.
      apply Hold. intros [= -> ->].
      destruct (Hiso i j) as ((_ & _ & Hothers) & _); [by exists v|].
      destruct (Hothers by_ bx Hin) as [q Hq]; [congruence|].
      rewrite Hv0 in Hq. injection Hq as ->. done. }
    destruct (IH z1) as (z' & Hrun & Hcells).
    + rewrite Hrest. simpl in Hlen. lia.
    + by apply repair_first_wf.
    + intros i j (v & Hv & Hvf).
      assert ((i, j) ≠ (by_, bx)) as Hne.
      { intros [= -> ->]. rewrite Hnew in Hv. injection Hv as <-. congruence. }
      rewrite Hold in Hv by done.
      destruct (Hiso i j) as ((Hny & Hnx & Hothers) & Hfinij); [by exists v|].
      split.
      * unfold isolated. rewrite Hn1. change (ncols z1) with (ncols z).
        split; [done|]. split; [done|]. intros a b Hin Hab.
        destruct (decide ((a, b) = (by_, bx))) as [[= -> ->]|Hne'].
        -- rewrite Hnew. destruct (local_mean nanmean z by_ bx); try done. eauto.
        -- rewrite Hold by done. by apply Hothers.
      * by rewrite (Hwin i j v).
    + exists z'. split; [by rewrite repair_nonfinite_S, Hbad|].
      intros i j v Hv.
      destruct (decide ((i, j) = (by_, bx))) as [[= -> ->]|Hne].
      * rewrite (Hcells _ _ _ Hnew), Hf.
        assert (v = v0) as -> by congruence. by rewrite Hf0, Hmean.
      * rewrite (Hcells i j v) by (by rewrite Hold).
        destruct (isfinite v) eqn:Hvf; [done|]. by rewrite (Hwin i j v).
Qed.

Lemma nan_centre_3x3_bad by_ bx :
  nonfinite_at nan_centre_3x3 by_ bx → by_ = 1%nat ∧ bx = 1%nat.
Proof.
  intros (v & Hv & Hf).
  destruct by_ as [|[|[|?]]], bx as [|[|[|?]]];
    vm_compute in Hv; try discriminate Hv; try done;
    injection Hv as <-; discriminate Hf.
Qed.

Lemma nan_centre_3x3_wf : wf nan_centre_3x3.
Proof. repeat constructor. Qed.

Lemma centre_3x3_isolated z :
  nrows z = 3%nat → ncols z = 3%nat →
  (∀ i j, (i < 3)%nat → (j < 3)%nat → (i, j) ≠ (1%nat, 1%nat) →
          ∃ q, cell z i j = Some (Fin q)) →
  isolated z 1 1.
Proof.
  intros Hn Hm Hcells. unfold isolated. rewrite Hn, Hm.
  split; [lia|]. split; [lia|]. intros i j Hin Hne.
  change (window_cells 3 3 1 1)
    with [(0, 0); (0, 1); (0, 2); (1, 0); (1, 1); (1, 2);
          (2, 0); (2, 1); (2, 2)]%nat in Hin.
  rewrite !elem_of_cons, elem_of_nil in Hin.
  destruct Hin as [E|[E|[E|[E|[E|[E|[E|[E|[E|[]]]]]]]]]];
    injection E as -> ->; try done; apply Hcells; (lia || done).
Qed.

Lemma nan_centre_3x3_isolated by_ bx :
  nonfinite_at nan_centre_3x3 by_ bx →
  isolated nan_centre_3x3 by_ bx
  ∧ isfinite (nanmean64 (mask_finite (window_values nan_centre_3x3 by_ bx)))
    = true.
Proof.
  intros [-> ->]%nan_centre_3x3_bad. split; [|vm_compute; reflexivity].
  apply centre_3x3_isolated; [reflexivity | reflexivity |].
  intros [|[|[|?]]] [|[|[|?]]] Hi Hj Hne; try lia; try done;
    eexists; reflexivity.
Qed.

(** C6 as stated fails when the mean overflows: the NaN of [overflow_3x3] is
    isolated, its eight neighbours being the float64 value [2^1023]; their
    sum is beyond the largest float64, so the mean that the loop writes is
    an infinity, the entry is still the first bad one, and the loop does not
    end. *)
Lemma repair_nonfinite_overflow :
  wf overflow_3x3
  ∧ (∀ by_ bx, nonfinite_at overflow_3x3 by_ bx → isolated overflow_3x3 by_ bx)
  ∧ round64 (inject_Z (2 ^ 1023)) = huge
  ∧ nanmean64 (mask_finite (window_values overflow_3x3 1 1)) = PInf
  ∧ bad_index (repair_first nanmean64 overflow_3x3 1 1) = [(1, 1)%nat]
  ∧ (∀ fuel, repair_nonfinite nanmean64 fuel overflow_3x3 = None).
Proof.
  split; [repeat constructor|]. split.
  { intros by_ bx [-> ->]%overflow_3x3_bad.
    apply centre_3x3_isolated; [reflexivity | reflexivity |].
    intros [|[|[|?]]] [|[|[|?]]] Hi Hj Hne; try lia; try done;
      eexists; reflexivity. }
  split; [by_eval|]. split; [vm_compute; reflexivity|].
  split; [vm_compute; reflexivity | exact overflow_3x3_loops].
Qed.

(** C6, as amended.  In an array where every non-finite entry is isolated,
    the eight other values of its 3x3 window being finite, and where the
    mean that [np.nanmean] computes for that window is finite (the float64
    sum of the eight values does not overflow), [repair_nonfinite] ends
    within one turn of the loop per non-finite entry; it leaves the finite
    entries as they are and puts in place of each non-finite entry the
    [np.nanmean] of its masked 3x3 window, which holds the eight finite
    values and a NaN.  The window is the sub array of the loop: it keeps
    its nine entries at the edges and corners, where it is moved one step
    inward.  The result has no non-finite entry. *)
Theorem repair_nonfinite_isolated (nanmean : list fl → fl) (z : ndarray) :
  wf z →
  (∀ by_ bx, nonfinite_at z by_ bx →
     isolated z by_ bx
     ∧ isfinite (nanmean (mask_finite (window_values z by_ bx))) = true) →
  ∃ z', (∀ fuel, (length (bad_index z) ≤ fuel)%nat →
                 repair_nonfinite nanmean fuel z = Some z')
        ∧ nrows z' = nrows z ∧ ncols z' = ncols z
        ∧ (∀ i j v, cell z i j = Some v →
             cell z' i j
             = Some (if isfinite v then v
                     else nanmean (mask_finite (window_values z i j))))
        ∧ (∀ by_ bx, nonfinite_at z by_ bx →
             flat (subarray_around z by_ bx) = window_values z by_ bx
             ∧ length (window_values z by_ bx) = 9%nat
             ∧ mask_finite (window_values z by_ bx)
               = omap (fun c : nat * nat =>
                         if bool_decide (c = (by_, bx)) then Some NaN
                         else cell z c.1 c.2)
                   (window_cells (nrows z) (ncols z) by_ bx))
        ∧ all_finite z' ∧ bad_index z' = [].
Proof.
  intros Hwf Hiso.
  destruct (repair_isolated_run nanmean (length (bad_index z)) z eq_refl Hwf Hiso)
    as (z' & Hrun & Hcells).
  destruct (repair_nonfinite_run nanmean _ _ _ Hrun) as (Hnil & Hn & Hm & _).
  exists z'. split; [|split; [|split; [|split; [|split; [|split]]]]].
  - intros fuel Hfuel. by eapply repair_nonfinite_mono.
  - done.
  - done.
  - exact Hcells.
  - intros by_ bx Hbad. destruct (Hiso _ _ Hbad) as [Hisop _].
    destruct (isolated_window z by_ bx Hwf Hbad Hisop) as (H1 & H2).
    split; [done|]. split; [done|]. by apply isolated_masked.
  - by apply bad_index_nil.
  - done.
Qed.

Lemma repair_nonfinite_isolated_witness :
  wf nan_centre_3x3
  ∧ (∀ by_ bx, nonfinite_at nan_centre_3x3 by_ bx →
       isolated nan_centre_3x3 by_ bx
       ∧ isfinite (nanmean64 (mask_finite (window_values nan_centre_3x3 by_ bx)))
         = true)
  ∧ ∃ z', repair_nonfinite nanmean64 1 nan_centre_3x3 = Some z'
          ∧ cell z' 1 1
            = Some (nanmean64 (mask_finite (window_values nan_centre_3x3 1 1)))
          ∧ all_finite z'.
Proof.
  split; [exact nan_centre_3x3_wf|]. split; [exact nan_centre_3x3_isolated|].
  destruct (repair_nonfinite_isolated nanmean64 nan_centre_3x3 nan_centre_3x3_wf
              nan_centre_3x3_isolated)
    as (z' & Hrun & _ & _ & Hcells & _ & Hfin & _).
  exists z'. split; [apply Hrun; vm_compute; lia|]. split; [|exact Hfin].
  exact (Hcells 1%nat 1%nat NaN eq_refl).
Defined.

(** ** What the repair keeps *)

(** X13.  Whenever [repair_nonfinite] returns, the array it returns has the
    shape of its argument and no non-finite entry, and every entry that was
    finite has kept its value: only non-finite entries are written. *)
Theorem repair_nonfinite_keeps_finite (nanmean : list fl → fl) (fuel : nat)
    (z z' : ndarray) :
  repair_nonfinite nanmean fuel z = Some z' →
  nrows z' = nrows z ∧ ncols z' = ncols z ∧ all_finite z'
  ∧ ∀ i j q, cell z i j = Some (Fin q) → cell z' i j = Some (Fin q).
Proof.
  intros Hrun. destruct (repair_nonfinite_run nanmean fuel z z' Hrun)
    as (Hnil & Hn & Hm & Hcells).
  split; [done|]. split; [done|]. split; [by apply bad_index_nil | done].
Qed.

Lemma repair_nonfinite_keeps_finite_witness :
  ∃ z', repair_nonfinite nanmean64 1 nan_centre_3x3 = Some z'
        ∧ nrows z' = nrows nan_centre_3x3 ∧ ncols z' = ncols nan_centre_3x3
        ∧ all_finite z'
        ∧ ∀ i j q, cell nan_centre_3x3 i j = Some (Fin q) →
                   cell z' i j = Some (Fin q).
Proof.
  destruct (repair_nonfinite nanmean64 1 nan_centre_3x3) as [z'|] eqn:E;
    [|vm_compute in E; discriminate E].
  exists z'. split; [reflexivity|].
  exact (repair_nonfinite_keeps_finite nanmean64 1 nan_centre_3x3 z' E).
Defined.

(** X14.  Repairing twice is repairing once: what [repair_nonfinite]
    returns is returned unchanged by a second call, whatever the fuel. *)
Theorem repair_nonfinite_idempotent (nanmean : list fl → fl)
    (fuel fuel' : nat) (z z' : ndarray) :
  repair_nonfinite nanmean fuel z = Some z' →
  repair_nonfinite nanmean fuel' z' = Some z'.
Proof.
  intros Hrun. destruct (repair_nonfinite_run nanmean fuel z z' Hrun) as (Hnil & _).
  destruct fuel'; simpl; by rewrite Hnil.
Qed.

Lemma repair_nonfinite_idempotent_witness :
  ∃ z', repair_nonfinite nanmean64 1 nan_centre_3x3 = Some z'
        ∧ repair_nonfinite nanmean64 0 z' = Some z'.
Proof.
  destruct (repair_nonfinite nanmean64 1 nan_centre_3x3) as [z'|] eqn:E;
    [|vm_compute in E; discriminate E].
  exists z'. split; [reflexivity|].
  exact (repair_nonfinite_idempotent nanmean64 1 0 nan_centre_3x3 z' E).
Defined.

(** ** When the repair does not end *)

(** X15.  When the sub array averaged for the first non-finite entry (in
    row-major order) holds no finite value, [repair_nonfinite] never
    returns: the entry is rewritten with NaN, the mean of an array that is
    all NaN, and stays the first bad entry, however much fuel is given and
    whatever the rest of the array holds. *)
Theorem repair_nonfinite_diverges (nanmean : list fl → fl) (z : ndarray)
    (by_ bx : nat) (rest : list (nat * nat)) :
  (∀ l, Forall (fun v => v = NaN) l → nanmean l = NaN) →
  bad_index z = (by_, bx) :: rest →
  ¬ has_finite (flat (subarray_around z by_ bx)) →
  ∀ fuel, repair_nonfinite nanmean fuel z = None.
Proof.
  intros Hnan Hbad Hno.
  apply (repair_nonfinite_stuck nanmean z by_ bx rest Hbad).
  unfold local_mean. by rewrite (Hnan _ (mask_finite_all_nan _ Hno)).
Qed.

Lemma repair_nonfinite_diverges_witness :
  (∀ l, Forall (fun v => v = NaN) l → nanmean64 l = NaN)
  ∧ bad_index blocked_3x4 = (0%nat, 0%nat) :: List.tl (bad_index blocked_3x4)
  ∧ ¬ has_finite (flat (subarray_around blocked_3x4 0 0))
  ∧ ∀ fuel, repair_nonfinite nanmean64 fuel blocked_3x4 = None.
Proof.
  assert (¬ has_finite (flat (subarray_around blocked_3x4 0 0))) as Hno.
  { intros H. apply existsb_has_finite in H. discriminate H. }
  split; [exact nanmean64_all_nan|]. split; [reflexivity|]. split; [exact Hno|].
  exact (repair_nonfinite_diverges nanmean64 blocked_3x4 0 0
           (List.tl (bad_index blocked_3x4)) nanmean64_all_nan eq_refl Hno).
Defined.

(** X20.  When the mean written for the first non-finite entry is not
    finite, a NaN or, after an overflow of the sum, an infinity,
    [repair_nonfinite] never returns: the entry stays the first bad one and
    the next turn computes the same mean. *)
Theorem repair_nonfinite_mean_not_finite (nanmean : list fl → fl)
    (z : ndarray) (by_ bx : nat) (rest : list (nat * nat)) :
  bad_index z = (by_, bx) :: rest →
  isfinite (local_mean nanmean z by_ bx) = false →
  ∀ fuel, repair_nonfinite nanmean fuel z = None.
Proof. apply repair_nonfinite_stuck. Qed.

Lemma repair_nonfinite_mean_not_finite_witness :
  bad_index overflow_3x3 = [(1, 1)%nat]
  ∧ isfinite (local_mean nanmean64 overflow_3x3 1 1) = false
  ∧ ∀ fuel, repair_nonfinite nanmean64 fuel overflow_3x3 = None.
Proof.
  assert (isfinite (local_mean nanmean64 overflow_3x3 1 1) = false) as H
    by (vm_compute; reflexivity).
  split; [reflexivity|]. split; [exact H|].
  exact (repair_nonfinite_mean_not_finite nanmean64 overflow_3x3 1 1 []
           eq_refl H).
Defined.

(** ** The number of turns of the loop *)

(** X16.  The loop of [repair_nonfinite] makes one turn per non-finite
    entry of its argument: it returns within a number of turns exactly when
    every mean written by a single pass over these entries is finite and the
    number is at least their count, and what it returns is the array left by
    the pass. *)
Theorem repair_nonfinite_turns (nanmean : list fl → fl) (z : ndarray)
    (fuel : nat) :
  (is_Some (repair_nonfinite nanmean fuel z) ↔
   pass_ok nanmean z (bad_index z) = true ∧ (length (bad_index z) ≤ fuel)%nat)
  ∧ ∀ z', repair_nonfinite nanmean fuel z = Some z' →
          z' = pass nanmean z (bad_index z).
Proof.
  split; [split|].
  - intros [z' Hrun]. by apply repair_nonfinite_returns in Hrun as (? & ? & _).
  - intros [Hok Hle].
    destruct (repair_nonfinite_pass nanmean _ z eq_refl) as (_ & Hrun & _).
    exists (pass nanmean z (bad_index z)).
    by apply (repair_nonfinite_mono nanmean _ _ _ fuel (Hrun Hok)).
  - intros z' Hrun. by apply repair_nonfinite_returns in Hrun as (_ & _ & ?).
Qed.

Lemma repair_nonfinite_turns_witness :
  is_Some (repair_nonfinite nanmean64 9 mirrored_3x4)
  ∧ ¬ is_Some (repair_nonfinite nanmean64 8 mirrored_3x4)
  ∧ length (bad_index mirrored_3x4) = 9%nat.
Proof.
  destruct (repair_nonfinite_turns nanmean64 mirrored_3x4 9) as [H9 _].
  destruct (repair_nonfinite_turns nanmean64 mirrored_3x4 8) as [H8 _].
  split; [|split; [|reflexivity]].
  - apply H9. split; [vm_compute; reflexivity | vm_compute; lia].
  - intros H. apply H8 in H as [_ H]. vm_compute in H. lia.
Defined.

(** ** Integers among the floats *)

Lemma fl_of_Z_sub a b : Fsub (fl_of_Z a) (fl_of_Z b) = fl_of_Z (a - b).
Proof.
  unfold Fsub, fl_of_Z. simpl. f_equal. apply Qc_is_canon. simpl.
  rewrite !Qred_correct. unfold Zminus. rewrite inject_Z_plus, inject_Z_opp.
  reflexivity.
Qed.

Lemma Qtrunc_inject_Z k : Qtrunc (Qred (inject_Z k)) = k.
Proof.
  unfold Qtrunc.
  assert (Qred (inject_Z k) == inject_Z k) as E by apply Qred_correct.
  destruct (Qle_bool 0 (Qred (inject_Z k))).
  - rewrite E. apply Qfloor_Z.
  - rewrite E. apply Qceiling_Z.
Qed.

Lemma slice_bound_of_Z k : slice_bound (fl_of_Z k) = Ret k.
Proof. unfold slice_bound, fl_of_Z. simpl. f_equal. apply Qtrunc_inject_Z. Qed.

(** The sign of the ceiling. *)
Lemma Qceiling_nonneg q : (0 <= q)%Q → 0 ≤ Qceiling q.
Proof.
  intros H. change 0 with (Qceiling 0). by apply Qceiling_resp_le.
Qed.

Lemma Fceil_nonneg v :
  Fle (Fin 0%Qc) v = true → Fceil v = PInf ∨ ∃ k : nat, Fceil v = fl_of_nat k.
Proof.
  destruct v as [q| | |]; simpl; try done; [|by left].
  intros H%qc_le_iff. right. exists (Z.to_nat (Qceiling q)).
  unfold fl_of_nat. rewrite Z2Nat.id; [done|].
  apply Qceiling_nonneg. exact H.
Qed.

Lemma Fle_neg_0 v : Fle v (Fin 0%Qc) = Fle (Fin 0%Qc) (Fneg v).
Proof.
  destruct v as [q| | |]; simpl; try done.
  apply eq_iff_eq_true. rewrite !qc_le_iff. simpl. rewrite !Qred_correct.
  split; intros H.
  - apply Qopp_le_compat in H. exact H.
  - apply Qopp_le_compat in H. rewrite Qopp_involutive in H. exact H.
Qed.

(** ** Clip margins: range and symmetry *)

Lemma clip_margin_range (sel : fl → bool) (val : fl → fl) z m :
  (∀ v, sel v = true → val v = PInf ∨ ∃ k : nat, val v = fl_of_nat k) →
  is_margin sel val z m → m = PInf ∨ ∃ k : nat, m = fl_of_nat k.
Proof.
  intros Hval [[_ ->]|[(v & _ & Hs & ->) _]].
  - right. by exists 0%nat.
  - by apply Hval.
Qed.

(** X1.  [_upper_clip] and [_lower_clip] never raise, whatever the shifts
    (empty, negative, NaN, infinite): each returns a margin that is a
    non-negative integer or +Inf, never a negative number and never NaN. *)
Theorem clip_margins_range (z : list fl) :
  ∃ u l, _upper_clip z = Ret u ∧ _lower_clip z = Ret l
         ∧ (u = PInf ∨ ∃ k : nat, u = fl_of_nat k)
         ∧ (l = PInf ∨ ∃ k : nat, l = fl_of_nat k).
Proof.
  destruct (_upper_clip_margin z) as (u & Hu & Mu).
  destruct (_lower_clip_margin z) as (l & Hl & Ml).
  exists u, l. split; [done|]. split; [done|]. split.
  - eapply clip_margin_range; [|exact Mu]. intros v Hv. by apply Fceil_nonneg.
  - eapply clip_margin_range; [|exact Ml]. intros v Hv. simpl in Hv.
    apply Fceil_nonneg. by rewrite <- Fle_neg_0.
Qed.

Lemma mask_select_fmap (f : fl → fl) z c :
  mask_select (f <$> z) c = f <$> mask_select z c.
Proof.
  revert c. induction z as [|v z IH]; intros [|b c]; simpl; try done.
  destruct b; simpl; by rewrite IH.
Qed.

(** X2.  The lower margin of the shifts is the upper margin of the opposite
    shifts: [_lower_clip z = _upper_clip (-z)]. *)
Theorem _lower_clip_opposite (z : list fl) :
  _lower_clip z = _upper_clip (Fneg <$> z).
Proof.
  unfold _lower_clip, _upper_clip.
  assert ((fun v => Fge v (Fin 0%Qc)) <$> (Fneg <$> z)
          = (fun v => Fle v (Fin 0%Qc)) <$> z) as ->.
  { rewrite <- list_fmap_compose. apply list_fmap_ext.
    intros i v _. simpl. unfold Fge. symmetry. apply Fle_neg_0. }
  by rewrite mask_select_fmap.
Qed.

(** ** The shape of a clipped datacube *)

Lemma slice_len_clip n upper lower :
  slice_len n (Z.of_nat lower) (Z.of_nat n - Z.of_nat upper - 1)
  = clipped_extent n upper lower.
Proof.
  unfold slice_len, slice_index, clipped_extent.
  destruct (Nat.leb_spec (upper + 1) n),
    (Z.ltb_spec (Z.of_nat n - Z.of_nat upper - 1) 0),
    (Z.ltb_spec (Z.of_nat lower) 0); lia.
Qed.

Lemma clip_stop_bound n upper :
  slice_bound (Fsub (Fsub (fl_of_nat n) (fl_of_nat upper)) (Fin 1%Qc))
  = Ret (Z.of_nat n - Z.of_nat upper - 1).
Proof.
  change (Fin 1%Qc) with (fl_of_Z 1). unfold fl_of_nat.
  rewrite !fl_of_Z_sub. apply slice_bound_of_Z.
Qed.

Lemma slice_bound_of_nat k : slice_bound (fl_of_nat k) = Ret (Z.of_nat k).
Proof. apply slice_bound_of_Z. Qed.

(** X3.  With finite margins [clip_edges] returns a cube whose shape is
    fixed by the margins alone: along each spatial axis of length [n] it
    keeps [n - upper - 1 - lower] entries when [upper + 1 <= n], and
    [2n - upper - 1 - lower] entries when the upper margin reaches the
    extent, because the negative stop index then counts from the end; the
    count is 0 when that difference is negative.  The last axis is kept. *)
Theorem clip_edges_shape (d : datacube) (y x : list fl) (yu yl xu xl : nat) :
  _upper_clip y = Ret (fl_of_nat yu) → _lower_clip y = Ret (fl_of_nat yl) →
  _upper_clip x = Ret (fl_of_nat xu) → _lower_clip x = Ret (fl_of_nat xl) →
  ∃ d', clip_edges d y x = Ret d'
        ∧ cube_shape d' = (clipped_extent (length (cube d)) yu yl,
                           clipped_extent (cube_nx d) xu xl,
                           cube_nt d).
Proof.
  intros Hyu Hyl Hxu Hxl. unfold clip_edges.
  rewrite Hxu, Hxl, Hyu, Hyl. cbn [mbind res_bind].
  rewrite !slice_bound_of_nat, !clip_stop_bound. cbn [mbind res_bind].
  eexists. split; [reflexivity|].
  unfold cube_shape, slice3. cbn [cube cube_nx cube_nt].
  rewrite length_fmap, length_pyslice, !slice_len_clip.
  do 2 f_equal. change 0 with (Z.of_nat 0). rewrite slice_len_nat by done. lia.
Qed.

Lemma clip_edges_shape_witness :
  _upper_clip example_yshifts = Ret (fl_of_nat 2)
  ∧ _lower_clip example_yshifts = Ret (fl_of_nat 1)
  ∧ _upper_clip example_xshifts = Ret (fl_of_nat 0)
  ∧ _lower_clip example_xshifts = Ret (fl_of_nat 0)
  ∧ ∃ d', clip_edges example_datacube example_yshifts example_xshifts = Ret d'
          ∧ cube_shape d' = (clipped_extent 10 2 1, clipped_extent 10 0 0, 3%nat).
Proof.
  destruct example_margins as (Hyu & Hyl & Hxu & Hxl).
  do 4 (split; [assumption|]).
  exact (clip_edges_shape example_datacube example_yshifts example_xshifts
           2 1 0 0 Hyu Hyl Hxu Hxl).
Defined.

(** ** A centred peak *)

(** From canonical rationals to fractions, for [lra] and [nra]. *)
Ltac qc_to_q :=
  unfold Qcle, Qclt, Qcdiv, Qcminus, Qcinv, Qcplus, Qcmult, Qcopp, qc_of, Q2Qc in *;
  cbn [this] in *; rewrite ?Qred_correct in *.

Lemma closed_form_finite (a b c : Qc) :
  qc_zero (a + - (qc_of 2 1 * b) + c)%Qc = false →
  closed_form (Fin a) (Fin b) (Fin c)
  = Fin (qc_of (-1) 2 * (c + - a) / (a + - (qc_of 2 1 * b) + c))%Qc.
Proof. intros H. unfold closed_form. simpl. by rewrite H. Qed.

(** X5.  On a symmetric triple [[a, b, a]] of finite values with [a <> b] the
    turning point is exactly 0: the peak is centred. *)
Theorem parabolic_turning_point_symmetric (a b : Qc) :
  a ≠ b → parabolic_turning_point [Fin a; Fin b; Fin a] = Ret (Fin 0%Qc).
Proof.
  intros Hne. rewrite parabolic_turning_point_3 by done.
  rewrite closed_form_finite.
  - do 2 f_equal. unfold Qcdiv. ring.
  - unfold qc_zero. destruct (Qeq_bool _ _) eqn:E; [|done].
    apply Qeq_bool_iff in E. exfalso. apply Hne. apply Qc_is_canon.
    qc_to_q. lra.
Qed.

Lemma parabolic_turning_point_symmetric_witness :
  parabolic_turning_point [Fin 0%Qc; Fin 1%Qc; Fin 0%Qc] = Ret (Fin 0%Qc).
Proof. apply (parabolic_turning_point_symmetric 0%Qc 1%Qc). discriminate. Defined.

(** ** The first maximum *)

Lemma argmax_from_shift l :
  ∀ mp best i,
    argmax_from mp best i l
    = let k := argmax_from mp 0 1 l in
      if (k =? 0)%nat then best else (i + k - 1)%nat.
Proof.
  induction l as [|v l IH]; intros mp best i; simpl; [done|].
  destruct (isnan mp); [done|]. destruct (Fle v mp).
  - rewrite (IH mp best (S i)), (IH mp 0%nat 2%nat). simpl.
    destruct (argmax_from mp 0 1 l) as [|k]; simpl; [done | lia].
  - rewrite (IH v i (S i)), (IH v 1%nat 2%nat). simpl.
    destruct (argmax_from v 0 1 l) as [|k]; simpl; lia.
Qed.

Lemma Fle_not_nan x y : Fle x y = true → isnan x = false ∧ isnan y = false.
Proof. by destruct x, y. Qed.

Lemma argmax_from_first_max l :
  ∀ mp, first_max (mp :: l) (argmax_from mp 0 1 l).
Proof.
  induction l as [|v l IH]; intros mp.
  - exists mp. simpl. split; [done|]. split.
    + intros i w Hi. lia.
    + intros _ [|i] w Hi Hw; [lia | done].
  - simpl. destruct (isnan mp) eqn:Hmp.
    { exists mp. split; [done|]. split; [intros; lia | congruence]. }
    destruct (Fle v mp) eqn:Hv.
    + rewrite argmax_from_shift. simpl.
      destruct (IH mp) as (m & Hm & Hbefore & Hafter).
      destruct (argmax_from mp 0 1 l) as [|j]; simpl.
      * injection Hm as <-. exists mp. split; [done|]. split; [intros; lia|].
        intros _ [|[|i]] w Hi Hw; [lia | by injection Hw as <- |].
        apply (Hafter Hmp (S i)); [lia | done].
      * rewrite ?Nat.sub_0_r. exists m. split; [done|]. split.
        -- intros [|[|i]] w Hi Hw.
           ++ injection Hw as <-. apply (Hbefore 0%nat); [lia | done].
           ++ injection Hw as <-.
              destruct (Fle_not_nan _ _ Hv) as [Hnv _]. split; [done|].
              destruct (Fle m v) eqn:E; [|done].
              destruct (Hbefore 0%nat mp) as [_ Hc]; [lia | done |].
              by rewrite (Fle_trans _ _ _ E Hv) in Hc.
           ++ apply (Hbefore (S i)); [lia | done].
        -- intros Hnm [|[|i]] w Hi Hw; try lia.
           apply (Hafter Hnm (S i)); [lia | done].
    + rewrite argmax_from_shift. simpl.
      destruct (IH v) as (m & Hm & Hbefore & Hafter).
      match goal with
      | |- first_max _ ?k =>
          replace k with (S (argmax_from v 0 1 l))
            by (destruct (argmax_from v 0 1 l); simpl; lia)
      end.
      exists m. split; [done|]. split.
      * intros [|i] w Hi Hw.
        -- injection Hw as <-. split; [done|].
           destruct (argmax_from v 0 1 l) as [|j] eqn:Ej.
           ++ by injection Hm as <-.
           ++ destruct (Hbefore 0%nat v) as [Hnv Hmv]; [lia | done |].
              destruct (Fle m mp) eqn:E; [|done].
              destruct (Fle_not_nan _ _ E) as [Hnm _].
              pose proof (Fle_total m v Hnm Hnv Hmv) as Hvm.
              by rewrite (Fle_trans _ _ _ Hvm E) in Hv.
        -- apply (Hbefore i); [lia | done].
      * intros Hnm [|i] w Hi Hw; [lia|].
        apply (Hafter Hnm i); [lia | done].
Qed.

Lemma first_max_unique l k k' : first_max l k → first_max l k' → k = k'.
Proof.
  intros (m & Hm & Hb & Ha) (m' & Hm' & Hb' & Ha').
  destruct (Nat.lt_trichotomy k k') as [Hlt|[->|Hlt]]; [|done|].
  - destruct (Hb' k m Hlt Hm) as [Hn Hf].
    by rewrite (Ha Hn k' m' Hlt Hm') in Hf.
  - destruct (Hb k' m' Hlt Hm') as [Hn Hf].
    by rewrite (Ha' Hn k m Hlt Hm) in Hf.
Qed.

Lemma argmax_first_max l k : argmax l = Ret k ↔ first_max l k.
Proof.
  destruct l as [|v l]; simpl.
  - split; [done|]. by intros (m & Hm & _).
  - split.
    + intros [= <-]. apply argmax_from_first_max.
    + intros H. f_equal.
      eapply first_max_unique; [apply argmax_from_first_max | exact H].
Qed.

(** ** The peak of a surface *)

Lemma concat_lookup (rs : list (list fl)) n i j :
  Forall (fun r => length r = n) rs → (j < n)%nat →
  concat rs !! (i * n + j)%nat = rs !! i ≫= (fun r => r !! j).
Proof.
  intros H Hj. revert i. induction H as [|r rs Hr _ IH]; intros i; simpl.
  - by destruct i.
  - destruct i as [|i]; simpl.
    + rewrite lookup_app_l by lia. done.
    + rewrite lookup_app_r by lia. rewrite <- IH. f_equal. lia.
Qed.

Lemma flat_cell a i j :
  wf a → (j < ncols a)%nat → flat a !! (i * ncols a + j)%nat = cell a i j.
Proof. intros Hwf Hj. by apply concat_lookup. Qed.

Lemma flat_index a k :
  wf a → (0 < ncols a)%nat →
  flat a !! k = cell a (k / ncols a) (k `mod` ncols a).
Proof.
  intros Hwf Hn. rewrite <- flat_cell; [|done|by apply Nat.mod_upper_bound; lia].
  f_equal. rewrite (Nat.div_mod_eq k (ncols a)) at 1. lia.
Qed.

Lemma before_flat n i j r c :
  (j < n)%nat → (c < n)%nat →
  before (i, j) (r, c) ↔ (i * n + j < r * n + c)%nat.
Proof. unfold before. simpl. intros Hj Hc. split; [nia|]. intros H. nia. Qed.

Lemma unravel_flat n r c :
  (c < n)%nat → unravel_index (r * n + c) n = (r, c).
Proof.
  intros Hc. unfold unravel_index. f_equal.
  - rewrite Nat.div_add_l by lia. rewrite Nat.div_small by done. lia.
  - rewrite Nat.add_comm, Nat.Div0.mod_add. by apply Nat.mod_small.
Qed.

Lemma peak_is_peak corr r c :
  wf corr → peak corr = Ret (r, c) ↔ is_peak corr r c.
Proof.
  intros Hwf. unfold peak. split.
  - destruct (argmax (flat corr)) as [k|e] eqn:E; simpl; [|done].
    intros [= <- <-]. pose proof E as Hlt. apply argmax_lt in Hlt.
    rewrite length_flat in Hlt by done.
    assert (0 < ncols corr)%nat as Hn by (destruct (ncols corr); lia).
    apply argmax_first_max in E as (m & Hm & Hb & Ha).
    rewrite flat_index in Hm by done.
    pose proof (Nat.mod_upper_bound k (ncols corr)) as Hc.
    pose proof (Nat.div_mod_eq k (ncols corr)) as Hk.
    exists m. split; [done|]. split.
    + intros i j v Hv Hlex.
      destruct (cell_lt corr i j v Hwf Hv) as [_ Hj].
      apply (Hb (i * ncols corr + j)%nat).
      * apply (before_flat (ncols corr)) in Hlex; [lia | done | lia].
      * by rewrite flat_cell.
    + intros Hnm i j w Hw Hlex.
      destruct (cell_lt corr i j w Hwf Hw) as [_ Hj].
      apply (Ha Hnm (i * ncols corr + j)%nat).
      * apply (before_flat (ncols corr)) in Hlex; [lia | lia | done].
      * by rewrite flat_cell.
  - intros (m & Hm & Hb & Ha).
    destruct (cell_lt corr r c m Hwf Hm) as [_ Hc].
    assert (argmax (flat corr) = Ret (r * ncols corr + c)%nat) as ->.
    { apply argmax_first_max. exists m. split; [by rewrite flat_cell|]. split.
      - intros i v Hi Hv. rewrite flat_index in Hv by first [done | lia].
        apply (Hb _ _ _ Hv).
        apply (before_flat (ncols corr)); [apply Nat.mod_upper_bound; lia | done |].
        pose proof (Nat.div_mod_eq i (ncols corr)). lia.
      - intros Hnm i w Hi Hw. rewrite flat_index in Hw by first [done | lia].
        apply (Ha Hnm _ _ _ Hw).
        apply (before_flat (ncols corr)); [done | apply Nat.mod_upper_bound; lia |].
        pose proof (Nat.div_mod_eq i (ncols corr)). lia. }
    simpl. by rewrite unravel_flat.
Qed.

(** X7.  The integer peak that [find_best_match_location] starts from is the
    first maximum of the surface in row-major order: no entry before it is
    a NaN or reaches it, and no entry after it exceeds it; a NaN itself
    counts as the maximum. *)
Theorem peak_first_maximum (corr : ndarray) (r c : nat) :
  wf corr → (peak corr = Ret (r, c) ↔ is_peak corr r c).
Proof. apply peak_is_peak. Qed.

Lemma peak_first_maximum_witness :
  wf surface_4x4 ∧ (peak surface_4x4 = Ret (1%nat, 1%nat) ↔ is_peak surface_4x4 1 1).
Proof.
  split; [exact surface_4x4_wf|].
  exact (peak_first_maximum surface_4x4 1 1 surface_4x4_wf).
Defined.

(** ** Outcomes of the refinement *)

Lemma peak_in_neighbourhood corr r c :
  wf corr → peak corr = Ret (r, c) →
  (r + 2 ≤ nrows corr)%nat → (c + 2 ≤ ncols corr)%nat →
  peak (array_around_maximum corr r c)
  = Ret ((r - Nat.pred r)%nat, (c - Nat.pred c)%nat).
Proof.
  intros Hwf Hpeak Hr Hc.
  assert (wf (array_around_maximum corr r c)) as Hwfn by (by apply slice2_wf).
  destruct (array_around_maximum_shape corr r c) as [En Em]; [lia | lia |].
  unfold nbhd_stop in En, Em.
  apply peak_is_peak in Hpeak as (m & Hm & Hb & Ha); [|done].
  apply peak_is_peak; [done|]. exists m. split; [|split].
  - rewrite array_around_maximum_cell by (done || lia).
    rewrite <- Hm. f_equal; lia.
  - intros i j v Hv Hlex.
    destruct (cell_lt _ i j v Hwfn Hv) as [Hi Hj].
    rewrite array_around_maximum_cell in Hv by (done || lia).
    apply (Hb _ _ _ Hv). unfold before in *. simpl in *. lia.
  - intros Hnm i j w Hw Hlex.
    destruct (cell_lt _ i j w Hwfn Hw) as [Hi Hj].
    rewrite array_around_maximum_cell in Hw by (done || lia).
    apply (Ha Hnm _ _ _ Hw). unfold before in *. simpl in *. lia.
Qed.

Lemma mapM_lookup (rs : list (list fl)) n j :
  Forall (fun r => length r = n) rs → (j < n)%nat →
  ∃ col, mapM (fun r : list fl => r !! j) rs = Some col
         ∧ length col = length rs
         ∧ ∀ i, col !! i = rs !! i ≫= (fun r => r !! j).
Proof.
  intros H Hj. induction H as [|r rs Hr _ (col & E & Hlen & Hcol)].
  - exists []. by repeat split.
  - destruct (lookup_lt_is_Some_2 r j) as [v Hv]; [lia|].
    exists (v :: col). simpl. rewrite Hv. simpl. rewrite E. simpl.
    split; [done|]. split; [by rewrite Hlen|].
    intros [|i]; simpl; [by rewrite Hv | apply Hcol].
Qed.

Lemma column_cells a j :
  wf a → (j < ncols a)%nat →
  ∃ col, column a j = Ret col ∧ length col = nrows a
         ∧ ∀ i, col !! i = cell a i j.
Proof.
  intros Hwf Hj. destruct (mapM_lookup (rows a) (ncols a) j Hwf Hj)
    as (col & E & Hlen & Hcol).
  exists col. unfold column. by rewrite E.
Qed.

Lemma row_cells a i :
  wf a → (i < nrows a)%nat →
  ∃ r, row a i = Ret r ∧ length r = ncols a ∧ ∀ j, r !! j = cell a i j.
Proof.
  intros Hwf Hi. destruct (lookup_lt_is_Some_2 (rows a) i Hi) as [r Hr].
  exists r. unfold row, cell. rewrite Hr. split; [done|]. split; [|done].
  unfold wf in Hwf. rewrite Forall_lookup in Hwf. by apply (Hwf i).
Qed.

Lemma list_of_3 (l : list fl) :
  length l = 3%nat →
  ∃ a b c, l = [a; b; c] ∧ l !! 0%nat = Some a ∧ l !! 1%nat = Some b
           ∧ l !! 2%nat = Some c.
Proof.
  destruct l as [|a [|b [|c [|]]]]; try done. intros _. by exists a, b, c.
Qed.

Lemma parabolic_turning_point_total a b c :
  ∃ t, parabolic_turning_point [a; b; c] = Ret t.
Proof. unfold parabolic_turning_point. rewrite !dot3. simpl. eauto. Qed.

Lemma flat_nil_iff a : wf a → (flat a = [] ↔ (nrows a * ncols a = 0)%nat).
Proof.
  intros Hwf. rewrite <- length_flat by done. split.
  - by intros ->.
  - apply length_zero_iff_nil.
Qed.

(** A non-empty array of at most 3x3 entries is refined to a pair of
    numbers, silently. *)
Lemma get_correlation_shifts_total nb :
  wf nb → (1 ≤ nrows nb ≤ 3)%nat → (1 ≤ ncols nb ≤ 3)%nat →
  ∃ dy dx, get_correlation_shifts nb = ([], Ret (Some dy, Some dx)).
Proof.
  intros Hwf Hr Hc.
  destruct (peak_nonempty nb) as (ly & lx & Hpeak).
  { rewrite flat_nil_iff by done. nia. }
  destruct (peak_bounds nb ly lx Hwf Hpeak) as [Hly Hlx].
  assert (∃ dy dx, refined nb ly lx dy dx) as (dy & dx & Href).
  { unfold refined.
    assert (∃ dy, if (nrows nb =? 3)%nat
                  then column nb lx ≫= (fun c => parabolic_turning_point c) = Ret dy
                  else dy = fl_of_nat ly) as [dy Hdy].
    { destruct (Nat.eqb_spec (nrows nb) 3) as [E|_]; [|eauto].
      destruct (column_cells nb lx Hwf Hlx) as (col & -> & Hlen & _).
      rewrite E in Hlen. destruct (list_of_3 col Hlen) as (a & b & c & -> & _).
      apply parabolic_turning_point_total. }
    assert (∃ dx, if (ncols nb =? 3)%nat
                  then row nb ly ≫= (fun r => parabolic_turning_point r) = Ret dx
                  else dx = fl_of_nat lx) as [dx Hdx].
    { destruct (Nat.eqb_spec (ncols nb) 3) as [E|_]; [|eauto].
      destruct (row_cells nb ly Hwf Hly) as (r & -> & Hlen & _).
      rewrite E in Hlen. destruct (list_of_3 r Hlen) as (a & b & c & -> & _).
      apply parabolic_turning_point_total. }
    by exists dy, dx. }
  exists dy, dx. apply get_correlation_shifts_inv.
  split; [done|]. split; [lia|]. split; [lia|]. by exists ly, lx.
Qed.

(** An empty array of at most 3x3 entries has no maximum. *)
Lemma get_correlation_shifts_empty nb :
  flat nb = [] → (nrows nb ≤ 3)%nat → (ncols nb ≤ 3)%nat →
  get_correlation_shifts nb = ([], Raise ValueError).
Proof.
  intros Hnil Hr Hc. unfold get_correlation_shifts.
  assert ((3 <? ncols nb)%nat || (3 <? nrows nb)%nat = false) as ->.
  { apply orb_false_iff. rewrite !Nat.ltb_ge. lia. }
  by rewrite Hnil.
Qed.

(** X8.  What [get_correlation_shifts] answers is fixed by the shape of its
    argument: the refusal [(None, None)] with its message when a dimension
    exceeds 3 (and only then is anything printed), a [ValueError] when the
    array is empty, and a pair of numbers in every other case. *)
Theorem get_correlation_shifts_outcomes (nb : ndarray) :
  wf nb →
  ((3 < nrows nb ∨ 3 < ncols nb)%nat →
     get_correlation_shifts nb = ([too_big_message], Ret (None, None)))
  ∧ ((nrows nb ≤ 3)%nat → (ncols nb ≤ 3)%nat → (nrows nb * ncols nb = 0)%nat →
     get_correlation_shifts nb = ([], Raise ValueError))
  ∧ ((1 ≤ nrows nb ≤ 3)%nat → (1 ≤ ncols nb ≤ 3)%nat →
     ∃ dy dx, get_correlation_shifts nb = ([], Ret (Some dy, Some dx))).
Proof.
  intros Hwf. split; [|split].
  - intros H. unfold get_correlation_shifts.
    assert ((3 <? ncols nb)%nat || (3 <? nrows nb)%nat = true) as ->.
    { apply orb_true_iff. rewrite !Nat.ltb_lt. lia. }
    reflexivity.
  - intros Hr Hc H0. apply get_correlation_shifts_empty; [|done..].
    by apply flat_nil_iff.
  - by apply get_correlation_shifts_total.
Qed.

Lemma get_correlation_shifts_outcomes_witness :
  wf surface_2x2
  ∧ ∃ dy dx, get_correlation_shifts surface_2x2 = ([], Ret (Some dy, Some dx)).
Proof.
  split; [exact surface_2x2_wf|].
  apply (get_correlation_shifts_outcomes surface_2x2 surface_2x2_wf);
    vm_compute; lia.
Defined.

(** X9.  On a well-formed surface [find_best_match_location] never prints
    and never fails on the refusal pair: it returns a pair of numbers when
    the surface has at least 2 rows and 2 columns, and raises [ValueError]
    when it has fewer, because the neighbourhood of the peak, which stops
    before the last row and column, is then empty. *)
Theorem find_best_match_location_outcomes (corr : ndarray) :
  wf corr →
  ((2 ≤ nrows corr)%nat → (2 ≤ ncols corr)%nat →
     ∃ y x, find_best_match_location corr = ([], Ret (y, x)))
  ∧ ((nrows corr < 2 ∨ ncols corr < 2)%nat →
     find_best_match_location corr = ([], Raise ValueError)).
Proof.
  intros Hwf. split.
  - intros Hr Hc.
    destruct (peak_nonempty corr) as (r & c & Hpeak).
    { rewrite flat_nil_iff by done. nia. }
    destruct (peak_bounds corr r c Hwf Hpeak) as [Hlr Hlc].
    destruct (array_around_maximum_shape corr r c Hlr Hlc) as [En Em].
    unfold nbhd_stop in En, Em.
    destruct (get_correlation_shifts_total (array_around_maximum corr r c))
      as (dy & dx & Hshift); [by apply slice2_wf | lia | lia |].
    exists (Fadd dy (fl_of_nat r)), (Fadd dx (fl_of_nat c)).
    apply find_best_match_location_inv. exists r, c, dy, dx. by repeat split.
  - intros Hsmall. unfold find_best_match_location.
    destruct (peak corr) as [[r c]|e] eqn:Hpeak.
    + destruct (peak_bounds corr r c Hwf Hpeak) as [Hlr Hlc].
      destruct (array_around_maximum_shape corr r c Hlr Hlc) as [En Em].
      unfold nbhd_stop in En, Em.
      cbn [mbind py_bind py_lift]. rewrite get_correlation_shifts_empty; [done| |lia..].
      apply flat_nil_iff; [by apply slice2_wf|]. nia.
    + unfold peak in Hpeak.
      destruct (flat corr) as [|v l]; simpl in Hpeak; [|done].
      by injection Hpeak as <-.
Qed.

Lemma find_best_match_location_outcomes_witness :
  wf surface_4x4
  ∧ ∃ y x, find_best_match_location surface_4x4 = ([], Ret (y, x)).
Proof.
  split; [exact surface_4x4_wf|].
  apply (find_best_match_location_outcomes surface_4x4 surface_4x4_wf);
    vm_compute; lia.
Defined.

(** ** The shift around a peak inside its neighbourhood *)

Lemma fl_of_nat_add a b : Fadd (fl_of_nat a) (fl_of_nat b) = fl_of_nat (a + b).
Proof.
  unfold fl_of_nat, fl_of_Z. simpl. f_equal. apply Qc_is_canon. simpl.
  rewrite !Qred_correct, Nat2Z.inj_add, inject_Z_plus. reflexivity.
Qed.

(** When the peak is not in the last row or column it is the maximum of its
    own neighbourhood, and the shift is the refinement around it. *)
Lemma find_best_match_location_refined corr r c :
  wf corr → peak corr = Ret (r, c) →
  (r + 2 ≤ nrows corr)%nat → (c + 2 ≤ ncols corr)%nat →
  ∃ dy dx,
    find_best_match_location corr
    = ([], Ret (Fadd dy (fl_of_nat r), Fadd dx (fl_of_nat c)))
    ∧ refined (array_around_maximum corr r c)
        (r - Nat.pred r) (c - Nat.pred c) dy dx.
Proof.
  intros Hwf Hpeak Hr Hc.
  destruct (array_around_maximum_shape corr r c) as [En Em]; [lia | lia |].
  unfold nbhd_stop in En, Em.
  destruct (get_correlation_shifts_total (array_around_maximum corr r c))
    as (dy & dx & Hshift); [by apply slice2_wf | lia | lia |].
  exists dy, dx. split.
  - apply find_best_match_location_inv. exists r, c, dy, dx. by repeat split.
  - apply get_correlation_shifts_inv in Hshift
      as (_ & _ & _ & ly & lx & Hlocal & Href).
    rewrite peak_in_neighbourhood in Hlocal by done.
    by injection Hlocal as <- <-.
Qed.

Lemma refined_rows_fit corr r c dy dx :
  wf corr → (1 ≤ r)%nat → (r + 3 ≤ nrows corr)%nat →
  (c + 2 ≤ ncols corr)%nat →
  refined (array_around_maximum corr r c) (r - Nat.pred r) (c - Nat.pred c) dy dx →
  ∃ up mid down,
    cell corr (r - 1) c = Some up ∧ cell corr r c = Some mid
    ∧ cell corr (r + 1) c = Some down
    ∧ parabolic_turning_point [up; mid; down] = Ret dy.
Proof.
  intros Hwf H1 Hr Hc [Hrow _].
  set (nb := array_around_maximum corr r c) in *.
  assert (wf nb) as Hwfn by (by apply slice2_wf).
  destruct (array_around_maximum_shape corr r c) as [En Em]; [lia | lia |].
  fold nb in En, Em. unfold nbhd_stop in En, Em.
  assert (nrows nb = 3%nat) as E3 by lia. rewrite E3 in Hrow. simpl in Hrow.
  destruct (column_cells nb (c - Nat.pred c)) as (col & Ecol & Hlen & Hcol);
    [done | lia |].
  rewrite Ecol in Hrow. simpl in Hrow. rewrite E3 in Hlen.
  destruct (list_of_3 col Hlen) as (up & mid & down & -> & H0 & H1' & H2).
  rewrite Hcol in H0, H1', H2.
  subst nb.
  rewrite array_around_maximum_cell in H0, H1', H2 by (done || lia).
  exists up, mid, down. split; [|split; [|split]]; [| | |done].
  - rewrite <- H0. f_equal; lia.
  - rewrite <- H1'. f_equal; lia.
  - rewrite <- H2. f_equal; lia.
Qed.

Lemma refined_cols_fit corr r c dy dx :
  wf corr → (1 ≤ c)%nat → (c + 3 ≤ ncols corr)%nat →
  (r + 2 ≤ nrows corr)%nat →
  refined (array_around_maximum corr r c) (r - Nat.pred r) (c - Nat.pred c) dy dx →
  ∃ left mid right,
    cell corr r (c - 1) = Some left ∧ cell corr r c = Some mid
    ∧ cell corr r (c + 1) = Some right
    ∧ parabolic_turning_point [left; mid; right] = Ret dx.
Proof.
  intros Hwf H1 Hc Hr [_ Hcol].
  set (nb := array_around_maximum corr r c) in *.
  assert (wf nb) as Hwfn by (by apply slice2_wf).
  destruct (array_around_maximum_shape corr r c) as [En Em]; [lia | lia |].
  fold nb in En, Em. unfold nbhd_stop in En, Em.
  assert (ncols nb = 3%nat) as E3 by lia. rewrite E3 in Hcol. simpl in Hcol.
  destruct (row_cells nb (r - Nat.pred r)) as (rw & Erow & Hlen & Hrow);
    [done | lia |].
  rewrite Erow in Hcol. simpl in Hcol. rewrite E3 in Hlen.
  destruct (list_of_3 rw Hlen) as (left & mid & right & -> & H0 & H1' & H2).
  rewrite Hrow in H0, H1', H2.
  subst nb.
  rewrite array_around_maximum_cell in H0, H1', H2 by (done || lia).
  exists left, mid, right. split; [|split; [|split]]; [| | |done].
  - rewrite <- H0. f_equal; lia.
  - rewrite <- H1'. f_equal; lia.
  - rewrite <- H2. f_equal; lia.
Qed.

(** X10.  When the peak [(r, c)] has a full 3x3 neighbourhood, that is
    [1 <= r <= height - 3] and [1 <= c <= width - 3], the returned shift is
    [r] plus the turning point of the parabola through the entries above,
    at and below the peak, and [c] plus the turning point through the
    entries left of, at and right of the peak. *)
Theorem find_best_match_location_interior (corr : ndarray) (r c : nat) :
  wf corr → peak corr = Ret (r, c) →
  (1 ≤ r)%nat → (r + 3 ≤ nrows corr)%nat →
  (1 ≤ c)%nat → (c + 3 ≤ ncols corr)%nat →
  ∃ up down left right mid ty tx,
    cell corr (r - 1) c = Some up ∧ cell corr (r + 1) c = Some down
    ∧ cell corr r (c - 1) = Some left ∧ cell corr r (c + 1) = Some right
    ∧ cell corr r c = Some mid
    ∧ parabolic_turning_point [up; mid; down] = Ret ty
    ∧ parabolic_turning_point [left; mid; right] = Ret tx
    ∧ find_best_match_location corr
      = ([], Ret (Fadd ty (fl_of_nat r), Fadd tx (fl_of_nat c))).
Proof.
  intros Hwf Hpeak Hr1 Hr Hc1 Hc.
  destruct (find_best_match_location_refined corr r c Hwf Hpeak)
    as (dy & dx & Hfind & Href); [lia | lia |].
  destruct (refined_rows_fit corr r c dy dx Hwf Hr1 Hr) as
    (up & mid & down & Hup & Hmid & Hdown & Hty); [lia | done |].
  destruct (refined_cols_fit corr r c dy dx Hwf Hc1 Hc) as
    (left & mid' & right & Hleft & Hmid' & Hright & Htx); [lia | done |].
  assert (mid' = mid) as -> by congruence.
  exists up, down, left, right, mid, dy, dx. by repeat split.
Qed.

Lemma find_best_match_location_interior_witness :
  wf surface_4x4 ∧ peak surface_4x4 = Ret (1%nat, 1%nat)
  ∧ ∃ up down left right mid ty tx,
      cell surface_4x4 (1 - 1) 1 = Some up
      ∧ cell surface_4x4 (1 + 1) 1 = Some down
      ∧ cell surface_4x4 1 (1 - 1) = Some left
      ∧ cell surface_4x4 1 (1 + 1) = Some right
      ∧ cell surface_4x4 1 1 = Some mid
      ∧ parabolic_turning_point [up; mid; down] = Ret ty
      ∧ parabolic_turning_point [left; mid; right] = Ret tx
      ∧ find_best_match_location surface_4x4
        = ([], Ret (Fadd ty (fl_of_nat 1), Fadd tx (fl_of_nat 1))).
Proof.
  assert (peak surface_4x4 = Ret (1%nat, 1%nat)) as Hpeak by (vm_compute; reflexivity).
  split; [exact surface_4x4_wf|]. split; [exact Hpeak|].
  apply (find_best_match_location_interior surface_4x4 1 1 surface_4x4_wf Hpeak);
    vm_compute; lia.
Defined.

(** X12.  When the peak lies in the second to last row, with a row above
    it, the neighbourhood has two rows and no parabola is fitted: the
    returned y is the local row index 1 plus the peak row, that is [r + 1],
    one more than the row of the peak.  Likewise for the second to last
    column.  (The peak is taken outside the last column, respectively the
    last row, so that it belongs to its neighbourhood.) *)
Theorem find_best_match_location_second_to_last (corr : ndarray) (r c : nat) :
  wf corr → peak corr = Ret (r, c) →
  (r + 2 ≤ nrows corr)%nat → (c + 2 ≤ ncols corr)%nat →
  ((1 ≤ r)%nat → (r + 2 = nrows corr)%nat →
     ∃ x, find_best_match_location corr = ([], Ret (fl_of_nat (r + 1), x)))
  ∧ ((1 ≤ c)%nat → (c + 2 = ncols corr)%nat →
     ∃ y, find_best_match_location corr = ([], Ret (y, fl_of_nat (c + 1)))).
Proof.
  intros Hwf Hpeak Hr Hc.
  destruct (find_best_match_location_refined corr r c Hwf Hpeak Hr Hc)
    as (dy & dx & Hfind & Hrow & Hcol).
  destruct (array_around_maximum_shape corr r c) as [En Em]; [lia | lia |].
  unfold nbhd_stop in En, Em.
  split.
  - intros H1 Hlast.
    assert (nrows (array_around_maximum corr r c) = 2%nat) as E2 by lia.
    rewrite E2 in Hrow. simpl in Hrow. subst dy.
    replace (r - Nat.pred r)%nat with 1%nat in Hfind by lia.
    rewrite fl_of_nat_add, (Nat.add_comm 1 r) in Hfind. eauto.
  - intros H1 Hlast.
    assert (ncols (array_around_maximum corr r c) = 2%nat) as E2 by lia.
    rewrite E2 in Hcol. simpl in Hcol. subst dx.
    replace (c - Nat.pred c)%nat with 1%nat in Hfind by lia.
    rewrite fl_of_nat_add, (Nat.add_comm 1 c) in Hfind. eauto.
Qed.

Lemma find_best_match_location_second_to_last_witness :
  wf surface_3x3 ∧ peak surface_3x3 = Ret (1%nat, 1%nat)
  ∧ (∃ x, find_best_match_location surface_3x3 = ([], Ret (fl_of_nat (1 + 1), x)))
  ∧ (∃ y, find_best_match_location surface_3x3 = ([], Ret (y, fl_of_nat (1 + 1)))).
Proof.
  assert (wf surface_3x3) as Hwf by repeat constructor.
  assert (peak surface_3x3 = Ret (1%nat, 1%nat)) as Hpeak by (vm_compute; reflexivity).
  split; [exact Hwf|]. split; [exact Hpeak|].
  destruct (find_best_match_location_second_to_last surface_3x3 1 1 Hwf Hpeak)
    as [Hrow Hcol]; [vm_compute; lia | vm_compute; lia |].
  split; [apply Hrow | apply Hcol]; vm_compute; lia.
Defined.

(** ** A peak in the last row or column *)

(** X18.  When the peak lies in the last row of a surface with at least 2
    rows and 2 columns, the neighbourhood is a single row: no parabola is
    fitted along y and the returned y is the peak row itself.  Likewise the
    returned x is the peak column when the peak lies in the last column. *)
Theorem find_best_match_location_last (corr : ndarray) (r c : nat) :
  wf corr → peak corr = Ret (r, c) →
  (2 ≤ nrows corr)%nat → (2 ≤ ncols corr)%nat →
  ((r + 1 = nrows corr)%nat →
     ∃ x, find_best_match_location corr = ([], Ret (fl_of_nat r, x)))
  ∧ ((c + 1 = ncols corr)%nat →
     ∃ y, find_best_match_location corr = ([], Ret (y, fl_of_nat c))).
Proof.
  intros Hwf Hpeak Hr Hc.
  destruct (peak_bounds corr r c Hwf Hpeak) as [Hlr Hlc].
  destruct (array_around_maximum_shape corr r c Hlr Hlc) as [En Em].
  unfold nbhd_stop in En, Em.
  assert (wf (array_around_maximum corr r c)) as Hwfn by (by apply slice2_wf).
  destruct (get_correlation_shifts_total (array_around_maximum corr r c))
    as (dy & dx & Hshift); [done | lia | lia |].
  assert (find_best_match_location corr
          = ([], Ret (Fadd dy (fl_of_nat r), Fadd dx (fl_of_nat c)))) as Hfind.
  { apply find_best_match_location_inv. exists r, c, dy, dx. by repeat split. }
  apply get_correlation_shifts_inv in Hshift
    as (_ & _ & _ & ly & lx & Hlocal & Hrow & Hcol).
  destruct (peak_bounds _ ly lx Hwfn Hlocal) as [Hly Hlx].
  split.
  - intros Hlast.
    assert (nrows (array_around_maximum corr r c) = 1%nat) as E1 by lia.
    rewrite E1 in Hrow, Hly. simpl in Hrow. subst dy.
    assert (ly = 0)%nat as -> by lia.
    rewrite fl_of_nat_add in Hfind. simpl in Hfind. eauto.
  - intros Hlast.
    assert (ncols (array_around_maximum corr r c) = 1%nat) as E1 by lia.
    rewrite E1 in Hcol, Hlx. simpl in Hcol. subst dx.
    assert (lx = 0)%nat as -> by lia.
    rewrite fl_of_nat_add in Hfind. simpl in Hfind. eauto.
Qed.

Lemma find_best_match_location_last_witness :
  wf surface_2x2 ∧ peak surface_2x2 = Ret (1%nat, 1%nat)
  ∧ (∃ x, find_best_match_location surface_2x2 = ([], Ret (fl_of_nat 1, x)))
  ∧ (∃ y, find_best_match_location surface_2x2 = ([], Ret (y, fl_of_nat 1))).
Proof.
  assert (peak surface_2x2 = Ret (1%nat, 1%nat)) as Hpeak by (vm_compute; reflexivity).
  split; [exact surface_2x2_wf|]. split; [exact Hpeak|].
  destruct (find_best_match_location_last surface_2x2 1 1 surface_2x2_wf Hpeak)
    as [Hrow Hcol]; [vm_compute; lia | vm_compute; lia |].
  split; [apply Hrow | apply Hcol]; vm_compute; lia.
Defined.


(** ** Views of the layer *)

Lemma paste_pyslice {A} start stop (l : list A) :
  paste start stop (pyslice start stop l) l = l.
Proof.
  unfold paste, pyslice. rewrite <- (drop_drop l), take_drop, take_drop. done.
Qed.

(** Writing a view back unchanged leaves the array as it is. *)
Lemma paste2_slice2 a r0 r1 c0 c1 :
  paste2 a r0 r1 c0 c1 (slice2 a r0 r1 c0 c1) = a.
Proof.
  destruct a as [rs n]. unfold paste2, slice2. cbn [rows ncols]. f_equal.
  assert (∀ R : list (list fl),
            zip_with (paste c0 c1) (pyslice c0 c1 <$> R) R = R) as ->.
  { induction R as [|r R IH]; [done|].
    rewrite fmap_cons. cbn [zip_with]. by rewrite paste_pyslice, IH. }
  apply paste_pyslice.
Qed.

Lemma all_finite_slice2 a r0 r1 c0 c1 :
  all_finite a → all_finite (slice2 a r0 r1 c0 c1).
Proof.
  unfold all_finite, slice2. cbn [rows]. intros H.
  apply Forall_fmap, Forall_pyslice.
  eapply Forall_impl; [exact H|]. intros r Hr. by apply Forall_pyslice.
Qed.

Lemma repair_nonfinite_finite nanmean fuel z :
  all_finite z → repair_nonfinite nanmean fuel z = Some z.
Proof.
  intros H.
  assert (bad_index z = []) as E by (by apply where_rows_finite).
  destruct fuel; simpl; by rewrite E.
Qed.

Lemma repair_nonfinite_all_finite nanmean fuel z z' :
  repair_nonfinite nanmean fuel z = Some z' → all_finite z'.
Proof.
  intros H. apply bad_index_nil.
  by destruct (repair_nonfinite_run nanmean fuel z z' H).
Qed.

(** The second repair of [calculate_shift], when the layer has been
    repaired: a template that is a view of the layer is finite by then, it
    is the view of the repaired layer, and nothing is written. *)
Lemma template_repaired nanmean fuel this_layer template repaired :
  all_finite this_layer →
  repair_nonfinite nanmean fuel (template_value this_layer template)
  = Some repaired →
  write_back this_layer template repaired = this_layer
  ∧ ∀ r0 r1 c0 c1, template = ViewOfLayer r0 r1 c0 c1 →
                   repaired = slice2 this_layer r0 r1 c0 c1.
Proof.
  intros Hfin H. destruct template as [t|r0 r1 c0 c1].
  - split; [done|]. intros; discriminate.
  - cbn [template_value write_back] in *.
    rewrite repair_nonfinite_finite in H by (by apply all_finite_slice2).
    injection H as <-. split; [apply paste2_slice2|].
    by intros ? ? ? ? [= <- <- <- <-].
Qed.

(** ** The shift returned by [calculate_shift] *)

Lemma get_correlation_shifts_refined corr r c :
  wf corr → peak corr = Ret (r, c) →
  (r + 2 ≤ nrows corr)%nat → (c + 2 ≤ ncols corr)%nat →
  ∃ dy dx,
    get_correlation_shifts (array_around_maximum corr r c)
    = ([], Ret (Some dy, Some dx))
    ∧ refined (array_around_maximum corr r c)
        (r - Nat.pred r) (c - Nat.pred c) dy dx.
Proof.
  intros Hwf Hpeak Hr Hc.
  destruct (array_around_maximum_shape corr r c) as [En Em]; [lia | lia |].
  unfold nbhd_stop in En, Em.
  destruct (get_correlation_shifts_total (array_around_maximum corr r c))
    as (dy & dx & Hshift); [by apply slice2_wf | lia | lia |].
  exists dy, dx. split; [done|].
  apply get_correlation_shifts_inv in Hshift
    as (_ & _ & _ & ly & lx & Hlocal & Href).
  rewrite peak_in_neighbourhood in Hlocal by done.
  by injection Hlocal as <- <-.
Qed.

(** C1, as amended.  When both repairs end and the peak [(row, col)] of the
    correlation surface has a full 3x3 neighbourhood, the shift returned by
    [calculate_shift] is in the coordinates of the surface: the local
    sub-pixel offsets [(dy, dx)] of the refinement step, which are the
    turning points of the parabolas through the peak along each axis, plus
    the integer peak location.  The location of the neighbourhood's own
    maximum, which is (1, 1), is not added.  The template is repaired in place after the
    layer: a template that is a view of the layer is the view of the
    repaired layer, and its repair leaves the layer as it is. *)
Theorem calculate_shift_spec
    (nanmean : list fl → fl)
    (match_template : ndarray → ndarray → res ndarray)
    (fuel : nat) (this_layer : ndarray) (template : template_arg)
    (layer' template' corr : ndarray) (row col : nat) :
  repair_nonfinite nanmean fuel this_layer = Some layer' →
  repair_nonfinite nanmean fuel (template_value layer' template)
  = Some template' →
  match_template layer' template' = Ret corr →
  wf corr → peak corr = Ret (row, col) →
  (1 ≤ row)%nat → (row + 3 ≤ nrows corr)%nat →
  (1 ≤ col)%nat → (col + 3 ≤ ncols corr)%nat →
  ∃ up down left right mid dy dx,
    cell corr (row - 1) col = Some up ∧ cell corr (row + 1) col = Some down
    ∧ cell corr row (col - 1) = Some left ∧ cell corr row (col + 1) = Some right
    ∧ cell corr row col = Some mid
    ∧ parabolic_turning_point [up; mid; down] = Ret dy
    ∧ parabolic_turning_point [left; mid; right] = Ret dx
    ∧ get_correlation_shifts (array_around_maximum corr row col)
      = ([], Ret (Some dy, Some dx))
    ∧ peak (array_around_maximum corr row col) = Ret (1%nat, 1%nat)
    ∧ calculate_shift nanmean match_template fuel this_layer template
      = Some ([], Ret (Fadd dy (fl_of_nat row), Fadd dx (fl_of_nat col)))
    ∧ write_back layer' template template' = layer'
    ∧ (∀ r0 r1 c0 c1, template = ViewOfLayer r0 r1 c0 c1 →
                      template' = slice2 layer' r0 r1 c0 c1).
Proof.
  intros Hlayer Htemplate Hcorr Hwf Hpeak Hr1 Hr Hc1 Hc.
  destruct (template_repaired nanmean fuel layer' template template')
    as [Hback Hview]; [by eapply repair_nonfinite_all_finite | done |].
  destruct (get_correlation_shifts_refined corr row col Hwf Hpeak)
    as (dy & dx & Hshift & Href); [lia | lia |].
  destruct (refined_rows_fit corr row col dy dx Hwf Hr1 Hr) as
    (up & mid & down & Hup & Hmid & Hdown & Hty); [lia | done |].
  destruct (refined_cols_fit corr row col dy dx Hwf Hc1 Hc) as
    (left & mid' & right & Hleft & Hmid' & Hright & Htx); [lia | done |].
  assert (mid' = mid) as -> by congruence.
  exists up, down, left, right, mid, dy, dx.
  do 8 (split; [done|]).
  split; [rewrite peak_in_neighbourhood by (done || lia); do 2 f_equal; lia|].
  split; [|done].
  unfold calculate_shift, match_template_to_layer.
  rewrite Hlayer. cbn [mbind option_bind]. rewrite Htemplate.
  cbn [mbind option_bind]. rewrite Hback, Hcorr.
  assert (find_best_match_location corr
          = ([], Ret (Fadd dy (fl_of_nat row), Fadd dx (fl_of_nat col)))) as Hfind.
  { apply find_best_match_location_inv. exists row, col, dy, dx. by repeat split. }
  cbn [mbind py_bind py_lift]. by rewrite Hfind.
Qed.

Lemma calculate_shift_spec_witness :
  ∃ layer',
    repair_nonfinite nanmean64 1 nan_centre_3x3 = Some layer'
    ∧ repair_nonfinite nanmean64 1
        (template_value layer' (ViewOfLayer 0 2 0 2))
      = Some (slice2 layer' 0 2 0 2)
    ∧ constant_surface layer' (slice2 layer' 0 2 0 2) = Ret surface_4x4
    ∧ peak surface_4x4 = Ret (1%nat, 1%nat)
    ∧ ∃ dy dx,
        get_correlation_shifts (array_around_maximum surface_4x4 1 1)
        = ([], Ret (Some dy, Some dx))
        ∧ calculate_shift nanmean64 constant_surface 1 nan_centre_3x3
            (ViewOfLayer 0 2 0 2)
          = Some ([], Ret (Fadd dy (fl_of_nat 1), Fadd dx (fl_of_nat 1))).
Proof.
  destruct (repair_nonfinite nanmean64 1 nan_centre_3x3) as [layer'|] eqn:E;
    [|vm_compute in E; discriminate E].
  assert (repair_nonfinite nanmean64 1
            (template_value layer' (ViewOfLayer 0 2 0 2))
          = Some (slice2 layer' 0 2 0 2)) as Ht.
  { apply repair_nonfinite_finite, all_finite_slice2.
    by eapply repair_nonfinite_all_finite. }
  assert (peak surface_4x4 = Ret (1%nat, 1%nat)) as Hpeak by (vm_compute; reflexivity).
  exists layer'. split; [reflexivity|]. split; [exact Ht|].
  split; [reflexivity|]. split; [exact Hpeak|].
  destruct (calculate_shift_spec nanmean64 constant_surface 1 nan_centre_3x3
              (ViewOfLayer 0 2 0 2) layer' (slice2 layer' 0 2 0 2)
              surface_4x4 1 1 E Ht eq_refl surface_4x4_wf Hpeak)
    as (up & down & left & right & mid & dy & dx & _ & _ & _ & _ & _ & _ & _
        & Hshift & _ & Hcalc & _); [vm_compute; lia ..|].
  exists dy, dx. split; [exact Hshift | exact Hcalc].
Defined.

(** ** [calculate_shift] on finite inputs and on views *)

(** X17.  On a layer and a template without non-finite entries
    [calculate_shift] does no repair: for every fuel, the fuel 0 included,
    it is [find_best_match_location] applied to the correlation of the
    layer and the template as they were given. *)
Theorem calculate_shift_finite
    (nanmean : list fl → fl)
    (match_template : ndarray → ndarray → res ndarray)
    (fuel : nat) (this_layer : ndarray) (template : template_arg) :
  all_finite this_layer → all_finite (template_value this_layer template) →
  calculate_shift nanmean match_template fuel this_layer template
  = Some (corr ← py_lift (match_template this_layer
                            (template_value this_layer template));
          find_best_match_location corr).
Proof.
  intros Hl Ht. unfold calculate_shift, match_template_to_layer.
  rewrite (repair_nonfinite_finite nanmean fuel _ Hl). cbn [mbind option_bind].
  pose proof (repair_nonfinite_finite nanmean fuel _ Ht) as Hrun.
  rewrite Hrun. cbn [mbind option_bind].
  by destruct (template_repaired nanmean fuel this_layer template _ Hl Hrun)
    as [-> _].
Qed.

Lemma calculate_shift_finite_witness :
  all_finite surface_3x3
  ∧ all_finite (template_value surface_3x3 (OwnArray template_2x2))
  ∧ calculate_shift nanmean64 constant_surface 0 surface_3x3
      (OwnArray template_2x2)
    = Some (corr ← py_lift (constant_surface surface_3x3 template_2x2);
            find_best_match_location corr).
Proof.
  assert (all_finite surface_3x3) as Hl by repeat constructor.
  assert (all_finite (template_value surface_3x3 (OwnArray template_2x2)))
    as Ht by repeat constructor.
  split; [exact Hl|]. split; [exact Ht|].
  exact (calculate_shift_finite nanmean64 constant_surface 0 surface_3x3
           (OwnArray template_2x2) Hl Ht).
Defined.

(** X19.  When the template is a view of the layer, the repair of the layer
    has repaired the template as well: the second repair finds it finite and
    writes nothing, and the correlation is that of the repaired layer with
    its own view. *)
Theorem calculate_shift_view
    (nanmean : list fl → fl)
    (match_template : ndarray → ndarray → res ndarray)
    (fuel : nat) (this_layer layer' : ndarray) (r0 r1 c0 c1 : Z) :
  repair_nonfinite nanmean fuel this_layer = Some layer' →
  calculate_shift nanmean match_template fuel this_layer
    (ViewOfLayer r0 r1 c0 c1)
  = Some (corr ← py_lift (match_template layer' (slice2 layer' r0 r1 c0 c1));
          find_best_match_location corr).
Proof.
  intros Hrun. unfold calculate_shift, match_template_to_layer.
  rewrite Hrun. cbn [mbind option_bind template_value].
  assert (all_finite layer') as Hfin by (by eapply repair_nonfinite_all_finite).
  rewrite (repair_nonfinite_finite nanmean fuel _
             (all_finite_slice2 layer' r0 r1 c0 c1 Hfin)).
  cbn [mbind option_bind write_back]. by rewrite paste2_slice2.
Qed.

Lemma calculate_shift_view_witness :
  ∃ layer',
    repair_nonfinite nanmean64 1 nan_centre_3x3 = Some layer'
    ∧ cell (slice2 nan_centre_3x3 0 2 0 2) 1 1 = Some NaN
    ∧ cell (slice2 layer' 0 2 0 2) 1 1 = Some (fl_of_Z 5)
    ∧ calculate_shift nanmean64 constant_surface 1 nan_centre_3x3
        (ViewOfLayer 0 2 0 2)
      = Some (corr ← py_lift (constant_surface layer' (slice2 layer' 0 2 0 2));
              find_best_match_location corr).
Proof.
  destruct (repair_nonfinite nanmean64 1 nan_centre_3x3) as [layer'|] eqn:E;
    [|vm_compute in E; discriminate E].
  exists layer'. split; [reflexivity|]. split; [reflexivity|]. split.
  - vm_compute in E. injection E as <-. by_eval.
  - exact (calculate_shift_view nanmean64 constant_surface 1 nan_centre_3x3
             layer' 0 2 0 2 E).
Defined.

(** ** Bounds on the rounded mean *)

Lemma pow2_pos e : (0 < pow2 e)%Q.
Proof. apply Qpower_0_lt. reflexivity. Qed.

Lemma pow2_plus a b : (pow2 (a + b) == pow2 a * pow2 b)%Q.
Proof. apply Qpower_plus. discriminate. Qed.

Lemma pow2_le a b : a ≤ b → (pow2 a <= pow2 b)%Q.
Proof. intros H. apply Qpower_le_compat_l; [done | discriminate]. Qed.

Lemma pow2_le_inv a b : (pow2 a <= pow2 b)%Q → a ≤ b.
Proof. intros H. apply (Qpower_le_compat_l_inv 2); [done | reflexivity]. Qed.

Lemma pow2_Z n : 0 ≤ n → (pow2 n == inject_Z (2 ^ n))%Q.
Proof. intros H. unfold pow2. by rewrite Zpower_Qpower. Qed.

Lemma Qdiv_le_cross (a b c d : Q) :
  (0 < b)%Q → (0 < d)%Q → (a * d <= c * b)%Q → (a / b <= c / d)%Q.
Proof.
  intros Hb Hd H.
  apply Qle_shift_div_r; [done|].
  assert (c / d * b == c * b / d)%Q as -> by (field; lra).
  apply Qle_shift_div_l; [done|]. done.
Qed.

Lemma floor_log2_le a : (0 < a)%Q → (pow2 (floor_log2 a) <= a)%Q.
Proof.
  intros Ha. unfold floor_log2.
  set (e := Z.log2 (Qnum a) - Z.log2 (Z.pos (Qden a))).
  destruct (Qle_bool (pow2 e) a) eqn:E; [by apply Qle_bool_iff|].
  destruct a as [n d]. cbn [Qnum Qden] in e.
  assert (0 < n) as Hn by (unfold Qlt in Ha; simpl in Ha; lia).
  replace (e - 1) with (Z.log2 n - (Z.log2 (Z.pos d) + 1)) by lia.
  unfold pow2 at 1. rewrite Qpower_minus by discriminate.
  fold (pow2 (Z.log2 n)). fold (pow2 (Z.log2 (Z.pos d) + 1)).
  rewrite (pow2_Z (Z.log2 n)) by apply Z.log2_nonneg.
  rewrite (pow2_Z (Z.log2 (Z.pos d) + 1)) by (pose proof (Z.log2_nonneg (Z.pos d)); lia).
  rewrite (Qmake_Qdiv n d).
  pose proof (Z.log2_spec n Hn) as [Hn1 _].
  pose proof (Z.log2_spec (Z.pos d) eq_refl) as [_ Hd2].
  replace (Z.succ (Z.log2 (Z.pos d))) with (Z.log2 (Z.pos d) + 1) in Hd2 by lia.
  set (A := 2 ^ Z.log2 n) in *. set (B := 2 ^ (Z.log2 (Z.pos d) + 1)) in *.
  apply Qdiv_le_cross.
  - unfold Qlt. simpl. lia.
  - reflexivity.
  - rewrite <- !inject_Z_mult, <- Zle_Qle. nia.
Qed.

Lemma round_half_even_le x N : (x <= inject_Z N)%Q → round_half_even x ≤ N.
Proof.
  intros H. unfold round_half_even.
  pose proof (Qfloor_le x) as Hf.
  assert (Qfloor x ≤ N) as Hle.
  { rewrite <- (Qfloor_Z N). by apply Qfloor_resp_le. }
  assert ((1 # 2 <= x - inject_Z (Qfloor x))%Q → Qfloor x + 1 ≤ N) as Hup.
  { intros Hhalf. assert (inject_Z (Qfloor x) < inject_Z N)%Q as Hlt by lra.
    rewrite <- Zlt_Qlt in Hlt. lia. }
  destruct (x - inject_Z (Qfloor x) ?= 1 # 2)%Q eqn:E.
  - apply Qeq_alt in E. destruct (Z.even (Qfloor x)); [done|].
    apply Hup. rewrite E. apply Qle_refl.
  - done.
  - apply Qgt_alt in E. apply Hup. by apply Qlt_le_weak.
Qed.

Lemma round_half_even_nonneg x : (0 <= x)%Q → 0 ≤ round_half_even x.
Proof.
  intros H. unfold round_half_even.
  assert (0 ≤ Qfloor x) as Hf.
  { change 0 with (Qfloor 0). by apply Qfloor_resp_le. }
  destruct (_ ?= _)%Q; [destruct (Z.even _)| |]; lia.
Qed.

Lemma Qeq_bool_false_neq x : Qeq_bool x 0 = false → ¬ (x == 0)%Q.
Proof. intros H E. apply Qeq_bool_iff in E. congruence. Qed.

Lemma Qabs_gt_0 x : ¬ (x == 0)%Q → (0 < Qabs x)%Q.
Proof.
  intros H. apply Qabs_case; intros Hx.
  - destruct (Qle_lt_or_eq _ _ Hx) as [|E]; [done|]. exfalso. apply H. by rewrite E.
  - assert (x < 0)%Q; [|lra].
    destruct (Qle_lt_or_eq _ _ Hx) as [|E]; [done|]. exfalso. by apply H.
Qed.

(** A bound that is a small multiple of a power of two is kept by the
    rounding. *)
Lemma round64_le (x M : Q) (t k : Z) :
  (Qabs x <= M)%Q → (M == inject_Z t * pow2 k)%Q → 0 ≤ t ≤ 9 → -1074 ≤ k →
  (M < pow2 1024)%Q →
  ∃ q : Qc, round64 x = Fin q ∧ (Qabs q <= M)%Q.
Proof.
  intros Hx HM Ht Hk Hmax. unfold round64.
  destruct (Qeq_bool x 0) eqn:E0.
  { exists 0%Qc. split; [done|]. pose proof (Qabs_nonneg x).
    change (Qabs 0%Qc) with 0%Q. lra. }
  apply Qeq_bool_false_neq, Qabs_gt_0 in E0.
  set (a := Qabs x) in *.
  set (e := floor_log2 a).
  set (ue := Z.max e (-1022) - 52).
  pose proof (pow2_pos ue) as Hulp.
  pose proof (pow2_pos k) as Hpk.
  assert (e ≤ k + 4) as He.
  { apply pow2_le_inv.
    eapply Qle_trans; [by apply floor_log2_le|].
    eapply Qle_trans; [exact Hx|]. rewrite HM, pow2_plus.
    assert (inject_Z t <= 16)%Q as Ht'.
    { change 16%Q with (inject_Z 16). rewrite <- Zle_Qle. lia. }
    change (pow2 4) with 16%Q. nra. }
  assert (ue ≤ k) as Hue by lia.
  set (N := t * 2 ^ (k - ue)).
  assert (M == inject_Z N * pow2 ue)%Q as HN.
  { rewrite HM. unfold N. rewrite inject_Z_mult, <- pow2_Z by lia.
    rewrite <- Qmult_assoc, <- pow2_plus. by replace (k - ue + ue) with k by lia. }
  set (m := round_half_even (a / pow2 ue)).
  assert (m ≤ N) as Hm.
  { apply round_half_even_le. apply Qle_shift_div_r; [done|]. by rewrite <- HN. }
  assert (0 ≤ m) as Hm0.
  { apply round_half_even_nonneg. apply Qle_shift_div_l; [done|]. lra. }
  set (v := (inject_Z m * pow2 ue)%Q).
  assert (0 <= v)%Q as Hv0.
  { unfold v. apply Qmult_le_0_compat; [|lra]. change 0%Q with (inject_Z 0).
    by rewrite <- Zle_Qle. }
  assert (v <= M)%Q as HvM.
  { unfold v. rewrite HN. apply Qmult_le_compat_r; [|lra]. by rewrite <- Zle_Qle. }
  assert (Qle_bool (pow2 1024) v = false) as ->.
  { destruct (Qle_bool (pow2 1024) v) eqn:E; [|done].
    apply Qle_bool_iff in E. lra. }
  eexists. split; [reflexivity|].
  cbn [this Q2Qc]. rewrite Qred_correct.
  destruct (Qle_bool 0 x).
  - rewrite Qabs_pos; lra.
  - rewrite Qabs_opp, Qabs_pos; lra.
Qed.

Lemma qc_zero_of_nat n : qc_zero (Q2Qc (inject_Z (Z.of_nat (S n)))) = false.
Proof.
  unfold qc_zero. destruct (Qeq_bool _ _) eqn:E; [|done].
  apply Qeq_bool_iff in E. simpl in E. rewrite Qred_correct in E.
  unfold Qeq in E. simpl in E. lia.
Qed.

Lemma pow2_1024 k t :
  k ≤ 1020 → 0 ≤ t ≤ 9 → (inject_Z t * pow2 k < pow2 1024)%Q.
Proof.
  intros Hk Ht. pose proof (pow2_pos k). pose proof (pow2_le k 1020 Hk).
  replace 1024 with (1020 + 4) by lia. rewrite pow2_plus.
  change (pow2 4) with 16%Q.
  assert (0 <= inject_Z t <= 9)%Q as [? ?].
  { change 0%Q with (inject_Z 0). change 9%Q with (inject_Z 9).
    rewrite <- !Zle_Qle. lia. }
  nra.
Qed.

(** The sum of [nanmean64] stays within the number of terms times the bound
    of the terms. *)
Lemma sum64_bounded k l :
  -1074 ≤ k ≤ 1020 → Forall (bounded_by k) l →
  ∀ (c : nat) (s : Qc),
    (c + count_not_nan l ≤ 9)%nat →
    (Qabs s <= inject_Z (Z.of_nat c) * pow2 k)%Q →
    ∃ s' : Qc,
      fold_left (fun s v => Fround (Fadd s v)) (replace_nan l) (Fin s) = Fin s'
      ∧ (Qabs s' <= inject_Z (Z.of_nat (c + count_not_nan l)) * pow2 k)%Q.
Proof.
  intros Hk Hl. induction Hl as [|v l Hv _ IH]; intros c s Hc Hs.
  - exists s. split; [done|]. by rewrite Nat.add_0_r.
  - destruct v as [q| | |]; try done.
    + change (count_not_nan (Fin q :: l)) with (S (count_not_nan l)) in *.
      change (replace_nan (Fin q :: l)) with (Fin q :: replace_nan l).
      cbn [fold_left Fadd Fround].
      destruct (round64_le (s + q)%Qc
                  (inject_Z (Z.of_nat (S c)) * pow2 k)%Q (Z.of_nat (S c)) k)
        as (s1 & -> & Hs1); [| done | lia | lia | apply pow2_1024; lia |].
      { cbn [this Qcplus Q2Qc]. rewrite Qred_correct.
        eapply Qle_trans; [apply Qabs_triangle|].
        simpl in Hv. rewrite Nat2Z.inj_succ, <- Z.add_1_r, inject_Z_plus.
        change (inject_Z 1) with 1%Q. lra. }
      destruct (IH (S c) s1) as (s' & -> & Hs'); [lia | done |].
      exists s'. split; [done|]. by rewrite Nat.add_succ_r.
    + change (count_not_nan (NaN :: l)) with (count_not_nan l) in *.
      change (replace_nan (NaN :: l)) with (Fin 0%Qc :: replace_nan l).
      cbn [fold_left Fadd Fround].
      destruct (round64_le (s + 0)%Qc
                  (inject_Z (Z.of_nat c) * pow2 k)%Q (Z.of_nat c) k)
        as (s1 & -> & Hs1); [| done | lia | lia | apply pow2_1024; lia |].
      { cbn [this Qcplus Q2Qc]. rewrite Qred_correct.
        change (this 0%Qc) with 0%Q. by rewrite Qplus_0_r. }
      destruct (IH c s1) as (s' & -> & Hs'); [lia | done |].
      by exists s'.
Qed.

Lemma count_not_nan_le l : (count_not_nan l ≤ length l)%nat.
Proof. unfold count_not_nan. apply List.filter_length_le. Qed.

Lemma count_not_nan_pos l :
  Forall (fun v => isnan v = true ∨ isfinite v = true) l → has_finite l →
  (1 ≤ count_not_nan l)%nat.
Proof.
  unfold has_finite, count_not_nan. intros _ H.
  induction H as [v l Hv|v l _ IH]; simpl.
  - destruct v; try done. simpl. lia.
  - destruct (negb (isnan v)); simpl; lia.
Qed.

(** [nanmean64] does not overflow below [2^1020]. *)
Lemma nanmean64_bounded : mean_bounded nanmean64.
Proof.
  intros k l Hk Hlen Hl Hfin. unfold nanmean64.
  pose proof (count_not_nan_le l) as Hcnt.
  assert (1 ≤ count_not_nan l)%nat as Hpos.
  { apply count_not_nan_pos; [|done].
    eapply Forall_impl; [exact Hl|]. intros [q| | |]; simpl; auto. }
  destruct (sum64_bounded k l Hk Hl 0 0%Qc) as (s & -> & Hs); [lia | |].
  { change (Qabs 0%Qc) with 0%Q. change (inject_Z (Z.of_nat 0)) with 0%Q. lra. }
  destruct (count_not_nan l) as [|n] eqn:En; [lia|].
  unfold fl_of_nat, fl_of_Z, Fdiv. rewrite qc_zero_of_nat. cbn [Fround].
  apply (round64_le _ _ 1 k); [| | lia | lia |].
  - cbn [this Qcdiv Qcmult Qcinv Q2Qc]. rewrite !Qred_correct.
    set (d := inject_Z (Z.of_nat (S n))) in *.
    assert (1 <= d)%Q as Hd.
    { unfold d. change 1%Q with (inject_Z 1). rewrite <- Zle_Qle. lia. }
    rewrite Qabs_Qmult, (Qabs_pos (/ d)) by (apply Qlt_le_weak, Qinv_lt_0_compat; lra).
    simpl in Hs. fold d in Hs. pose proof (pow2_pos k).
    apply Qle_shift_div_r; [lra|]. lra.
  - change (inject_Z 1) with 1%Q. by rewrite Qmult_1_l.
  - pose proof (pow2_1024 k 1). change (inject_Z 1) with 1%Q in *.
    rewrite Qmult_1_l in *. apply H; lia.
Qed.

(** ** A bound that excludes overflow *)

Lemma slice_len_3 n c : (slice_len n (c - 1) (c + 2) ≤ 3)%nat.
Proof.
  unfold slice_len, slice_index.
  destruct (Z.ltb_spec (c - 1) 0), (Z.ltb_spec (c + 2) 0); lia.
Qed.

Lemma length_cells (R C : list nat) :
  length (concat ((fun i => pair i <$> C) <$> R)) = (length R * length C)%nat.
Proof.
  induction R as [|i R IH]; [done|].
  rewrite fmap_cons. cbn [concat]. rewrite length_app, length_fmap, IH. simpl. lia.
Qed.

Lemma length_omap_le {A B} (f : A → option B) l :
  (length (omap f l) ≤ length l)%nat.
Proof.
  induction l as [|x l IH]; [done|].
  rewrite omap_cons. destruct (f x); simpl; lia.
Qed.

(** The sub array of the loop has at most nine entries. *)
Lemma length_subarray z by_ bx :
  wf z → (length (flat (subarray_around z by_ bx)) ≤ 9)%nat.
Proof.
  intros Hwf. rewrite subarray_cells_flat by done.
  etrans; [apply length_omap_le|].
  unfold subarray_cells, slice_range. rewrite length_cells, !length_seq.
  pose proof (slice_len_3 (nrows z) (centre (nrows z) by_)).
  pose proof (slice_len_3 (ncols z) (centre (ncols z) bx)). nia.
Qed.

Lemma masked_bounded k z by_ bx :
  wf z → cells_bounded k z →
  Forall (bounded_by k) (mask_finite (flat (subarray_around z by_ bx))).
Proof.
  intros Hwf Hb. rewrite mask_finite_masked, subarray_cells_flat by done.
  apply Forall_fmap, Forall_forall. intros v Hv. unfold compose.
  apply list_elem_of_omap in Hv as ([i j] & _ & Hc). simpl in Hc.
  destruct v as [q| | |]; try (by rewrite masked_bad).
  rewrite masked_fin. simpl. by eapply Hb.
Qed.

Lemma has_finite_masked l : has_finite l → has_finite (mask_finite l).
Proof.
  unfold has_finite. rewrite mask_finite_masked, !Exists_exists.
  intros (v & Hin & Hf). exists v. split; [|done].
  destruct v as [q| | |]; try done.
  rewrite <- (masked_fin q). by apply list_elem_of_fmap_2.
Qed.

Lemma cells_bounded_setitem k z i j (q : Qc) :
  cells_bounded k z → (Qabs q <= pow2 k)%Q →
  cells_bounded k (setitem z i j (Fin q)).
Proof.
  intros Hb Hq a b p Hp.
  destruct (decide ((a, b) = (i, j))) as [[= -> ->]|Hne].
  - unfold cell, setitem in Hp. simpl in Hp.
    rewrite list_lookup_alter_eq in Hp.
    destruct (rows z !! i) as [r|]; [|done]. simpl in Hp.
    destruct (decide (j < length r)%nat) as [Hlt|Hge].
    + rewrite list_lookup_insert_eq in Hp by done. by injection Hp as <-.
    + rewrite lookup_ge_None_2 in Hp; [done|]. rewrite length_insert. lia.
  - rewrite cell_setitem_ne in Hp by done. by eapply Hb.
Qed.

Lemma bounded_pass nanmean k ps :
  mean_bounded nanmean → -1074 ≤ k ≤ 1020 →
  ∀ z, wf z → bad_index z = ps → cells_bounded k z →
  (∀ by_ bx, nonfinite_at z by_ bx → anchored z by_ bx) →
  pass_ok nanmean z ps = true ∧ cells_bounded k (pass nanmean z ps).
Proof.
  intros Hmean Hk.
  induction ps as [|[by_ bx] rest IH]; intros z Hwf Hbad Hb Hanch; [done|].
  cbn [pass_ok pass].
  assert (nonfinite_at z by_ bx) as Hbadp
    by (apply elem_of_bad_index; rewrite Hbad; apply list_elem_of_here).
  pose proof (anchored_first z by_ bx rest Hwf Hbad (Hanch _ _ Hbadp)) as Hhas.
  destruct (Hmean k (mask_finite (flat (subarray_around z by_ bx))) Hk)
    as (m & Hm & Hmk).
  { unfold mask_finite. rewrite length_fmap. by apply length_subarray. }
  { by apply masked_bounded. }
  { by apply has_finite_masked. }
  fold (local_mean nanmean z by_ bx) in Hm.
  assert (isfinite (local_mean nanmean z by_ bx) = true) as Hf by (by rewrite Hm).
  rewrite Hf. simpl.
  apply IH.
  - by apply repair_first_wf.
  - by apply repair_first_finite.
  - rewrite repair_first_local_mean, Hm. by apply cells_bounded_setitem.
  - by eapply anchored_step.
Qed.

(** X21.  Below [2^1020] no mean overflows: when no finite entry of the
    array exceeds [2^k] in magnitude, for a [k] up to 1020, and the sub array
    of each non-finite entry holds an entry that is finite or precedes it in
    row-major order, [repair_nonfinite] ends within one turn of the loop per
    non-finite entry, and the array it returns has no non-finite entry and
    no entry beyond [2^k]. *)
Theorem repair_nonfinite_bounded (nanmean : list fl → fl) (z : ndarray)
    (k : Z) :
  mean_bounded nanmean → wf z → -1074 ≤ k ≤ 1020 → cells_bounded k z →
  (∀ by_ bx, nonfinite_at z by_ bx → anchored z by_ bx) →
  ∃ z', (∀ fuel, (length (bad_index z) ≤ fuel)%nat →
                 repair_nonfinite nanmean fuel z = Some z')
        ∧ all_finite z' ∧ cells_bounded k z'
        ∧ nrows z' = nrows z ∧ ncols z' = ncols z.
Proof.
  intros Hmean Hwf Hk Hb Hanch.
  destruct (bounded_pass nanmean k _ Hmean Hk z Hwf eq_refl Hb Hanch)
    as [Hok Hb'].
  destruct (repair_nonfinite_pass nanmean _ z eq_refl) as (_ & Hrun & _).
  specialize (Hrun Hok).
  destruct (repair_nonfinite_run nanmean _ _ _ Hrun) as (Hnil & Hn & Hm & _).
  exists (pass nanmean z (bad_index z)).
  split; [|split; [by apply bad_index_nil | done]].
  intros fuel Hfuel. by eapply repair_nonfinite_mono.
Qed.

Lemma mirrored_3x4_bounded : cells_bounded 0 mirrored_3x4.
Proof.
  intros i j q Hq.
  destruct i as [|[|[|?]]], j as [|[|[|[|?]]]]; try discriminate Hq;
    injection Hq as <-; vm_compute; discriminate.
Qed.

Lemma repair_nonfinite_bounded_witness :
  mean_bounded nanmean64 ∧ wf mirrored_3x4 ∧ cells_bounded 0 mirrored_3x4
  ∧ (∀ by_ bx, nonfinite_at mirrored_3x4 by_ bx → anchored mirrored_3x4 by_ bx)
  ∧ ∃ z', (∀ fuel, (length (bad_index mirrored_3x4) ≤ fuel)%nat →
                   repair_nonfinite nanmean64 fuel mirrored_3x4 = Some z')
          ∧ all_finite z' ∧ cells_bounded 0 z'
          ∧ nrows z' = nrows mirrored_3x4 ∧ ncols z' = ncols mirrored_3x4.
Proof.
  assert (wf mirrored_3x4) as Hwf by repeat constructor.
  split; [exact nanmean64_bounded|]. split; [exact Hwf|].
  split; [exact mirrored_3x4_bounded|]. split; [exact mirrored_3x4_anchored|].
  apply (repair_nonfinite_bounded nanmean64 mirrored_3x4 0 nanmean64_bounded Hwf);
    [lia | exact mirrored_3x4_bounded | exact mirrored_3x4_anchored].
Defined.

(** ** The default data map *)


Lemma round_half_even_Z m : round_half_even (inject_Z m) = m.
Proof.
  unfold round_half_even. rewrite Qfloor_Z.
  destruct (inject_Z m - inject_Z m ?= 1 # 2)%Q eqn:E;
    [apply Qeq_alt in E; lra | done | apply Qgt_alt in E; lra].
Qed.



